(** * CNAB study quiz: document parser, record store, sampler and grader

    A shallow embedding of [build_db.py] (document parser and SQLite
    upsert), of [GUI/src/quiz_core.py] (sampler and grading engine) and of
    the two older copies of the grader ([quiz.py], [GUI/quiz_core.py]),
    followed by the properties the specification states about them.

    Python [str] values are modelled as [list ascii], restricted to the
    ASCII range: characters above 127 are carried along unchanged and are
    neither whitespace, letters, digits nor word characters.

    The exceptions that the code lets escape are part of the model: the
    [ValueError] of [int] on a number of more than 4300 digits, the
    [OverflowError] of [sqlite3] on an integer outside 64 bits (with the
    rollback of the import), and the [OperationalError] of SQLite on a
    statement with too many bound parameters. *)

From Stdlib Require Import Ascii String ZArith Lia.
From stdpp Require Import gmap strings list.

Open Scope Z_scope.
Open Scope list_scope.

(** ** Python string primitives *)

Module PyStr.

Abbreviation str := (list ascii).

(** A string literal, read as a Python [str]. *)
Definition py (s : string) : str := list_ascii_of_string s.

Definition ord (c : ascii) : N := N_of_ascii c.

Definition in_range (lo hi : N) (c : ascii) : bool :=
  ((lo <=? ord c) && (ord c <=? hi))%N.

(** [str.isspace] on one character, which is also what [\s] matches:
    TAB, LF, VT, FF, CR, the four separators FS, GS, RS, US, and SPACE. *)
Definition isspace (c : ascii) : bool := in_range 9 13 c || in_range 28 32 c.

Definition isdigit (c : ascii) : bool := in_range 48 57 c.
Definition isupper (c : ascii) : bool := in_range 65 90 c.
Definition islower (c : ascii) : bool := in_range 97 122 c.

(** What [\w] matches. *)
Definition isword (c : ascii) : bool :=
  isupper c || islower c || isdigit c || (ord c =? 95)%N.

(** The ASCII range, which the model covers. *)
Definition is_ascii (c : ascii) : bool := (ord c <? 128)%N.

(** [str.upper] and [str.lower] on ASCII text. Python also changes the
    case of letters above 127, not always to one character: what is said
    about case changes is said of ASCII text. *)
Definition upper_char (c : ascii) : ascii :=
  if islower c then ascii_of_N (ord c - 32) else c.
Definition lower_char (c : ascii) : ascii :=
  if isupper c then ascii_of_N (ord c + 32) else c.

Definition upper (s : str) : str := map upper_char s.
Definition lower (s : str) : str := map lower_char s.

Definition eqb (a b : str) : bool := bool_decide (a = b).

(** [bool(s)]: a string is truthy when it is not empty. *)
Definition nonempty (s : str) : bool :=
  match s with [] => false | _ :: _ => true end.

(** [bool(o)] for an [Optional[str]]: [None] and the empty string are falsy. *)
Definition truthy (o : option str) : bool :=
  match o with Some s => nonempty s | None => false end.

(** Dropping from the left, from the right and from both ends while [p]
    holds; used for characters of a string and for lines of a list. *)
Fixpoint lstrip_by {A} (p : A -> bool) (s : list A) : list A :=
  match s with
  | [] => []
  | c :: t => if p c then lstrip_by p t else s
  end.
Definition rstrip_by {A} (p : A -> bool) (s : list A) : list A :=
  reverse (lstrip_by p (reverse s)).
Definition strip_by {A} (p : A -> bool) (s : list A) : list A :=
  rstrip_by p (lstrip_by p s).

Definition lstrip : str -> str := lstrip_by isspace.
Definition rstrip : str -> str := rstrip_by isspace.
Definition strip : str -> str := strip_by isspace.

(** [s.strip(chars)] *)
Definition strip_chars (chars : str) : str -> str :=
  strip_by (fun c => bool_decide (c ∈ chars)).

(** [sep.join(parts)] *)
Fixpoint join (sep : str) (parts : list str) : str :=
  match parts with
  | [] => []
  | [p] => p
  | p :: rest => p ++ sep ++ join sep rest
  end.

(** The rest of [s] after the prefix [p], when [s.startswith(p)]. *)
Fixpoint strip_prefix (p s : str) : option str :=
  match p, s with
  | [], _ => Some s
  | a :: p', b :: s' => if bool_decide (a = b) then strip_prefix p' s' else None
  | _ :: _, [] => None
  end.

(** [s.find(sub)]: the text before and after the leftmost occurrence. *)
Fixpoint partition (sub s : str) : option (str * str) :=
  match strip_prefix sub s with
  | Some rest => Some ([], rest)
  | None =>
      match s with
      | [] => None
      | c :: t =>
          match partition sub t with
          | Some (before, after) => Some (c :: before, after)
          | None => None
          end
      end
  end.

(** [s.replace(old, new)] for an [old] of one character. *)
Definition replace_char (old : ascii) (new : str) (s : str) : str :=
  flat_map (fun c => if bool_decide (c = old) then new else [c]) s.

(** [sub in s] *)
Definition contains (sub s : str) : bool := bool_decide (is_Some (partition sub s)).

(** [s.split(sep)] for a one-character separator. *)
Fixpoint split (sep : ascii) (s : str) : list str :=
  match s with
  | [] => [[]]
  | c :: t =>
      if bool_decide (c = sep) then [] :: split sep t
      else match split sep t with
           | h :: r => (c :: h) :: r
           | [] => [[c]]
           end
  end.

(** The line boundaries of [str.splitlines] in the modelled range: LF, VT,
    FF, CR and the separators FS, GS, RS. *)
Definition is_linebreak (c : ascii) : bool := in_range 10 13 c || in_range 28 30 c.

(** [s.splitlines()]: the lines without their line breaks; CR LF is one
    break, and a break that ends the string opens no further line. *)
Fixpoint splitlines (s : str) : list str :=
  match s with
  | [] => []
  | c :: t =>
      if is_linebreak c then
        [] :: (if bool_decide (c = "013"%char)
               then match t with
                    | "010"%char :: t' => splitlines t'
                    | _ => splitlines t
                    end
               else splitlines t)
      else match splitlines t with
           | h :: r => (c :: h) :: r
           | [] => [[c]]
           end
  end.

(** [re.sub(r"\s+", " ", s)]: [in_run] records that the previous character
    was whitespace, whose run has already been replaced. *)
Fixpoint sub_ws_go (in_run : bool) (s : str) : str :=
  match s with
  | [] => []
  | c :: t =>
      if isspace c
      then (if in_run then sub_ws_go true t else " "%char :: sub_ws_go true t)
      else c :: sub_ws_go false t
  end.
Definition sub_ws : str -> str := sub_ws_go false.

(** [int(s)] for a string of decimal digits: the value it returns. CPython
    converts no string of more than [sys.get_int_max_str_digits()] digits,
    4300 unless the interpreter is told otherwise: for such a string
    [int(s)] raises [ValueError], which [int_raises] tells. Leading zeros
    count as digits. *)
Definition digit_val (c : ascii) : Z := Z.of_N (ord c) - 48.
Definition int (s : str) : Z := fold_left (fun acc c => 10 * acc + digit_val c) s 0.
Definition int_max_str_digits : Z := 4300.
Definition int_raises (s : str) : bool :=
  bool_decide (int_max_str_digits < Z.of_nat (length s)).

(** [\b]: a word boundary lies between two positions exactly one of which
    holds a word character; outside the string there is none. *)
Definition isword_at (c : option ascii) : bool :=
  match c with Some c => isword c | None => false end.
Definition boundary (before after : option ascii) : bool :=
  xorb (isword_at before) (isword_at after).

(** [re.match(rf"\b{re.escape(pat)}\b", text)] at a position of the subject
    whose preceding character is [prev]. *)
Definition match_word_here (prev : option ascii) (pat text : str) : bool :=
  match strip_prefix pat text with
  | Some rest =>
      boundary prev (head text) && boundary (last (option_list prev ++ pat)) (head rest)
  | None => false
  end.

(** [re.search(rf"\b{re.escape(pat)}\b", text) is not None], trying every
    position from the one after [prev]. *)
Fixpoint search_word_from (prev : option ascii) (pat text : str) : bool :=
  match_word_here prev pat text ||
  match text with
  | [] => false
  | c :: t => search_word_from (Some c) pat t
  end.
Definition search_word (pat text : str) : bool := search_word_from None pat text.

End PyStr.

Import PyStr.

Definition LF : ascii := "010"%char.

(** ** build_db.py *)

Module BuildDb.

(** One parsed question: the dict that [parse_docx] appends, and one row of
    the [questions] table (the surrogate [id] column is read by nothing). *)
Record question := mk_question {
  qnum : Z;
  question_text : str;
  answer_text : str;
  answer_value : option str;
  answer_option : option str
}.

(** The exceptions that the importer does not catch: [ValueError] from
    [int] on a question number of too many digits, and [OverflowError]
    from [sqlite3] on a qnum outside the 64-bit range of an SQLite
    INTEGER. *)
Inductive exception :=
| ValueError_exceeds_the_limit_for_integer_string_conversion
| OverflowError_int_too_large_to_convert_to_SQLite_INTEGER.

(** Case-insensitive literal of a pattern compiled with [re.IGNORECASE]. *)
Fixpoint istrip_prefix (p s : str) : option str :=
  match p, s with
  | [], _ => Some s
  | a :: p', b :: s' =>
      if bool_decide (lower_char a = lower_char b) then istrip_prefix p' s' else None
  | _ :: _, [] => None
  end.

(** [\s+]: at least one whitespace character, then all that follow. *)
Definition re_spaces (s : str) : option str :=
  match s with
  | c :: _ => if isspace c then Some (lstrip s) else None
  | [] => None
  end.

Fixpoint span_digits (s : str) : str * str :=
  match s with
  | c :: t => if isdigit c then let '(d, r) := span_digits t in (c :: d, r) else ([], s)
  | [] => ([], [])
  end.

(** [(\d+)]: the digits matched and what follows them. *)
Definition re_digits (s : str) : option (str * str) :=
  match span_digits s with
  | ([], _) => None
  | (d, r) => Some (d, r)
  end.

(** [Q_MARKER_RE.match(s)]: the groups [num] and [total] of
    [^Question\s+(?P<num>\d+)\s+of\s+(?P<total>\d+)\s*$]. *)
Definition Q_MARKER_RE (s : str) : option (str * str) :=
  s ← istrip_prefix (py "Question") s;
  s ← re_spaces s;
  '(num, s) ← re_digits s;
  s ← re_spaces s;
  s ← istrip_prefix (py "of") s;
  s ← re_spaces s;
  '(total, s) ← re_digits s;
  if nonempty (lstrip s) then None else Some (num, total).

Definition is_q_marker (t : str) : bool :=
  bool_decide (is_Some (Q_MARKER_RE (strip t))).

Definition marker : str := py "[+] Answer>".

(** [l[a:b]] for non-negative bounds. *)
Definition slice {A} (a b : nat) (l : list A) : list A := take (b - a) (drop a l).

(** [next(j for j, line in enumerate(lines) if p(line))] *)
Definition first_index (p : str -> bool) (lines : list str) : option nat :=
  fst <$> list_find (fun line => p line = true) lines.

(** The separator test of line 64: the stripped line is made of [=] only
    and is longer than 10. *)
Definition is_separator (line : str) : bool :=
  let s := strip line in
  nonempty s && forallb (fun c => bool_decide (c = "="%char)) s
  && bool_decide (10 < length s)%nat.

(** [while lines and lines[-1].strip() == "": lines.pop()] *)
Definition is_blank (line : str) : bool := negb (nonempty (strip line)).
Definition pop_trailing_blank (lines : list str) : list str :=
  rstrip_by is_blank lines.

(** ["\n".join(lines).strip("\n")] *)
Definition joined_text (lines : list str) : str :=
  strip_chars [LF] (join [LF] lines).

(** *** Derived grading keys (lines 84-108) *)

(** All ways to write [s] as [before ++ c :: after], leftmost first. *)
Fixpoint splits_at (c : ascii) (s : str) : list (str * str) :=
  match s with
  | [] => []
  | x :: t =>
      (if bool_decide (x = c) then [([], t)] else [])
      ++ map (fun ba => (x :: ba.1, ba.2)) (splits_at c t)
  end.

Definition has_LF (s : str) : bool := bool_decide (LF ∈ s).

(** The greedy first group and the whitespace run in front of an opening
    parenthesis: the text before the parenthesis ends in whitespace, and
    the dot crosses no newline. *)
Definition lead_ok (before : str) : bool :=
  match last before with
  | Some c => isspace c && negb (has_LF (rstrip before))
  | None => false
  end.

(** [re.match] of the two parenthesis patterns of lines 93 and 100 on a
    stripped [rest]: any text, whitespace, then a parenthesised group that
    ends the string. [inner] says what the second group accepts; the
    greedy first group picks the rightmost opening parenthesis that works.
    Returns both groups. *)
Definition re_paren (inner : str -> bool) (rest : str) : option (str * str) :=
  match reverse rest with
  | ")"%char :: body_rev =>
      match last (List.filter (fun ba => lead_ok ba.1 && inner ba.2)
                              (splits_at "("%char (reverse body_rev))) with
      | Some (before, g) =>
          Some (match partition [LF] before with
                | Some (line, _) => line
                | None => removelast before
                end, g)
      | None => None
      end
  | _ => None
  end.

Definition one_upper (g : str) : bool :=
  match g with [c] => isupper c | _ => false end.

(** [re.search] of line 86 (the phrase, whitespace, then the rest of the
    line, ignoring case): group 1 of the leftmost match. *)
Fixpoint search_correct_answer (l2 : str) : option str :=
  match (rem ← istrip_prefix (py "the correct answer is") l2;
         g ← re_spaces rem;
         if has_LF g then None else Some g) with
  | Some g => Some g
  | None =>
      match l2 with
      | [] => None
      | _ :: t => search_correct_answer t
      end
  end.

(** The loop of lines 84-108: [(answer_value, answer_option)]. *)
Fixpoint derive_keys (a_lines : list str) : option str * option str :=
  match a_lines with
  | [] => (None, None)
  | l :: more =>
      match search_correct_answer (strip l) with
      | None => derive_keys more
      | Some g =>
          let rest := strip g in
          match re_paren one_upper rest with
          | Some (g1, g2) => (Some (strip g1), Some (strip g2))
          | None =>
              match re_paren (fun g => negb (has_LF g)) rest with
              | Some (g1, g2) =>
                  let left := strip g1 in
                  let right := strip g2 in
                  (Some (if eqb (lower right) (lower left) then right else left), None)
              | None => (Some rest, None)
              end
          end
      end
  end.

(** *** parse_docx *)

(** Lines 51-60: the text after the marker on the marker line, when there
    is some, followed by the rest of the block. *)
Definition raw_a_lines (block : list str) (ans_idx : nat) : list str :=
  let marker_line := default [] (block !! ans_idx) in
  let post_marker :=
    match partition marker marker_line with
    | Some (_, after) => after
    | None => []
    end in
  (if nonempty post_marker then [post_marker] else []) ++ drop (S ans_idx) block.

(** Lines 63-68: stop at the first separator line. *)
Definition cut_at_separator (a_lines : list str) : list str :=
  match first_index is_separator a_lines with
  | Some sep_pos => take sep_pos a_lines
  | None => a_lines
  end.

(** The body of the loop of line 30 for one block: [inr None] is
    [continue], [inl] an exception that leaves the loop and the function.
    The number is converted (line 38) before the answer marker is looked
    for (lines 40-43). *)
Definition parse_block (block : list str) : exception + option question :=
  match block with
  | [] => inr None
  | b0 :: _ =>
      match Q_MARKER_RE (strip b0) with
      | None => inr None
      | Some (num, _) =>
          if int_raises num
          then inl ValueError_exceeds_the_limit_for_integer_string_conversion
          else
            let qnum := int num in
            match first_index (contains marker) block with
            | None => inr None
            | Some ans_idx =>
                let q_lines := slice 1 ans_idx block in
                let a_lines := cut_at_separator (raw_a_lines block ans_idx) in
                let q_lines := pop_trailing_blank q_lines in
                let a_lines := pop_trailing_blank a_lines in
                let keys := derive_keys a_lines in
                inr (Some {| qnum := qnum;
                             question_text := joined_text q_lines;
                             answer_text := joined_text a_lines;
                             answer_value := keys.1;
                             answer_option := keys.2 |})
            end
      end
  end.

(** The loop over the blocks: the records in order, up to the first block
    that raises. *)
Fixpoint collect (results : list (exception + option question))
  : exception + list question :=
  match results with
  | [] => inr []
  | inl e :: _ => inl e
  | inr o :: more =>
      match collect more with
      | inl e => inl e
      | inr questions => inr (option_list o ++ questions)
      end
  end.

(** [[i for i, t in enumerate(paras) if Q_MARKER_RE.match(t.strip())]] *)
Definition q_indices (paras : list str) : list nat :=
  fst <$> List.filter (fun it => is_q_marker it.2) (imap pair paras).

(** [parse_docx] from the paragraph texts of the document on. *)
Definition parse_docx (texts : list str) : exception + list question :=
  let paras := rstrip <$> texts in
  let q_indices := q_indices paras in
  collect
    (imap (fun k start =>
             let end_ := default (length paras) (q_indices !! S k) in
             parse_block (slice start end_ paras))
          q_indices).

(** *** The questions table *)

(** [ON CONFLICT(qnum) DO UPDATE SET ...] applied to one existing row. *)
Definition do_update (excluded row : question) : question :=
  if bool_decide (qnum row = qnum excluded)
  then {| qnum := qnum row;
          question_text := question_text excluded;
          answer_text := answer_text excluded;
          answer_value := answer_value excluded;
          answer_option := answer_option excluded |}
  else row.

(** One [INSERT ... ON CONFLICT(qnum) DO UPDATE]; the table is the list of
    its rows in rowid order. *)
Definition upsert_one (table : list question) (q : question) : list question :=
  if bool_decide (qnum q ∈ qnum <$> table)
  then do_update q <$> table
  else table ++ [q].

(** A Python [int] that [sqlite3] can bind: SQLite's INTEGER has 64 bits. *)
Definition fits_int64 (n : Z) : bool := bool_decide (- 2 ^ 63 <= n < 2 ^ 63).

(** [conn.executemany(...)] over the records, in order; binding a qnum
    that does not fit raises [OverflowError]. *)
Fixpoint executemany (table : list question) (questions : list question)
  : exception + list question :=
  match questions with
  | [] => inr table
  | q :: more =>
      if fits_int64 (qnum q) then executemany (upsert_one table q) more
      else inl OverflowError_int_too_large_to_convert_to_SQLite_INTEGER
  end.

(** [upsert_questions]: the table it leaves and the exception it raises,
    if any. The [with] block commits what [executemany] has done when it
    returns and rolls it back when it raises. *)
Definition upsert_questions (table : list question) (questions : list question)
  : list question * option exception :=
  match executemany table questions with
  | inr table' => (table', None)
  | inl e => (table, Some e)
  end.

(** *** main *)

(** How [main] ends when it does not return 0: with one of its two
    [SystemExit] messages, or with an exception that nothing catches. *)
Inductive exit_message :=
| Docx_not_found
| No_questions_were_parsed
| Uncaught (e : exception).

(** [main]: [docx] is the paragraph texts of the document, absent when the
    file does not exist; [db] is the table as it stands ([init_db] creates
    it empty when it is missing and leaves its rows alone otherwise). On
    success the table after the upsert and the number of imported
    questions that is printed; when [main] ends otherwise the table is as
    it was. *)
Definition main (docx : option (list str)) (db : list question)
  : exit_message + (list question * nat) :=
  match docx with
  | None => inl Docx_not_found
  | Some texts =>
      match parse_docx texts with
      | inl e => inl (Uncaught e)
      | inr questions =>
          if bool_decide (questions = []) then inl No_questions_were_parsed
          else
            match upsert_questions db questions with
            | (db', None) => inr (db', length questions)
            | (_, Some e) => inl (Uncaught e)
            end
      end
  end.

End BuildDb.

(** ** The block structure of a document, read structurally

    [parse_docx] cuts the document by index arithmetic and stops at the
    first block that raises; [upsert_questions] commits or rolls back.
    These definitions describe the same blocks by recursion on the
    paragraphs, what a block gives apart from whether its number converts,
    and the table of a committed import. They serve the proofs only:
    [parse_docx_view], [parse_block_view] and [upsert_questions_commits]
    relate them to the functions of the source. *)

Module Blocks.

Import BuildDb.

(** The paragraphs up to the next question marker. *)
Fixpoint until_marker (paras : list str) : list str :=
  match paras with
  | [] => []
  | t :: rest => if is_q_marker t then [] else t :: until_marker rest
  end.

(** One block per question marker: the marker line and what follows it up
    to the next marker. Paragraphs before the first marker belong to no
    block. *)
Fixpoint blocks_of (paras : list str) : list (list str) :=
  match paras with
  | [] => []
  | t :: rest =>
      if is_q_marker t then (t :: until_marker rest) :: blocks_of rest
      else blocks_of rest
  end.

(** Whether the conversion of the block's question number raises. *)
Definition number_raises (block : list str) : bool :=
  match block with
  | [] => false
  | b0 :: _ =>
      match Q_MARKER_RE (strip b0) with
      | Some (num, _) => int_raises num
      | None => false
      end
  end.

(** What a block gives when the conversion of its number returns: its
    record, or nothing when it has no answer marker. *)
Definition record_of (block : list str) : option question :=
  match block with
  | [] => None
  | b0 :: _ =>
      match Q_MARKER_RE (strip b0) with
      | None => None
      | Some (num, _) =>
          match first_index (contains marker) block with
          | None => None
          | Some ans_idx =>
              let q_lines := pop_trailing_blank (slice 1 ans_idx block) in
              let a_lines :=
                pop_trailing_blank (cut_at_separator (raw_a_lines block ans_idx)) in
              let keys := derive_keys a_lines in
              Some {| qnum := int num;
                      question_text := joined_text q_lines;
                      answer_text := joined_text a_lines;
                      answer_value := keys.1;
                      answer_option := keys.2 |}
          end
      end
  end.

(** The records of the blocks of a document, when no conversion raises. *)
Definition records_of (texts : list str) : list question :=
  omap record_of (blocks_of (rstrip <$> texts)).

(** The table after the single upserts of an import, one after the other:
    what a committed import leaves. *)
Definition committed (table questions : list question) : list question :=
  fold_left upsert_one questions table.

(** [q_indices] of a document whose first paragraph has index [o]. *)
Definition q_indices_from (o : nat) (paras : list str) : list nat :=
  fst <$> List.filter (fun it => is_q_marker it.2)
                      (imap (fun i t => ((o + i)%nat, t)) paras).

End Blocks.

(** ** GUI/src/quiz_core.py *)

Module QuizCore.

Record QA := mk_QA {
  qnum : Z;
  question_text : str;
  answer_text : str;
  answer_value : option str;
  answer_option : option str
}.

(** [o or ""] *)
Definition or_empty (o : option str) : str := default [] o.

Definition normalize (s : str) : str := lower (sub_ws (strip s)).

Definition _split_csv_list (s : str) : list str :=
  strip <$> List.filter (fun p => nonempty (strip p)) (split ","%char s).

(** [set(a) == set(b)] *)
Definition same_items (a b : list str) : bool :=
  bool_decide (list_to_set a =@{gset str} list_to_set b).

(** *** load_random_questions *)

(** The part of [random.Random] the sampler uses, which is library code:
    a generator built from an integer seed, and the selection that
    [sample] makes once it has accepted its arguments. *)
Class PyRandom := {
  rng : Type;
  seed_rng : Z -> rng;
  draw : rng -> list Z -> nat -> list Z
}.

(** What the library promises of the selection: [k] items taken from
    distinct positions of the population. *)
Definition draw_ok `{PyRandom} : Prop :=
  forall g population k, (k <= length population)%nat ->
    length (draw g population k) = k /\ draw g population k ⊆+ population.

(** [random.Random(seed)]: without a seed the generator is seeded from the
    operating system's entropy. *)
Definition Random `{PyRandom} (seed : option Z) (entropy : Z) : rng :=
  seed_rng (default entropy seed).

(** [rng.sample(population, k)], which raises [ValueError] unless
    [0 <= k <= len(population)]. *)
Definition sample `{PyRandom} (g : rng) (population : list Z) (k : Z)
  : option (list Z) :=
  if bool_decide (0 <= k <= Z.of_nat (length population))
  then Some (draw g population (Z.to_nat k))
  else None.

(** What one call observes besides its arguments: the entropy a seedless
    generator starts from, and the order in which the [IN (...)] query
    hands back the rows it selects. *)
Record world := mk_world {
  entropy : Z;
  fetch_order : list BuildDb.question -> list BuildDb.question
}.

(** The SQLite library of the installation: the largest number of bound
    parameters that it accepts in one statement
    ([SQLITE_LIMIT_VARIABLE_NUMBER], set when the library is built: 999
    before version 3.32, 32766 since, 250000 on some distributions). *)
Class Sqlite3 := {
  variable_number : nat
}.

Inductive error :=
| Database_contains_0_questions
| Requested_but_database_only_has (count total : Z)
| Sample_larger_than_population_or_is_negative
| OperationalError_too_many_SQL_variables
| KeyError (n : Z).

Definition QA_of_row (r : BuildDb.question) : QA :=
  {| qnum := BuildDb.qnum r;
     question_text := BuildDb.question_text r;
     answer_text := BuildDb.answer_text r;
     answer_value := BuildDb.answer_value r;
     answer_option := BuildDb.answer_option r |}.

(** [{r["qnum"]: r for r in rows}] *)
Definition dict_by_qnum (rows : list BuildDb.question) : gmap Z BuildDb.question :=
  foldl (fun d r => <[BuildDb.qnum r := r]> d) ∅ rows.

(** [[by_qnum[n] for n in chosen]], which raises [KeyError] at the first
    missing key. *)
Fixpoint lookup_all (by_qnum : gmap Z BuildDb.question) (chosen : list Z)
  : error + list BuildDb.question :=
  match chosen with
  | [] => inr []
  | n :: more =>
      match by_qnum !! n with
      | None => inl (KeyError n)
      | Some r =>
          match lookup_all by_qnum more with
          | inr rs => inr (r :: rs)
          | inl e => inl e
          end
      end
  end.

(** [table] is the [questions] table as the importer writes it. [scan] is
    the order in which SQLite yields the table for the query
    [SELECT qnum FROM questions], a function of the table. The [IN] query
    binds one parameter for every drawn qnum and is refused
    ([OperationalError]) when these are more than the library accepts. *)
Definition load_random_questions `{PyRandom} `{Sqlite3}
    (scan : list BuildDb.question -> list BuildDb.question)
    (table : list BuildDb.question) (count : Z) (seed : option Z) (w : world)
  : error + list QA :=
  let rng := Random seed (entropy w) in
  let total := Z.of_nat (length table) in
  if bool_decide (total = 0) then inl Database_contains_0_questions
  else if bool_decide (count > total)
  then inl (Requested_but_database_only_has count total)
  else
    let qnums := BuildDb.qnum <$> scan table in
    match sample rng qnums count with
    | None => inl Sample_larger_than_population_or_is_negative
    | Some chosen =>
        if bool_decide (variable_number < length chosen)%nat
        then inl OperationalError_too_many_SQL_variables
        else
          let rows :=
            fetch_order w (filter (fun r => BuildDb.qnum r ∈ chosen) table) in
          let by_qnum := dict_by_qnum rows in
          match lookup_all by_qnum chosen with
          | inl e => inl e
          | inr ordered => inr (QA_of_row <$> ordered)
          end
    end.

(** *** extract_mc_options *)

(** The end of the option pattern after the dash: optional whitespace, a
    lazy group of at least one character other than a newline, optional
    whitespace, end of string. Returns the group. *)
Definition re_option_text (body : str) : option str :=
  let b := lstrip body in
  if nonempty b
  then (if bool_decide (LF ∈ rstrip b) then None else Some (rstrip b))
  else match last (List.filter (fun c => negb (bool_decide (c = LF))) body) with
       | Some c => Some [c]
       | None => None
       end.

(** [re.match] of the option pattern on one line: optional whitespace, one
    uppercase letter, optional whitespace, a dash, then the text. The
    pattern also takes an en dash (U+2013), which lies outside the
    modelled range. Returns groups 1 and 2. *)
Definition re_option_line (line : str) : option (ascii * str) :=
  match lstrip line with
  | letter :: after_letter =>
      if isupper letter then
        match lstrip after_letter with
        | dash :: body =>
            if bool_decide (dash = "-"%char)
            then pair letter <$> re_option_text body
            else None
        | [] => None
        end
      else None
  | [] => None
  end.

Definition extract_mc_options (question_text : str) : list (str * str) :=
  omap (fun line =>
          (fun m : ascii * str => (upper [m.1], m.2)) <$> re_option_line line)
       (splitlines question_text).

(** *** is_correct *)

Definition isalpha (s : str) : bool :=
  nonempty s && forallb (fun c => isupper c || islower c) s.

(** Step 1 (lines 96-105): the record carries an option letter. *)
Definition grade_option (ua : str) (opt : str) : bool :=
  if eqb (upper ua) (upper (strip opt)) then true
  else if bool_decide (length ua = 1%nat) && isalpha ua then false
  else false.

Definition order_required (qa : QA) : bool :=
  let qlow := lower (question_text qa) in
  contains (py "alphabetical order") qlow || contains (py "reverse alphabetical") qlow.

(** Lines 114-123: the comma-separated lists compared as sets. *)
Definition grade_csv (ua value : str) (case_sensitive : bool) : bool :=
  let exp_parts := _split_csv_list value in
  let user_parts := _split_csv_list ua in
  if case_sensitive then same_items user_parts exp_parts
  else same_items (normalize <$> user_parts) (normalize <$> exp_parts).

(** Lines 126-131: the whole answer compared with the derived value. *)
Definition grade_exact (ua value : str) (case_sensitive : bool) : bool :=
  if case_sensitive then eqb ua (strip value)
  else eqb (normalize ua) (normalize value).

(** Step 2 (lines 108-131): [true] when one of its [return True] is
    reached. *)
Definition grade_value (ua : str) (qa : QA) (case_sensitive : bool) : bool :=
  truthy (answer_value qa) &&
  (let value := or_empty (answer_value qa) in
   (negb (order_required qa) && contains [","%char] value && contains [","%char] ua
    && grade_csv ua value case_sensitive)
   || grade_exact ua value case_sensitive).

(** Step 3 (lines 134-144): whole-word search in the answer text. *)
Definition grade_fallback (ua : str) (qa : QA) (case_sensitive : bool) : bool :=
  let at_ := answer_text qa in
  if case_sensitive then
    if bool_decide (length ua < 3)%nat then false else search_word ua at_
  else
    let ua_n := normalize ua in
    let at_n := normalize at_ in
    if bool_decide (length ua_n < 3)%nat then false else search_word ua_n at_n.

Definition is_correct (user_answer : str) (qa : QA) (case_sensitive : bool) : bool :=
  let ua := strip user_answer in
  if negb (nonempty ua) then false
  else if truthy (answer_option qa)
  then grade_option ua (or_empty (answer_option qa))
  else if grade_value ua qa case_sensitive then true
  else grade_fallback ua qa case_sensitive.

End QuizCore.

(** ** GUI/src/gui_app.py: the functions that touch no widget *)

Module GuiApp.

Definition escape_html (s : option str) : str :=
  replace_char ">"%char (py "&gt;")
    (replace_char "<"%char (py "&lt;")
       (replace_char "&"%char (py "&amp;") (QuizCore.or_empty s))).

(** What [escape_html] makes of one character. *)
Definition entity (c : ascii) : str :=
  if bool_decide (c = "&"%char) then py "&amp;"
  else if bool_decide (c = "<"%char) then py "&lt;"
  else if bool_decide (c = ">"%char) then py "&gt;"
  else [c].

(** The label of an option button: the letter, a dash, the option text. *)
Definition option_label (letter text : str) : str := letter ++ py " - " ++ text.

End GuiApp.

(** ** quiz.py, and GUI/quiz_core.py which grades the same way *)

Module Quiz.

Import QuizCore.

Definition normalize (s : str) : str := lower (sub_ws (strip s)).

Definition is_correct (user_answer : str) (qa : QA) (case_sensitive : bool) : bool :=
  let ua := strip user_answer in
  if negb (nonempty ua) then false
  else if truthy (answer_option qa)
          && eqb (upper (strip ua)) (upper (or_empty (answer_option qa)))
  then true
  else if truthy (answer_value qa)
          && (if case_sensitive
              then eqb (strip ua) (strip (or_empty (answer_value qa)))
              else eqb (normalize ua) (normalize (or_empty (answer_value qa))))
  then true
  else if case_sensitive then contains ua (answer_text qa)
  else contains (normalize ua) (normalize (answer_text qa)).

End Quiz.

(** ** The specification's vocabulary *)

Module Spec.

(** A whole-word/phrase match, in the specification's words: an occurrence
    of the phrase in the text that is delimited by a word boundary on both
    sides. *)
Definition whole_word_occurrence (pat text : str) : Prop :=
  exists pre post,
    text = pre ++ pat ++ post /\
    boundary (last pre) (head (pat ++ post)) = true /\
    boundary (last (pre ++ pat)) (head post) = true.

(** A section terminator, in the specification's words: a line that, once
    stripped, consists only of [=] characters and is longer than 10. *)
Definition separator_line (line : str) : Prop :=
  exists n, (10 < n)%nat /\ strip line = replicate n "="%char.

(** Lines whose joined text neither starts nor ends with a newline: the
    first line has a first character other than the newline, and the last
    line is not blank and does not end in a newline. *)
Definition verbatim_core (core : list str) : Prop :=
  (exists first c, head core = Some first /\ head first = Some c /\ c <> LF)
  /\ (exists final c, last core = Some final /\ last final = Some c /\ c <> LF
                     /\ BuildDb.is_blank final = false).

(** What the parser stores for a segment: the segment up to its last
    non-blank line, joined with newlines, with the newlines at both ends
    of the joined text removed; and, when the segment is empty lines, then
    a core, then blank lines, exactly the core joined with newlines. *)
Definition stored_text (seg : list str) (text : str) : Prop :=
  (exists kept dropped,
      seg = kept ++ dropped /\
      Forall (fun l => BuildDb.is_blank l = true) dropped /\
      (forall l, last kept = Some l -> BuildDb.is_blank l = false) /\
      text = strip_chars [LF] (join [LF] kept))
  /\ (forall lead core trail,
        seg = lead ++ core ++ trail ->
        Forall (fun l => l = []) lead ->
        verbatim_core core ->
        Forall (fun l => BuildDb.is_blank l = true) trail ->
        text = join [LF] core).

(** A question marker line, in words: the word "question" in any case,
    whitespace, the digits of the number, whitespace, the word "of" in any
    case, whitespace, the digits of the total, and whitespace or nothing
    up to the end. *)
Definition question_marker (line num total : str) : Prop :=
  exists kw1 w1 w2 kw2 w3 w4,
    line = kw1 ++ w1 ++ num ++ w2 ++ kw2 ++ w3 ++ total ++ w4
    /\ lower kw1 = py "question" /\ lower kw2 = py "of"
    /\ w1 <> [] /\ w2 <> [] /\ w3 <> []
    /\ Forall (fun c => isspace c = true) (w1 ++ w2 ++ w3 ++ w4)
    /\ num <> [] /\ total <> []
    /\ Forall (fun c => isdigit c = true) (num ++ total).

(** Every question number of the document is one that [int] converts: it
    has no more digits than the interpreter's limit. *)
Definition numbers_convert (texts : list str) : Prop :=
  forall t num total,
    t ∈ texts -> BuildDb.Q_MARKER_RE (strip t) = Some (num, total) ->
    Z.of_nat (length num) <= int_max_str_digits.

(** The question number that a paragraph announces when it is a question
    marker. *)
Definition marker_number (t : str) : option Z :=
  (fun m : str * str => int m.1) <$> BuildDb.Q_MARKER_RE (strip t).





End Spec.

(** ** Sample records and documents *)

Module Examples.

Import QuizCore.

Definition lines (ss : list string) : list str := py <$> ss.

Definition dhcp : QA :=
  {| qnum := 7;
     question_text := py "Which protocol hands out addresses?";
     answer_text := py "the correct answer is DHCP (C)";
     answer_value := Some (py "DHCP");
     answer_option := Some (py "C") |}.

(** The same record with blanks around the stored letter. *)
Definition dhcp_padded : QA :=
  {| qnum := 7;
     question_text := py "Which protocol hands out addresses?";
     answer_text := py "the correct answer is DHCP (C)";
     answer_value := Some (py "DHCP");
     answer_option := Some (py " C ") |}.

Definition colours : QA :=
  {| qnum := 8;
     question_text := py "Name the two colours.";
     answer_text := py "the correct answer is Blue, Red";
     answer_value := Some (py "Blue, Red");
     answer_option := None |}.

Definition colours_ordered : QA :=
  {| qnum := 9;
     question_text := py "Name the two colours in Alphabetical Order.";
     answer_text := py "the correct answer is Blue, Red";
     answer_value := Some (py "Blue, Red");
     answer_option := None |}.

Definition switch : QA :=
  {| qnum := 10;
     question_text := py "How does a switch forward?";
     answer_text := py "the switch forwards frames based on MAC addresses";
     answer_value := None;
     answer_option := None |}.

(** A document of three blocks whose second block has no answer marker. *)
Definition doc_before : list str :=
  lines ["Study questions"; "Question 1 of 3"; "Which layer frames?";
         "[+] Answer>   the correct answer is Data Link (B)"; ""].
Definition doc_no_answer : list str :=
  lines ["Question 2 of 3"; "A question whose answer was lost"; ""].
Definition doc_after : list str :=
  lines ["Question 3 of 3"; "Name the colours."; "[+] Answer>";
         "the correct answer is Blue, Red"].

(** A block with an empty line before and after the question, an answer
    of several lines, and a section terminator. *)
Definition block_q4 : list str :=
  lines ["Question 4 of 9"; ""; "What is a frame?"; ""; "  A - a PDU"; "";
         "[+] Answer> the correct answer is a PDU (A)"; "";
         "  It lives at layer 2."; ""; "================"; "Section 2"].

Definition rec_q4 : BuildDb.question :=
  {| BuildDb.qnum := 4;
     BuildDb.question_text := join [LF] (lines ["What is a frame?"; ""; "  A - a PDU"]);
     BuildDb.answer_text :=
       join [LF] (lines [" the correct answer is a PDU (A)"; ""; "  It lives at layer 2."]);
     BuildDb.answer_value := Some (py "a PDU");
     BuildDb.answer_option := Some (py "A") |}.

(** Three stored rows, and a re-import that changes one of them and adds
    a fourth. *)
Definition row (n : Z) (q a : string) : BuildDb.question :=
  {| BuildDb.qnum := n;
     BuildDb.question_text := py q;
     BuildDb.answer_text := py a;
     BuildDb.answer_value := None;
     BuildDb.answer_option := None |}.

Definition table3 : list BuildDb.question :=
  [row 5 "five?" "5"; row 3 "three?" "3"; row 9 "nine?" "9"].

Definition reimport : list BuildDb.question :=
  [row 3 "three!" "III"; row 4 "four?" "4"; rec_q4; row 3 "three again" "3"].

(** A small generator for concrete runs, standing in for CPython's
    Mersenne Twister: the state is a rotation of the population, from
    which the first [k] items are drawn. *)
Definition rotating_random : PyRandom :=
  {| rng := nat;
     seed_rng := Z.abs_nat;
     draw := fun g population k => take k (rotate g population) |}.

(** The record of the block of [doc_before]. *)
Definition rec_q1 : BuildDb.question :=
  {| BuildDb.qnum := 1;
     BuildDb.question_text := py "Which layer frames?";
     BuildDb.answer_text := py "   the correct answer is Data Link (B)";
     BuildDb.answer_value := Some (py "Data Link");
     BuildDb.answer_option := Some (py "B") |}.

(** An SQLite library built with the parameter limit of the versions
    before 3.32. *)
Definition sqlite_999 : Sqlite3 := {| variable_number := 999 |}.

(** A table of [n] rows numbered from 1, and a question number of 4301
    digits. *)
Definition numbered (n : nat) : list BuildDb.question :=
  (fun k => row (Z.of_nat k) "?" "!") <$> seq 1 n.
Definition too_long : str := replicate 4301 "7"%char.

(** A run that fetches the selected rows in reverse table order, and one
    with other entropy that fetches them in table order. *)
Definition world0 : world := {| entropy := 2024; fetch_order := reverse |}.
Definition world1 : world := {| entropy := 7; fetch_order := id |}.

End Examples.

(** * Properties *)

(** ** Stripping characters and lines *)

Section Strip.

Context {A : Type} (p : A -> bool).
Implicit Types (s a b : list A) (c : A).

Lemma lstrip_by_suffix s :
  exists a, s = a ++ lstrip_by p s /\ Forall (fun c => p c = true) a.
Proof.
  induction s as [|c s (a & IH & Ha)]; simpl.
  - by exists [].
  - destruct (p c) eqn:E.
    + exists (c :: a). split; [by rewrite IH at 1|by constructor].
    + by exists [].
Qed.

Lemma head_lstrip_by s c : head (lstrip_by p s) = Some c -> p c = false.
Proof.
  induction s as [|x s IH]; simpl; [done|].
  destruct (p x) eqn:E; [done|]. simpl. congruence.
Qed.

Lemma lstrip_by_id s : (forall c, head s = Some c -> p c = false) -> lstrip_by p s = s.
Proof. destruct s as [|x s]; simpl; [done|]. intros H. by rewrite (H x). Qed.

Lemma lstrip_by_all s : Forall (fun c => p c = true) s -> lstrip_by p s = [].
Proof. induction 1 as [|c s Hc _ IH]; simpl; [done|]. by rewrite Hc. Qed.

Lemma lstrip_by_app_l a s :
  Forall (fun c => p c = true) a -> lstrip_by p (a ++ s) = lstrip_by p s.
Proof. induction 1 as [|c a Hc _ IH]; simpl; [done|]. by rewrite Hc. Qed.

Lemma lstrip_by_app_keep s b :
  lstrip_by p s <> [] -> lstrip_by p (s ++ b) = lstrip_by p s ++ b.
Proof.
  induction s as [|c s IH]; simpl; [done|].
  destruct (p c); [done|]. by intros _.
Qed.

Lemma rstrip_by_prefix s :
  exists b, s = rstrip_by p s ++ b /\ Forall (fun c => p c = true) b.
Proof.
  unfold rstrip_by. destruct (lstrip_by_suffix (reverse s)) as (a & Heq & Ha).
  exists (reverse a). split.
  - rewrite <- reverse_app, <- Heq. by rewrite reverse_involutive.
  - by apply Forall_reverse.
Qed.

Lemma last_rstrip_by s c : last (rstrip_by p s) = Some c -> p c = false.
Proof.
  unfold rstrip_by. rewrite last_reverse. apply head_lstrip_by.
Qed.

Lemma rstrip_by_id s : (forall c, last s = Some c -> p c = false) -> rstrip_by p s = s.
Proof.
  intros H. unfold rstrip_by. rewrite lstrip_by_id, reverse_involutive; [done|].
  intros c. rewrite head_reverse. apply H.
Qed.

Lemma rstrip_by_app_r s b :
  Forall (fun c => p c = true) b -> rstrip_by p (s ++ b) = rstrip_by p s.
Proof.
  intros Hb. unfold rstrip_by. rewrite reverse_app.
  rewrite lstrip_by_app_l; [done|]. by apply Forall_reverse.
Qed.

Lemma rstrip_by_all s : Forall (fun c => p c = true) s -> rstrip_by p s = [].
Proof.
  intros H. unfold rstrip_by. rewrite lstrip_by_all; [done|]. by apply Forall_reverse.
Qed.

(** Stripping on the right keeps a first character that is not stripped. *)
Lemma head_rstrip_by s c :
  head s = Some c -> p c = false -> head (rstrip_by p s) = Some c.
Proof.
  intros Hh Hc. destruct (rstrip_by_prefix s) as (b & Heq & Hb).
  destruct (rstrip_by p s) as [|x r] eqn:E.
  - simpl in Heq. subst b. destruct s as [|y s]; [done|].
    injection Hh as ->. apply Forall_cons in Hb as [? _]. congruence.
  - rewrite Heq in Hh. simpl in *. congruence.
Qed.

Lemma strip_by_clean s c :
  (head (strip_by p s) = Some c -> p c = false) /\
  (last (strip_by p s) = Some c -> p c = false).
Proof.
  unfold strip_by. split; [|apply last_rstrip_by].
  destruct (rstrip_by_prefix (lstrip_by p s)) as (b & Heq & _).
  destruct (rstrip_by p (lstrip_by p s)) as [|x r]; [done|].
  intros [= ->]. apply (head_lstrip_by s). by rewrite Heq.
Qed.

Lemma strip_by_id s :
  (forall c, head s = Some c -> p c = false) ->
  (forall c, last s = Some c -> p c = false) ->
  strip_by p s = s.
Proof. intros Hh Hl. unfold strip_by. by rewrite lstrip_by_id, rstrip_by_id. Qed.

Lemma strip_by_idemp s : strip_by p (strip_by p s) = strip_by p s.
Proof. apply strip_by_id; intros c; apply strip_by_clean. Qed.

(** The string is its stripped form between two runs of stripped
    characters. *)
Lemma strip_by_decompose s :
  exists a b, s = a ++ strip_by p s ++ b /\
    Forall (fun c => p c = true) a /\ Forall (fun c => p c = true) b.
Proof.
  destruct (lstrip_by_suffix s) as (a & Ha & HPa).
  destruct (rstrip_by_prefix (lstrip_by p s)) as (b & Hb & HPb).
  exists a, b. unfold strip_by. by rewrite <- Hb.
Qed.

Lemma strip_by_pad a s b :
  Forall (fun c => p c = true) a -> Forall (fun c => p c = true) b ->
  strip_by p (a ++ s ++ b) = strip_by p s.
Proof.
  intros Ha Hb. unfold strip_by. rewrite lstrip_by_app_l by done.
  destruct (lstrip_by p s) as [|x r] eqn:E.
  - destruct (lstrip_by_suffix s) as (a' & Heq & Ha'). rewrite E, app_nil_r in Heq.
    subst a'. rewrite lstrip_by_all; [done|]. by apply Forall_app.
  - rewrite lstrip_by_app_keep, E by (by rewrite E). by apply rstrip_by_app_r.
Qed.

Lemma elem_of_strip_by s c : p c = false -> c ∈ strip_by p s <-> c ∈ s.
Proof.
  intros Hc. destruct (strip_by_decompose s) as (a & b & Heq & Ha & Hb).
  rewrite Heq at 2. rewrite !elem_of_app. split; [tauto|].
  rewrite Forall_forall in Ha, Hb.
  intros [H|[H|H]]; [apply Ha in H; congruence|done|apply Hb in H; congruence].
Qed.

End Strip.


(** ** Python string primitives *)

Section PyStrFacts.

Implicit Types (s t p pat text : str) (c : ascii).

Lemma last_option_list {A} (o : option A) : last (option_list o) = o.
Proof. by destruct o. Qed.

Lemma last_prev_cons {A} (prev : option A) x (l : list A) :
  last (option_list prev ++ x :: l) = last (option_list (Some x) ++ l).
Proof.
  rewrite last_app. change (option_list (Some x) ++ l) with (x :: l).
  destruct (last (x :: l)) eqn:E; [done|]. by apply last_None in E.
Qed.

Lemma strip_prefix_Some p s r : strip_prefix p s = Some r <-> s = p ++ r.
Proof.
  revert s. induction p as [|a p IH]; intros [|b s]; simpl;
    try (split; congruence).
  case_bool_decide; subst.
  - rewrite IH. split; congruence.
  - split; congruence.
Qed.

Lemma strip_prefix_app p r : strip_prefix p (p ++ r) = Some r.
Proof. by apply strip_prefix_Some. Qed.

Lemma partition_Some sub s before after :
  partition sub s = Some (before, after) -> s = before ++ sub ++ after.
Proof.
  revert before. induction s as [|c s IH]; intros before; simpl.
  - destruct (strip_prefix sub []) eqn:E; [|done].
    intros [= <- <-]. by apply strip_prefix_Some in E.
  - destruct (strip_prefix sub (c :: s)) eqn:E.
    + intros [= <- <-]. by apply strip_prefix_Some in E.
    + destruct (partition sub s) as [[b a]|]; [|done].
      intros [= <- <-]. by rewrite (IH b).
Qed.

Lemma partition_unfold sub s :
  partition sub s =
  match strip_prefix sub s with
  | Some rest => Some ([], rest)
  | None =>
      match s with
      | [] => None
      | c :: t =>
          match partition sub t with
          | Some (before, after) => Some (c :: before, after)
          | None => None
          end
      end
  end.
Proof. by destruct s. Qed.

Lemma partition_occurrence sub before after :
  is_Some (partition sub (before ++ sub ++ after)).
Proof.
  induction before as [|c before IH]; rewrite partition_unfold.
  - simpl. rewrite strip_prefix_app. eauto.
  - destruct (strip_prefix sub _); [eauto|].
    simpl. destruct IH as [[b a] ->]. eauto.
Qed.

(** [sub in s] holds exactly when [s] has an occurrence of [sub]. *)
Lemma contains_spec sub s :
  contains sub s = true <-> exists before after, s = before ++ sub ++ after.
Proof.
  unfold contains. rewrite bool_decide_eq_true. split.
  - intros [[b a] H]. exists b, a. by apply partition_Some.
  - intros (b & a & ->). apply partition_occurrence.
Qed.

Lemma contains_char c s : contains [c] s = true <-> c ∈ s.
Proof.
  rewrite contains_spec. split.
  - intros (b & a & ->). set_solver.
  - intros (b & a & ->)%list_elem_of_split. by exists b, a.
Qed.

(** Splitting on a character loses nothing: joining the pieces with the
    separator gives the string back, and no piece holds the separator. *)
Lemma split_nonempty c s : split c s <> [].
Proof. destruct s as [|x s]; simpl; [done|]. case_bool_decide; [done|]. by destruct (split c s). Qed.

Lemma join_split c s : join [c] (split c s) = s.
Proof.
  induction s as [|x s IH]; simpl; [done|].
  pose proof (split_nonempty c s) as Hne.
  case_bool_decide; subst.
  - destruct (split c s) as [|h r]; [done|]. simpl in *. by rewrite IH.
  - destruct (split c s) as [|h r]; [done|].
    destruct r; simpl in *; by rewrite <- IH.
Qed.

Lemma split_pieces c s : Forall (fun p => c ∉ p) (split c s).
Proof.
  induction s as [|x s IH]; simpl.
  - repeat constructor. by intros ?%elem_of_nil.
  - case_bool_decide; subst.
    + constructor; [by intros ?%elem_of_nil|done].
    + destruct (split c s) as [|h r].
      * repeat constructor. by intros [?| ?%elem_of_nil]%elem_of_cons.
      * apply Forall_cons in IH as [? ?]. constructor; [|done].
        by intros [?|?]%elem_of_cons.
Qed.

Lemma match_word_here_spec prev pat text :
  match_word_here prev pat text = true <->
  exists post, text = pat ++ post /\
    boundary prev (head (pat ++ post)) = true /\
    boundary (last (option_list prev ++ pat)) (head post) = true.
Proof.
  unfold match_word_here. split.
  - destruct (strip_prefix pat text) as [rest|] eqn:E; [|done].
    apply strip_prefix_Some in E as ->.
    intros [??]%andb_true_iff. eauto.
  - intros (post & -> & H1 & H2). rewrite strip_prefix_app.
    by rewrite H1, H2.
Qed.

(** The search succeeds exactly when the pattern occurs somewhere after
    [prev] with a word boundary on both sides. *)
Lemma search_word_from_spec prev pat text :
  search_word_from prev pat text = true <->
  exists pre post,
    text = pre ++ pat ++ post /\
    boundary (last (option_list prev ++ pre)) (head (pat ++ post)) = true /\
    boundary (last (option_list prev ++ pre ++ pat)) (head post) = true.
Proof.
  revert prev. induction text as [|c text IH]; intros prev.
  - simpl. rewrite orb_false_r, match_word_here_spec. split.
    + intros (post & ? & ? & ?). exists [], post.
      by rewrite app_nil_r, last_option_list.
    + intros (pre & post & Heq & H1 & H2).
      destruct pre; [|done]. exists post.
      by rewrite app_nil_r, last_option_list in H1.
  - cbn [search_word_from]. rewrite orb_true_iff, match_word_here_spec, IH. split.
    + intros [(post & ? & ? & ?)|(pre & post & -> & H1 & H2)].
      * exists [], post. by rewrite app_nil_r, last_option_list.
      * exists (c :: pre), post. split; [done|].
        by rewrite <- app_comm_cons, !last_prev_cons.
    + intros (pre & post & Heq & H1 & H2). destruct pre as [|c' pre].
      * left. exists post. by rewrite app_nil_r, last_option_list in H1.
      * right. injection Heq as <- ->. exists pre, post. split; [done|].
        rewrite last_prev_cons in H1.
        by rewrite <- app_comm_cons, last_prev_cons in H2.
Qed.

Lemma search_word_spec pat text :
  search_word pat text = true <-> Spec.whole_word_occurrence pat text.
Proof. apply search_word_from_spec. Qed.

End PyStrFacts.

(** ** The grading engine (GUI/src/quiz_core.py) *)

Section Grading.

Import QuizCore.

Implicit Types (user_answer value opt : str) (qa : QA) (case_sensitive : bool).

Lemma strip_idemp s : strip (strip s) = strip s.
Proof. apply strip_by_idemp. Qed.

Lemma normalize_strip s : normalize (strip s) = normalize s.
Proof. unfold normalize. by rewrite strip_idemp. Qed.

Lemma nonempty_true (s : str) : nonempty s = true <-> s <> [].
Proof. by destruct s. Qed.

Lemma nonempty_false (s : str) : nonempty s = false <-> s = [].
Proof. by destruct s. Qed.

Lemma eqb_true (a b : str) : eqb a b = true <-> a = b.
Proof. unfold eqb. apply bool_decide_eq_true. Qed.

Lemma grade_option_spec ua opt :
  grade_option ua opt = true <-> upper ua = upper (strip opt).
Proof.
  unfold grade_option. rewrite <- eqb_true.
  destruct (eqb (upper ua) (upper (strip opt))); [done|].
  by destruct (_ && _).
Qed.

(** With an option letter on the record, nothing but the letter decides. *)
Lemma is_correct_with_option user_answer qa case_sensitive opt :
  answer_option qa = Some opt -> opt <> [] ->
  is_correct user_answer qa case_sensitive =
  nonempty (strip user_answer) && grade_option (strip user_answer) opt.
Proof.
  intros Ho Hne. unfold is_correct. rewrite Ho. simpl.
  destruct opt; [done|]. simpl. by destruct (nonempty (strip user_answer)).
Qed.

(** C1, as amended. For every record whose answer_option is a non-empty
    string and every user answer, [is_correct] returns true if and only if
    the user answer is not blank and its trimmed, uppercased form equals
    answer_option trimmed and uppercased. Every other answer, the value
    spelled out or another letter included, is graded incorrect, and
    neither answer_value nor answer_text (nor any other field, nor the case
    flag) is consulted: two records with the same answer_option get the
    same verdict. *)
Theorem is_correct_option_letter user_answer qa case_sensitive opt :
  answer_option qa = Some opt -> opt <> [] ->
  (is_correct user_answer qa case_sensitive = true <->
     strip user_answer <> [] /\ upper (strip user_answer) = upper (strip opt))
  /\ (forall qa' case_sensitive',
        answer_option qa' = Some opt ->
        is_correct user_answer qa' case_sensitive'
        = is_correct user_answer qa case_sensitive).
Proof.
  intros Ho Hne. split.
  - rewrite (is_correct_with_option _ _ _ opt) by done.
    by rewrite andb_true_iff, nonempty_true, grade_option_spec.
  - intros qa' cs' Ho'.
    by rewrite !(is_correct_with_option _ _ _ opt).
Qed.

Lemma is_correct_option_letter_witness :
  (is_correct (py " c ") Examples.dhcp false = true <->
     strip (py " c ") <> [] /\ upper (strip (py " c ")) = upper (strip (py "C")))
  /\ (forall qa' case_sensitive',
        answer_option qa' = Some (py "C") ->
        is_correct (py " c ") qa' case_sensitive'
        = is_correct (py " c ") Examples.dhcp false).
Proof.
  apply (is_correct_option_letter (py " c ") Examples.dhcp false (py "C")).
  - reflexivity.
  - discriminate.
Defined.

(** C1 as stated fails on a stored option with blanks around the letter:
    the engine trims the stored option before comparing, so the answer "c"
    is graded correct although its uppercased form is not the stored
    option uppercased. *)
Lemma is_correct_option_padded_counterexample :
  is_correct (py "c") Examples.dhcp_padded false = true
  /\ upper (strip (py "c")) <> upper (py " C ").
Proof. split; [reflexivity|discriminate]. Qed.

(** On a record as the parser derives it (no blanks around the letter) the
    comparison is with the stored option itself. *)
Lemma is_correct_option_letter_trimmed user_answer qa case_sensitive opt :
  answer_option qa = Some opt -> opt <> [] -> strip opt = opt ->
  is_correct user_answer qa case_sensitive = true <->
  upper (strip user_answer) = upper opt.
Proof.
  intros Ho Hne Hs.
  rewrite (is_correct_with_option _ _ _ opt) by done.
  rewrite andb_true_iff, nonempty_true, grade_option_spec, Hs.
  split; [by intros [_ ?]|]. intros H. split; [|done].
  intros E. rewrite E in H. destruct opt; [done|discriminate].
Qed.

(** The truth-table rows of the letter-only rule. *)
Lemma is_correct_dhcp_rows :
  is_correct (py "c") Examples.dhcp false = true
  /\ is_correct (py "DHCP") Examples.dhcp false = false
  /\ is_correct (py "B") Examples.dhcp false = false.
Proof. by vm_compute. Qed.

(** The older graders of quiz.py and GUI/quiz_core.py fork here: they also
    accept the value spelled out. *)
Lemma legacy_is_correct_accepts_value :
  Quiz.is_correct (py "DHCP") Examples.dhcp false = true.
Proof. by vm_compute. Qed.

(** Below the option rule the verdict is the value comparison or, failing
    that, the fallback. *)
Lemma is_correct_without_option user_answer qa case_sensitive :
  truthy (answer_option qa) = false ->
  is_correct user_answer qa case_sensitive =
  nonempty (strip user_answer)
  && (grade_value (strip user_answer) qa case_sensitive
      || grade_fallback (strip user_answer) qa case_sensitive).
Proof.
  intros Ho. unfold is_correct. rewrite Ho.
  destruct (nonempty (strip user_answer)); simpl; [|done].
  by destruct (grade_value _ _ _).
Qed.




(** The boundary of the length guard and of the word boundary. *)
Lemma is_correct_switch_rows :
  is_correct (py "MAC") Examples.switch false = true
  /\ is_correct (py "MA") Examples.switch false = false
  /\ is_correct (py "on") Examples.switch false = false
  /\ is_correct (py "forward") Examples.switch false = false
  /\ is_correct (py "forwards  FRAMES") Examples.switch false = true
  /\ is_correct (py "mac") Examples.switch true = false.
Proof. by vm_compute. Qed.

(** *** Comma-separated answers *)






Lemma strip_pad_r (s b : str) :
  Forall (fun c => isspace c = true) b -> strip (s ++ b) = strip s.
Proof. intros Hb. by apply (strip_by_pad isspace [] s b). Qed.








(** The truth-table rows of the set comparison: equal sets in another
    order are correct, but not once the question asks for an order. *)
Lemma is_correct_colours_rows :
  is_correct (py "red, blue") Examples.colours false = true
  /\ is_correct (py "red, blue, RED,") Examples.colours false = true
  /\ is_correct (py "red, blue") Examples.colours true = false
  /\ is_correct (py "Red, Blue") Examples.colours true = true
  /\ is_correct (py "red, green") Examples.colours false = false
  /\ order_required Examples.colours_ordered = true
  /\ is_correct (py "red, blue") Examples.colours_ordered false = false
  /\ is_correct (py "blue,  red") Examples.colours_ordered false = true.
Proof. by vm_compute. Qed.

(** The older graders search for a plain substring of any length. *)
Lemma legacy_is_correct_substring :
  Quiz.is_correct (py "forward") Examples.switch false = true
  /\ Quiz.is_correct (py "on") Examples.switch false = true.
Proof. by vm_compute. Qed.

End Grading.

(** ** The document parser (build_db.py) *)

Section Parser.

Import BuildDb Blocks.

Implicit Types (paras block body lines seg : list str) (line t : str).

(** *** Blocks by index and blocks by recursion *)

Lemma slice_middle {A} (pre l : list A) n :
  slice (length pre) (length pre + n) (pre ++ l) = take n l.
Proof. unfold slice. rewrite drop_app_length. f_equal. lia. Qed.

Lemma take_until_marker paras :
  take (length (until_marker paras)) paras = until_marker paras.
Proof.
  induction paras as [|t paras IH]; simpl; [done|].
  destruct (is_q_marker t); simpl; [done|]. by rewrite IH.
Qed.

Lemma q_indices_from_cons o t paras :
  q_indices_from o (t :: paras)
  = (if is_q_marker t then [o] else []) ++ q_indices_from (S o) paras.
Proof.
  unfold q_indices_from. rewrite imap_cons. simpl. rewrite Nat.add_0_r.
  rewrite (imap_ext _ (fun i t => ((S o + i)%nat, t))).
  - by destruct (is_q_marker t).
  - intros i x _. simpl. f_equal. lia.
Qed.

(** The next entry of the index list is where the next marker stands. *)
Lemma head_q_indices_from o paras :
  default (o + length paras)%nat (head (q_indices_from o paras))
  = (o + length (until_marker paras))%nat.
Proof.
  revert o. induction paras as [|t paras IH]; intros o; [done|].
  rewrite q_indices_from_cons. simpl. destruct (is_q_marker t); simpl; [done|].
  rewrite <- !Nat.add_succ_comm. apply IH.
Qed.

Lemma blocks_by_index paras pre :
  imap (fun k start =>
          slice start
            (default (length (pre ++ paras))
                     (q_indices_from (length pre) paras !! S k))
            (pre ++ paras))
       (q_indices_from (length pre) paras)
  = blocks_of paras.
Proof.
  revert pre. induction paras as [|t paras IH]; intros pre; [done|].
  rewrite q_indices_from_cons. specialize (IH (pre ++ [t])).
  assert (length (pre ++ [t]) = S (length pre)) as E
    by (rewrite length_app; simpl; lia).
  rewrite E, <- app_assoc in IH. simpl in IH.
  simpl. destruct (is_q_marker t); simpl.
  - f_equal.
    + rewrite <- head_lookup, length_app. simpl.
      rewrite <- Nat.add_succ_comm, head_q_indices_from, Nat.add_succ_comm.
      rewrite slice_middle. simpl. by rewrite take_until_marker.
    + rewrite <- IH. by apply imap_ext.
  - rewrite <- IH. by apply imap_ext.
Qed.

Lemma omap_id_fmap {A B} (f : A -> option B) (l : list A) :
  omap id (f <$> l) = omap f l.
Proof. induction l as [|x l IH]; csimpl; [done|]. by rewrite IH. Qed.

(** [parse_docx] parses the blocks of the right-stripped paragraphs one by
    one, in document order. *)
Lemma parse_docx_collect texts :
  parse_docx texts = collect (parse_block <$> blocks_of (rstrip <$> texts)).
Proof.
  unfold parse_docx. set (paras := rstrip <$> texts).
  by rewrite <- (blocks_by_index paras []), fmap_imap.
Qed.

(** A block raises when the conversion of its number does, and gives its
    record otherwise. *)
Lemma parse_block_view block :
  parse_block block
  = if number_raises block
    then inl ValueError_exceeds_the_limit_for_integer_string_conversion
    else inr (record_of block).
Proof.
  unfold parse_block, number_raises, record_of.
  destruct block as [|b0 body]; [done|].
  destruct (Q_MARKER_RE (strip b0)) as [[num total]|]; [|done].
  destruct (int_raises num); [done|].
  by destruct (first_index (contains marker) (b0 :: body)).
Qed.

Lemma collect_view (blocks : list (list str)) :
  collect (parse_block <$> blocks)
  = if existsb number_raises blocks
    then inl ValueError_exceeds_the_limit_for_integer_string_conversion
    else inr (omap record_of blocks).
Proof.
  induction blocks as [|block blocks IH]; [done|].
  rewrite fmap_cons. cbn [collect existsb]. rewrite parse_block_view.
  destruct (number_raises block); [done|]. cbn [orb]. rewrite IH.
  destruct (existsb number_raises blocks); [done|].
  cbn [omap list_omap]. by destruct (record_of block).
Qed.

Lemma parse_docx_view texts :
  parse_docx texts
  = if existsb number_raises (blocks_of (rstrip <$> texts))
    then inl ValueError_exceeds_the_limit_for_integer_string_conversion
    else inr (records_of texts).
Proof. by rewrite parse_docx_collect, collect_view. Qed.

(** What [parse_docx] returns, when it returns. *)
Lemma parse_docx_returns texts records :
  parse_docx texts = inr records <->
  existsb number_raises (blocks_of (rstrip <$> texts)) = false
  /\ records = records_of texts.
Proof.
  rewrite parse_docx_view.
  destruct (existsb number_raises (blocks_of (rstrip <$> texts))).
  - split; [done|]. by intros [].
  - split; [by intros [= <-]|]. by intros [_ ->].
Qed.

Lemma parse_block_returns block rec :
  parse_block block = inr (Some rec) -> record_of block = Some rec.
Proof. rewrite parse_block_view. destruct (number_raises block); congruence. Qed.

Lemma parse_docx_blocks texts :
  records_of texts = omap record_of (blocks_of (rstrip <$> texts)).
Proof. done. Qed.

Lemma until_marker_app paras1 paras2 :
  (forall t, head paras2 = Some t -> is_q_marker t = true) ->
  until_marker (paras1 ++ paras2) = until_marker paras1.
Proof.
  intros H. induction paras1 as [|t paras1 IH]; simpl.
  - destruct paras2 as [|t paras2]; [done|]. simpl. by rewrite (H t).
  - by rewrite IH.
Qed.

Lemma blocks_of_app paras1 paras2 :
  (forall t, head paras2 = Some t -> is_q_marker t = true) ->
  blocks_of (paras1 ++ paras2) = blocks_of paras1 ++ blocks_of paras2.
Proof.
  intros H. induction paras1 as [|t paras1 IH]; simpl; [done|].
  rewrite IH, until_marker_app by done. by destruct (is_q_marker t).
Qed.

Lemma until_marker_all body :
  Forall (fun t => is_q_marker t = false) body -> until_marker body = body.
Proof. induction 1 as [|t body Ht _ IH]; simpl; [done|]. by rewrite Ht, IH. Qed.

Lemma blocks_of_none body :
  Forall (fun t => is_q_marker t = false) body -> blocks_of body = [].
Proof. induction 1 as [|t body Ht _ IH]; simpl; [done|]. by rewrite Ht. Qed.

Lemma blocks_of_block b0 body :
  is_q_marker b0 = true -> Forall (fun t => is_q_marker t = false) body ->
  blocks_of (b0 :: body) = [b0 :: body].
Proof.
  intros H0 Hb. simpl. by rewrite H0, until_marker_all, blocks_of_none.
Qed.

(** A document cut in front of a question marker parses piecewise. *)
Lemma parse_docx_app texts1 texts2 :
  (forall t, head texts2 = Some t -> is_q_marker (rstrip t) = true) ->
  records_of (texts1 ++ texts2) = records_of texts1 ++ records_of texts2.
Proof.
  intros H. rewrite !parse_docx_blocks, fmap_app, blocks_of_app, omap_app; [done|].
  intros t. destruct texts2 as [|t2 texts2]; [done|]. simpl.
  intros [= <-]. by apply H.
Qed.

Lemma parse_docx_one_block b0 body :
  is_q_marker (rstrip b0) = true ->
  Forall (fun t => is_q_marker (rstrip t) = false) body ->
  records_of (b0 :: body) = option_list (record_of (rstrip <$> b0 :: body)).
Proof.
  intros H0 Hb. rewrite parse_docx_blocks. rewrite fmap_cons, blocks_of_block.
  - simpl. by destruct (record_of (rstrip b0 :: (rstrip <$> body))).
  - done.
  - by apply Forall_fmap.
Qed.

Lemma strip_rstrip t : strip (rstrip t) = strip t.
Proof.
  destruct (rstrip_by_prefix isspace t) as (b & Heq & Hb).
  unfold rstrip. rewrite Heq at 2. by rewrite strip_pad_r.
Qed.

Lemma is_q_marker_rstrip t : is_q_marker (rstrip t) = is_q_marker t.
Proof. unfold is_q_marker. by rewrite strip_rstrip. Qed.

(** The blocks of a document open with its question markers. *)
Lemma blocks_of_heads paras block :
  block ∈ blocks_of paras ->
  exists b0 body, block = b0 :: body /\ b0 ∈ paras /\ is_q_marker b0 = true.
Proof.
  induction paras as [|t paras IH]; [by intros ?%elem_of_nil|].
  cbn [blocks_of]. destruct (is_q_marker t) eqn:E.
  - intros [->|Hin]%elem_of_cons.
    + exists t, (until_marker paras). split_and!; [done|apply list_elem_of_here|done].
    + destruct (IH Hin) as (b0 & body & -> & Hb & Hm).
      exists b0, body. split_and!; [done|by apply list_elem_of_further|done].
  - intros Hin. destruct (IH Hin) as (b0 & body & -> & Hb & Hm).
    exists b0, body. split_and!; [done|by apply list_elem_of_further|done].
Qed.

Lemma blocks_of_marker paras t :
  t ∈ paras -> is_q_marker t = true ->
  exists body, (t :: body) ∈ blocks_of paras.
Proof.
  induction paras as [|t' paras IH]; [by intros ?%elem_of_nil|].
  cbn [blocks_of]. intros [->|Hin]%elem_of_cons Hm.
  - rewrite Hm. eexists. apply list_elem_of_here.
  - destruct (IH Hin Hm) as [body Hb]. exists body.
    destruct (is_q_marker t'); [by apply list_elem_of_further|done].
Qed.

(** No block raises exactly when every question number converts. *)
Lemma numbers_convert_blocks texts :
  existsb number_raises (blocks_of (rstrip <$> texts)) = false
  <-> Spec.numbers_convert texts.
Proof.
  rewrite <- not_true_iff_false, existsb_exists. unfold Spec.numbers_convert. split.
  - intros Hno t num total Ht Hm.
    destruct (decide (Z.of_nat (length num) <= int_max_str_digits)) as [|Hgt]; [done|].
    destruct Hno.
    destruct (blocks_of_marker (rstrip <$> texts) (rstrip t)) as [body Hb].
    + by apply list_elem_of_fmap_2.
    + rewrite is_q_marker_rstrip. unfold is_q_marker. rewrite Hm.
      by apply bool_decide_eq_true_2.
    + exists (rstrip t :: body). split; [by apply list_elem_of_In|].
      unfold number_raises, int_raises. rewrite strip_rstrip, Hm.
      apply bool_decide_eq_true_2. lia.
  - intros Hok (block & Hb%list_elem_of_In & Hr).
    apply blocks_of_heads in Hb as (b0 & body & -> & Hb0 & _).
    apply list_elem_of_fmap in Hb0 as (t & -> & Ht).
    unfold number_raises in Hr. rewrite strip_rstrip in Hr.
    destruct (Q_MARKER_RE (strip t)) as [[num total]|] eqn:Hm; [|done].
    apply bool_decide_eq_true in Hr. specialize (Hok t num total Ht Hm). lia.
Qed.

Lemma numbers_convert_app texts1 texts2 :
  Spec.numbers_convert (texts1 ++ texts2)
  <-> Spec.numbers_convert texts1 /\ Spec.numbers_convert texts2.
Proof.
  unfold Spec.numbers_convert. split.
  - intros H. split; intros t num total Ht; apply H; apply elem_of_app; eauto.
  - intros [H1 H2] t num total [Ht|Ht]%elem_of_app; eauto.
Qed.

(** [parse_docx] returns when every question number converts. *)
Lemma parse_docx_converts texts :
  Spec.numbers_convert texts -> parse_docx texts = inr (records_of texts).
Proof.
  intros Hok%numbers_convert_blocks. by rewrite parse_docx_view, Hok.
Qed.

(** *** One block *)

Lemma first_index_None p lines :
  Forall (fun line => p line = false) lines -> first_index p lines = None.
Proof.
  intros H. unfold first_index.
  assert (list_find (fun line => p line = true) lines = None) as ->; [|done].
  apply list_find_None. eapply Forall_impl; [exact H|]. simpl. congruence.
Qed.

Lemma first_index_Some p lines i :
  first_index p lines = Some i <->
  exists line, lines !! i = Some line /\ p line = true /\
    forall j l, lines !! j = Some l -> (j < i)%nat -> p l = false.
Proof.
  unfold first_index. rewrite fmap_Some. split.
  - intros ([i' line] & (Hl & Hp & Hmin)%list_find_Some & ->).
    exists line. split_and!; [done..|].
    intros j l Hj Hlt. specialize (Hmin j l Hj Hlt). by destruct (p l).
  - intros (line & Hl & Hp & Hmin). exists (i, line). split; [|done].
    apply list_find_Some. split_and!; [done..|].
    intros j l Hj Hlt. rewrite (Hmin j l Hj Hlt). done.
Qed.

Lemma first_index_is_Some p lines :
  Exists (fun line => p line = true) lines -> is_Some (first_index p lines).
Proof.
  intros (line & Hin & Hp)%Exists_exists. unfold first_index.
  destruct (list_find_elem_of (fun line => p line = true) lines line Hin Hp)
    as [[i l] ->].
  by eexists.
Qed.

(** A block without an answer marker yields no record. *)
Lemma parse_block_no_answer block :
  Forall (fun line => contains marker line = false) block -> record_of block = None.
Proof.
  intros H. unfold record_of. destruct block as [|b0 body]; [done|].
  destruct (Q_MARKER_RE (strip b0)) as [[num total]|]; [|done].
  by rewrite first_index_None.
Qed.

(** What a record is made of. *)
Lemma parse_block_Some block rec :
  record_of block = Some rec ->
  exists ans_idx,
    first_index (contains marker) block = Some ans_idx /\
    question_text rec = joined_text (pop_trailing_blank (slice 1 ans_idx block)) /\
    answer_text rec
    = joined_text (pop_trailing_blank (cut_at_separator (raw_a_lines block ans_idx))).
Proof.
  unfold record_of. destruct block as [|b0 body]; [done|].
  destruct (Q_MARKER_RE (strip b0)) as [[num total]|]; [|done].
  destruct (first_index (contains marker) (b0 :: body)) as [ans_idx|]; [|done].
  intros [= <-]. by exists ans_idx.
Qed.

(** A block with a question marker and an answer marker yields a record. *)
Lemma parse_block_is_Some b0 body :
  is_q_marker b0 = true ->
  Exists (fun line => contains marker line = true) (b0 :: body) ->
  is_Some (record_of (b0 :: body)).
Proof.
  unfold is_q_marker. rewrite bool_decide_eq_true.
  intros [[num total] Hm] [ans_idx Ha]%first_index_is_Some.
  unfold record_of. rewrite Hm, Ha. by eexists.
Qed.

(** C7, as amended. In a document all of whose question numbers convert
    (none has more than 4300 digits), a block that begins with a question
    marker but has no line with the answer marker produces no record:
    [parse_docx] returns the records of the paragraphs before the block
    followed by those of the paragraphs after it, so every other block is
    still extracted, in document order. A block that has an answer marker
    produces its record between those of the blocks around it. *)
Theorem parse_docx_skips_block_without_answer
    (before after : list str) (b0 : str) (body : list str) :
  Spec.numbers_convert (before ++ (b0 :: body) ++ after) ->
  is_q_marker (rstrip b0) = true ->
  Forall (fun t => is_q_marker (rstrip t) = false) body ->
  (forall t, head after = Some t -> is_q_marker (rstrip t) = true) ->
  exists records_before records_after,
    parse_docx before = inr records_before
    /\ parse_docx after = inr records_after
    /\ (Forall (fun t => contains marker (rstrip t) = false) (b0 :: body) ->
        parse_docx (before ++ (b0 :: body) ++ after)
        = inr (records_before ++ records_after))
    /\ (Exists (fun t => contains marker (rstrip t) = true) (b0 :: body) ->
        exists rec,
          parse_block (rstrip <$> b0 :: body) = inr (Some rec) /\
          parse_docx (before ++ (b0 :: body) ++ after)
          = inr (records_before ++ rec :: records_after)).
Proof.
  intros Hok H0 Hbody Hafter.
  destruct (proj1 (numbers_convert_app _ _) Hok) as [Hok1 Hok23].
  apply numbers_convert_app in Hok23 as [Hok2 Hok3].
  exists (records_of before), (records_of after).
  rewrite !parse_docx_converts by done.
  assert (records_of (before ++ (b0 :: body) ++ after)
          = records_of before
            ++ option_list (record_of (rstrip <$> b0 :: body))
            ++ records_of after) as Hsplit.
  { rewrite parse_docx_app by (by intros t [= <-]).
    rewrite parse_docx_app by done.
    by rewrite parse_docx_one_block. }
  assert (number_raises (rstrip <$> b0 :: body) = false) as Hb0.
  { apply numbers_convert_blocks in Hok2.
    rewrite fmap_cons, blocks_of_block in Hok2; [|done|by apply Forall_fmap].
    cbn [existsb] in Hok2. by apply orb_false_iff in Hok2 as [? _]. }
  split_and!; [done..| |].
  - intros Hno. rewrite Hsplit, parse_block_no_answer; [done|].
    by apply Forall_fmap.
  - intros Hyes.
    destruct (parse_block_is_Some (rstrip b0) (rstrip <$> body)) as [rec Hrec].
    + done.
    + change (Exists (fun line => contains marker line = true) (rstrip <$> b0 :: body)).
      by apply Exists_fmap.
    + exists rec. change (rstrip b0 :: (rstrip <$> body)) with (rstrip <$> b0 :: body) in Hrec.
      by rewrite parse_block_view, Hb0, Hsplit, Hrec.
Qed.

Lemma sample_numbers_convert :
  Spec.numbers_convert
    (Examples.doc_before ++ Examples.doc_no_answer ++ Examples.doc_after).
Proof.
  apply numbers_convert_blocks. by vm_compute.
Qed.

Lemma parse_docx_skips_block_without_answer_witness :
  exists records_before records_after,
    parse_docx Examples.doc_before = inr records_before
    /\ parse_docx Examples.doc_after = inr records_after
    /\ (Forall (fun t => contains marker (rstrip t) = false) Examples.doc_no_answer ->
        parse_docx (Examples.doc_before ++ Examples.doc_no_answer ++ Examples.doc_after)
        = inr (records_before ++ records_after))
    /\ (Exists (fun t => contains marker (rstrip t) = true) Examples.doc_no_answer ->
        exists rec,
          parse_block (rstrip <$> Examples.doc_no_answer) = inr (Some rec) /\
          parse_docx (Examples.doc_before ++ Examples.doc_no_answer ++ Examples.doc_after)
          = inr (records_before ++ rec :: records_after)).
Proof.
  apply (parse_docx_skips_block_without_answer
           Examples.doc_before Examples.doc_after
           (py "Question 2 of 3")
           (Examples.lines ["A question whose answer was lost"; ""])).
  - exact sample_numbers_convert.
  - reflexivity.
  - repeat constructor.
  - intros t [= <-]. reflexivity.
Defined.

(** C7 as stated fails on a question number that [int] does not convert:
    the number of a block is converted before its answer marker is looked
    for, so a block without answer marker whose number has 4301 digits is
    not skipped. The exception ends [parse_docx], and the well-formed
    blocks around it, which parse on their own, are not extracted. *)
Lemma parse_docx_long_number_counterexample :
  is_q_marker (py "Question " ++ Examples.too_long ++ py " of 3") = true
  /\ Forall (fun t => contains marker (rstrip t) = false)
            [py "Question " ++ Examples.too_long ++ py " of 3"; py "lost"]
  /\ parse_docx Examples.doc_before = inr [Examples.rec_q1]
  /\ (exists rec, parse_docx Examples.doc_after = inr [rec])
  /\ parse_docx (Examples.doc_before
                 ++ [py "Question " ++ Examples.too_long ++ py " of 3"; py "lost"]
                 ++ Examples.doc_after)
     = inl ValueError_exceeds_the_limit_for_integer_string_conversion.
Proof.
  split_and!.
  - by vm_compute.
  - repeat constructor.
  - by vm_compute.
  - eexists. by vm_compute.
  - by vm_compute.
Qed.

(** The sample document: records 1 and 3, nothing for question 2. *)
Lemma parse_docx_sample_qnums :
  exists records,
    parse_docx (Examples.doc_before ++ Examples.doc_no_answer ++ Examples.doc_after)
    = inr records
    /\ qnum <$> records = [1; 3].
Proof. eexists. split; by vm_compute. Qed.

(** *** The section terminator *)

Lemma forallb_eq_replicate (x : ascii) (s : str) :
  forallb (fun c => bool_decide (c = x)) s = true <-> s = replicate (length s) x.
Proof.
  induction s as [|c s IH]; simpl; [done|].
  rewrite andb_true_iff, bool_decide_eq_true, IH. split.
  - intros [-> <-]. done.
  - intros [= -> Hs]. done.
Qed.

Lemma is_separator_spec line :
  is_separator line = true <-> Spec.separator_line line.
Proof.
  unfold is_separator, Spec.separator_line. simpl.
  rewrite !andb_true_iff, bool_decide_eq_true, forallb_eq_replicate. split.
  - intros [[_ Hs] Hlen]. by exists (length (strip line)).
  - intros (n & Hn & Hs). rewrite Hs, length_replicate.
    split_and!; [destruct n; [lia|done]|done|done].
Qed.

Lemma is_separator_false line :
  is_separator line = false <-> ~ Spec.separator_line line.
Proof. rewrite <- is_separator_spec. by destruct (is_separator line). Qed.

(** C6. If a line of the answer segment consists solely of [=] characters
    and its stripped length exceeds 10, the answer text is built from the
    lines in front of the first such line only: the segment is cut
    immediately before that first terminator, so neither a terminator line
    nor anything after it reaches answer_text. *)
Theorem parse_block_stops_at_separator block rec :
  parse_block block = inr (Some rec) ->
  exists ans_idx,
    first_index (contains marker) block = Some ans_idx /\
    forall (j : nat) line,
      raw_a_lines block ans_idx !! j = Some line ->
      Spec.separator_line line ->
      exists j0 : nat,
        (j0 <= j)%nat /\
        answer_text rec
        = joined_text (pop_trailing_blank (take j0 (raw_a_lines block ans_idx))) /\
        Forall (fun l => ~ Spec.separator_line l)
               (take j0 (raw_a_lines block ans_idx)) /\
        ((forall (i : nat) l, (i < j)%nat ->
            raw_a_lines block ans_idx !! i = Some l -> ~ Spec.separator_line l) ->
         j0 = j).
Proof.
  intros (ans_idx & Ha & _ & Htext)%parse_block_returns%parse_block_Some.
  exists ans_idx. split; [done|]. intros j line Hj Hsep.
  apply is_separator_spec in Hsep. unfold cut_at_separator in Htext.
  destruct (first_index_is_Some is_separator (raw_a_lines block ans_idx)) as [j0 Hj0].
  { apply Exists_exists. exists line. split; [|done]. by eapply list_elem_of_lookup_2. }
  rewrite Hj0 in Htext. apply first_index_Some in Hj0 as (l0 & Hl0 & Hs0 & Hmin).
  assert (j0 <= j)%nat as Hle.
  { destruct (decide (j0 <= j)%nat) as [|Hgt]; [done|].
    assert (j < j0)%nat as Hlt by lia.
    by rewrite (Hmin j line Hj Hlt) in Hsep. }
  exists j0. split_and!.
  - done.
  - done.
  - apply Forall_lookup_2. intros i l [Hi Hlt]%lookup_take_Some.
    apply is_separator_false. by eapply Hmin.
  - intros Hbefore. destruct (decide (j0 < j)%nat) as [Hlt|]; [|lia].
    apply is_separator_spec in Hs0. by destruct (Hbefore j0 l0 Hlt Hl0).
Qed.

Lemma parse_block_stops_at_separator_witness :
  exists ans_idx,
    first_index (contains marker) Examples.block_q4 = Some ans_idx /\
    forall (j : nat) line,
      raw_a_lines Examples.block_q4 ans_idx !! j = Some line ->
      Spec.separator_line line ->
      exists j0 : nat,
        (j0 <= j)%nat /\
        answer_text Examples.rec_q4
        = joined_text (pop_trailing_blank
                         (take j0 (raw_a_lines Examples.block_q4 ans_idx))) /\
        Forall (fun l => ~ Spec.separator_line l)
               (take j0 (raw_a_lines Examples.block_q4 ans_idx)) /\
        ((forall (i : nat) l, (i < j)%nat ->
            raw_a_lines Examples.block_q4 ans_idx !! i = Some l ->
            ~ Spec.separator_line l) ->
         j0 = j).
Proof.
  apply (parse_block_stops_at_separator Examples.block_q4 Examples.rec_q4).
  reflexivity.
Defined.

(** *** Stored text *)

Lemma join_cons sep (p : str) (rest : list str) :
  rest <> [] -> join sep (p :: rest) = p ++ sep ++ join sep rest.
Proof. by destruct rest. Qed.

Lemma join_empty_lines (k : nat) (core : list str) :
  core <> [] ->
  join [LF] (replicate k [] ++ core) = replicate k LF ++ join [LF] core.
Proof.
  intros Hne. induction k as [|k IH]; [done|].
  cbn [replicate app]. rewrite join_cons, IH; [done|].
  by destruct k, core.
Qed.

Lemma head_join sep (first : str) (rest : list str) c :
  head first = Some c -> head (join sep (first :: rest)) = Some c.
Proof. destruct first, rest; naive_solver. Qed.

Lemma last_join sep (core : list str) (final : str) c :
  last core = Some final -> last final = Some c -> last (join sep core) = Some c.
Proof.
  intros Hl Hc. induction core as [|p core IH]; [done|].
  destruct core as [|p' core].
  - by injection Hl as ->.
  - rewrite join_cons by done. rewrite last_cons_cons in Hl.
    rewrite !last_app, (IH Hl). done.
Qed.

Lemma all_empty_replicate (lead : list str) :
  Forall (fun l => l = []) lead -> exists k, lead = replicate k [].
Proof.
  induction 1 as [|l lead -> _ [k ->]]; [by exists 0%nat|by exists (S k)].
Qed.

Lemma pop_trailing_blank_app kept dropped :
  Forall (fun l => is_blank l = true) dropped ->
  (forall l, last kept = Some l -> is_blank l = false) ->
  pop_trailing_blank (kept ++ dropped) = kept.
Proof.
  intros Hd Hk. unfold pop_trailing_blank.
  rewrite rstrip_by_app_r by done. by apply rstrip_by_id.
Qed.

(** Joining keeps the core as it is when only empty lines come before it. *)
Lemma joined_text_core lead core :
  Forall (fun l => l = []) lead -> Spec.verbatim_core core ->
  joined_text (lead ++ core) = join [LF] core.
Proof.
  intros Hlead [(first & c & Hf & Hc & Hne) (final & c' & Hl & Hc' & Hne' & _)].
  destruct (all_empty_replicate lead Hlead) as [k ->].
  destruct core as [|p core]; [done|]. injection Hf as ->.
  unfold joined_text, strip_chars. rewrite join_empty_lines by done.
  rewrite <- (app_nil_r (join [LF] (first :: core))) at 1.
  rewrite strip_by_pad.
  - apply strip_by_id; intros x Hx.
    + rewrite (head_join _ _ _ c) in Hx by done. injection Hx as <-.
      apply bool_decide_eq_false. by intros ->%list_elem_of_singleton.
    + rewrite (last_join _ _ final c') in Hx by done. injection Hx as <-.
      apply bool_decide_eq_false. by intros ->%list_elem_of_singleton.
  - apply Forall_replicate. apply bool_decide_eq_true. by apply list_elem_of_singleton.
  - done.
Qed.

Lemma stored_text_joined seg :
  Spec.stored_text seg (joined_text (pop_trailing_blank seg)).
Proof.
  split.
  - destruct (rstrip_by_prefix is_blank seg) as (dropped & Heq & Hd).
    exists (pop_trailing_blank seg), dropped. split_and!; [done..| |done].
    intros l. apply last_rstrip_by.
  - intros lead core trail -> Hlead Hcore Htrail.
    rewrite app_assoc, pop_trailing_blank_app; [by apply joined_text_core|done|].
    destruct Hcore as [_ (final & c & Hl & _ & _ & Hb)].
    intros l. rewrite last_app, Hl. by intros [= <-].
Qed.

(** C3, as amended. For every block that yields a record, the parser
    removes from the question segment and from the answer segment the
    trailing blank lines and, after joining the remaining lines with
    newlines, the newline characters at both ends of the joined text, so
    that empty lines at the start of a segment are removed too. Interior
    blank lines and all other whitespace are stored as they are: a segment
    made of empty lines, a core and blank lines is stored as its core
    joined with newlines. *)
Theorem parse_block_text_verbatim block rec :
  parse_block block = inr (Some rec) ->
  exists ans_idx,
    first_index (contains marker) block = Some ans_idx /\
    Spec.stored_text (slice 1 ans_idx block) (question_text rec) /\
    Spec.stored_text (cut_at_separator (raw_a_lines block ans_idx)) (answer_text rec).
Proof.
  intros (ans_idx & Ha & -> & ->)%parse_block_returns%parse_block_Some.
  exists ans_idx. split_and!; [done|apply stored_text_joined..].
Qed.

Lemma parse_block_text_verbatim_witness :
  exists ans_idx,
    first_index (contains marker) Examples.block_q4 = Some ans_idx /\
    Spec.stored_text (slice 1 ans_idx Examples.block_q4)
                     (question_text Examples.rec_q4) /\
    Spec.stored_text (cut_at_separator (raw_a_lines Examples.block_q4 ans_idx))
                     (answer_text Examples.rec_q4).
Proof.
  apply (parse_block_text_verbatim Examples.block_q4 Examples.rec_q4).
  reflexivity.
Defined.

(** C3 as stated fails on an empty line that opens a segment: the record
    of the sample block stores the question without the empty line that
    precedes it, whereas the segment with only its trailing blank lines
    removed, joined with newlines, starts with a newline. *)
Lemma parse_block_leading_blank_counterexample :
  parse_block Examples.block_q4 = inr (Some Examples.rec_q4)
  /\ slice 1 6 Examples.block_q4
     = Examples.lines [""; "What is a frame?"; ""; "  A - a PDU"; ""]
  /\ question_text Examples.rec_q4
     = join [LF] (Examples.lines ["What is a frame?"; ""; "  A - a PDU"])
  /\ question_text Examples.rec_q4
     <> join [LF] (Examples.lines [""; "What is a frame?"; ""; "  A - a PDU"]).
Proof. split_and!; [reflexivity..|discriminate]. Qed.

End Parser.

(** ** The questions table (build_db.py) *)

Section Store.

Import BuildDb Blocks.

Implicit Types (table questions : list question) (q r excluded : question).

Lemma do_update_qnum q r : qnum (do_update q r) = qnum r.
Proof. unfold do_update. by case_bool_decide. Qed.

(** On a conflict the row takes all four dependent fields of the new
    record, and so becomes that record. *)
Lemma do_update_hit q r : qnum r = qnum q -> do_update q r = q.
Proof.
  intros E. unfold do_update. rewrite bool_decide_eq_true_2 by done.
  rewrite E. by destruct q.
Qed.

Lemma do_update_miss q r : qnum r <> qnum q -> do_update q r = r.
Proof. intros E. unfold do_update. by rewrite bool_decide_eq_false_2. Qed.

(** All the updates of a record list applied to one row. *)
Lemma fold_update_qnum questions r :
  qnum (fold_left (fun r q => do_update q r) questions r) = qnum r.
Proof.
  revert r. induction questions as [|q questions IH]; intros r; simpl; [done|].
  by rewrite IH, do_update_qnum.
Qed.

Lemma upsert_one_keys table q :
  qnum <$> upsert_one table q
  = if bool_decide (qnum q ∈ qnum <$> table) then qnum <$> table
    else (qnum <$> table) ++ [qnum q].
Proof.
  unfold upsert_one. case_bool_decide.
  - rewrite <- list_fmap_compose. apply list_fmap_ext.
    intros i r _. simpl. apply do_update_qnum.
  - by rewrite fmap_app.
Qed.

Lemma upsert_one_keeps_keys table q (k : Z) :
  k ∈ qnum <$> table -> k ∈ qnum <$> upsert_one table q.
Proof.
  rewrite upsert_one_keys. case_bool_decide; [done|]. rewrite elem_of_app. by left.
Qed.

Lemma upsert_one_has_key table q : qnum q ∈ qnum <$> upsert_one table q.
Proof.
  rewrite upsert_one_keys. case_bool_decide; [done|].
  rewrite elem_of_app, list_elem_of_singleton. by right.
Qed.

Lemma upsert_questions_keeps_keys table questions (k : Z) :
  k ∈ qnum <$> table -> k ∈ qnum <$> committed table questions.
Proof.
  revert table. induction questions as [|q questions IH]; intros table Hk; [done|].
  apply IH. by apply upsert_one_keeps_keys.
Qed.

Lemma upsert_questions_has_keys table questions q :
  q ∈ questions -> qnum q ∈ qnum <$> committed table questions.
Proof.
  revert table. induction questions as [|q' questions IH]; intros table Hq.
  - by apply elem_of_nil in Hq.
  - apply elem_of_cons in Hq as [->|Hq]; simpl.
    + apply upsert_questions_keeps_keys, upsert_one_has_key.
    + by apply IH.
Qed.

(** When every record meets a stored row, the import only updates rows. *)
Lemma upsert_questions_updates table questions :
  (forall q, q ∈ questions -> qnum q ∈ qnum <$> table) ->
  committed table questions
  = (fun r => fold_left (fun r q => do_update q r) questions r) <$> table.
Proof.
  unfold committed.
  revert table. induction questions as [|q questions IH]; intros table Hk; simpl.
  - by rewrite list_fmap_id.
  - assert (upsert_one table q = do_update q <$> table) as ->.
    { unfold upsert_one. rewrite bool_decide_eq_true_2; [done|].
      apply Hk, list_elem_of_here. }
    rewrite IH.
    + by rewrite <- list_fmap_compose.
    + intros q' Hq'. rewrite <- list_fmap_compose.
      erewrite list_fmap_ext; [apply Hk; by apply list_elem_of_further|].
      intros i r _. simpl. apply do_update_qnum.
Qed.

(** After an import every row already shows the import's last word. *)
Lemma upsert_questions_settled table questions r :
  r ∈ committed table questions ->
  fold_left (fun r q => do_update q r) questions r = r.
Proof.
  revert r. induction questions as [|q questions IH] using rev_ind; intros r; [done|].
  unfold committed in *. rewrite !fold_left_app. simpl.
  set (t := fold_left upsert_one questions table) in *.
  unfold upsert_one. case_bool_decide as Hin.
  - intros (r0 & -> & Hr0)%list_elem_of_fmap.
    destruct (decide (qnum r0 = qnum q)) as [E|E].
    + rewrite (do_update_hit q r0 E). apply do_update_hit, fold_update_qnum.
    + rewrite (do_update_miss q r0 E), (IH r0 Hr0). by apply do_update_miss.
  - intros [Hr| ->%list_elem_of_singleton]%elem_of_app.
    + rewrite (IH r Hr). apply do_update_miss. intros E. apply Hin.
      rewrite <- E. by apply list_elem_of_fmap_2.
    + apply do_update_hit, fold_update_qnum.
Qed.

(** *** Commit and rollback *)

Lemma executemany_view table questions :
  executemany table questions
  = if forallb (fun q => fits_int64 (qnum q)) questions
    then inr (committed table questions)
    else inl OverflowError_int_too_large_to_convert_to_SQLite_INTEGER.
Proof.
  unfold committed. revert table.
  induction questions as [|q questions IH]; intros table; [done|].
  simpl. destruct (fits_int64 (qnum q)); [apply IH|done].
Qed.

(** An import all of whose qnums fit is committed. *)
Lemma upsert_questions_commits table questions :
  Forall (fun q => fits_int64 (qnum q) = true) questions ->
  upsert_questions table questions = (committed table questions, None).
Proof.
  intros Hfit. unfold upsert_questions. rewrite executemany_view.
  assert (forallb (fun q => fits_int64 (qnum q)) questions = true) as ->; [|done].
  apply forallb_forall. intros q Hq%list_elem_of_In.
  rewrite Forall_forall in Hfit. by apply Hfit.
Qed.

(** An import with a qnum that does not fit raises and is rolled back. *)
Lemma upsert_questions_rolls_back table questions :
  ~ Forall (fun q => fits_int64 (qnum q) = true) questions ->
  upsert_questions table questions
  = (table, Some OverflowError_int_too_large_to_convert_to_SQLite_INTEGER).
Proof.
  intros Hfit. unfold upsert_questions. rewrite executemany_view.
  destruct (forallb _ questions) eqn:E; [|done].
  destruct Hfit. apply Forall_forall. intros q Hq%list_elem_of_In.
  rewrite forallb_forall in E. by apply E.
Qed.

Lemma upsert_questions_raised table questions :
  (upsert_questions table questions).2 = None
  <-> Forall (fun q => fits_int64 (qnum q) = true) questions.
Proof.
  destruct (decide (Forall (fun q => fits_int64 (qnum q) = true) questions))
    as [Hfit|Hfit].
  - by rewrite upsert_questions_commits.
  - by rewrite upsert_questions_rolls_back.
Qed.

(** The sample import: row 3 is overwritten in place by the last record
    with that number, rows 4 (twice in the import) and none other are
    appended once. *)
Lemma upsert_questions_sample :
  upsert_questions Examples.table3 Examples.reimport
  = ([Examples.row 5 "five?" "5"; Examples.row 3 "three again" "3";
      Examples.row 9 "nine?" "9"; Examples.rec_q4], None).
Proof. by vm_compute. Qed.

End Store.

(** ** The sampler (GUI/src/quiz_core.py, quiz.py) *)

Section Sampler.

Import QuizCore.

Context `{PyRandom} `{Sqlite3}.

Implicit Types (table rows : list BuildDb.question) (chosen : list Z)
  (count : Z) (seed : option Z) (w : world)
  (scan : list BuildDb.question -> list BuildDb.question).

(** *** The dictionary of fetched rows *)

Lemma dict_by_qnum_list_to_map rows :
  dict_by_qnum rows
  = list_to_map (reverse ((fun r => (BuildDb.qnum r, r)) <$> rows)).
Proof.
  unfold dict_by_qnum. induction rows as [|r rows IH] using rev_ind; [done|].
  by rewrite foldl_snoc, fmap_app, reverse_app, IH.
Qed.

Lemma keys_of_pairs rows :
  (reverse ((fun r => (BuildDb.qnum r, r)) <$> rows)).*1
  = reverse (BuildDb.qnum <$> rows).
Proof. by rewrite fmap_reverse, <- list_fmap_compose. Qed.

(** With unique qnums the dictionary does not depend on the order in which
    the rows come back. *)
Lemma dict_by_qnum_perm rows1 rows2 :
  rows1 ≡ₚ rows2 -> NoDup (BuildDb.qnum <$> rows1) ->
  dict_by_qnum rows1 = dict_by_qnum rows2.
Proof.
  intros Hp Hnd. rewrite !dict_by_qnum_list_to_map. apply list_to_map_proper.
  - rewrite keys_of_pairs. by rewrite reverse_Permutation.
  - by rewrite !reverse_Permutation, Hp.
Qed.

Lemma dict_by_qnum_lookup rows (n : Z) r :
  dict_by_qnum rows !! n = Some r -> BuildDb.qnum r = n /\ r ∈ rows.
Proof.
  rewrite dict_by_qnum_list_to_map. intros Hl%elem_of_list_to_map_2.
  rewrite elem_of_reverse in Hl.
  apply list_elem_of_fmap in Hl as (r' & [= -> ->] & Hr'). done.
Qed.

Lemma dict_by_qnum_is_Some rows r :
  r ∈ rows -> is_Some (dict_by_qnum rows !! BuildDb.qnum r).
Proof.
  intros Hr. rewrite dict_by_qnum_list_to_map.
  apply not_eq_None_Some. intros Hn%not_elem_of_list_to_map_2.
  apply Hn. rewrite keys_of_pairs, elem_of_reverse.
  by apply list_elem_of_fmap_2.
Qed.

Lemma lookup_all_qnums (d : gmap Z BuildDb.question) chosen ordered :
  (forall n r, d !! n = Some r -> BuildDb.qnum r = n) ->
  lookup_all d chosen = inr ordered -> BuildDb.qnum <$> ordered = chosen.
Proof.
  intros Hd. revert ordered.
  induction chosen as [|n chosen IH]; intros ordered; simpl.
  - by intros [= <-].
  - destruct (d !! n) as [r|] eqn:E; [|done].
    destruct (lookup_all d chosen) as [e|rs]; [done|].
    intros [= <-]. by rewrite fmap_cons, (Hd n r E), (IH rs eq_refl).
Qed.

Lemma lookup_all_total (d : gmap Z BuildDb.question) chosen :
  (forall n, n ∈ chosen -> is_Some (d !! n)) ->
  exists ordered, lookup_all d chosen = inr ordered /\ length ordered = length chosen.
Proof.
  induction chosen as [|n chosen IH]; intros Hd; simpl; [by exists []|].
  destruct (Hd n) as [r ->]; [apply list_elem_of_here|].
  destruct IH as (rs & -> & Hlen).
  { intros m Hm. apply Hd. by apply list_elem_of_further. }
  exists (r :: rs). simpl. by rewrite Hlen.
Qed.

Lemma QA_of_row_qnum (ordered : list BuildDb.question) :
  qnum <$> (QA_of_row <$> ordered) = BuildDb.qnum <$> ordered.
Proof. by rewrite <- list_fmap_compose. Qed.

Lemma fetched_unique table chosen :
  NoDup (BuildDb.qnum <$> table) ->
  NoDup (BuildDb.qnum <$> filter (fun r => BuildDb.qnum r ∈ chosen) table).
Proof.
  intros Hnd. eapply sublist_NoDup; [exact Hnd|].
  apply fmap_sublist, sublist_filter.
Qed.

Lemma dict_by_qnum_dom rows (n : Z) :
  is_Some (dict_by_qnum rows !! n) <-> n ∈ BuildDb.qnum <$> rows.
Proof.
  split.
  - intros [r [<- Hr]%dict_by_qnum_lookup]. by apply list_elem_of_fmap_2.
  - intros (r & -> & Hr)%list_elem_of_fmap. by apply dict_by_qnum_is_Some.
Qed.

Lemma lookup_all_keys (d : gmap Z BuildDb.question) chosen ordered :
  lookup_all d chosen = inr ordered -> forall n, n ∈ chosen -> is_Some (d !! n).
Proof.
  revert ordered. induction chosen as [|m chosen IH]; intros ordered; simpl.
  - intros _ n Hn. by apply elem_of_nil in Hn.
  - destruct (d !! m) as [r|] eqn:E; [|done].
    destruct (lookup_all d chosen) as [e|rs]; [done|].
    intros _ n [->|Hn]%elem_of_cons; [by eexists|]. by eapply IH.
Qed.

(** C4. For every table, every integer seed S and every count for which
    the sampling succeeds, a second call of [load_random_questions] with
    the same seed and count against the same table succeeds too and
    returns the same ordered sequence of qnums, whatever entropy the
    operating system holds at each call and in whatever order the database
    hands back the selected rows: the sequence is the draw that the
    generator seeded with S makes from the table's qnums. With unique
    qnums the two calls return the same records altogether. *)
Theorem load_random_questions_deterministic scan table count (S : Z) w1 w2 :
  (forall rows, fetch_order w1 rows ≡ₚ rows) ->
  (forall rows, fetch_order w2 rows ≡ₚ rows) ->
  (forall qas1,
     load_random_questions scan table count (Some S) w1 = inr qas1 ->
     sample (seed_rng S) (BuildDb.qnum <$> scan table) count = Some (qnum <$> qas1)
     /\ exists qas2,
          load_random_questions scan table count (Some S) w2 = inr qas2 /\
          qnum <$> qas1 = qnum <$> qas2)
  /\ (NoDup (BuildDb.qnum <$> table) ->
      load_random_questions scan table count (Some S) w1
      = load_random_questions scan table count (Some S) w2).
Proof.
  intros Hw1 Hw2. unfold load_random_questions, Random. simpl.
  repeat case_bool_decide; [done..|].
  destruct (sample (seed_rng S) (BuildDb.qnum <$> scan table) count)
    as [chosen|]; [|done].
  case_bool_decide as Hlimit; [done|].
  set (fetched := filter (fun r => BuildDb.qnum r ∈ chosen) table).
  assert (forall d ordered,
            (forall n r, d !! n = Some r -> BuildDb.qnum r = n) ->
            lookup_all d chosen = inr ordered ->
            qnum <$> (QA_of_row <$> ordered) = chosen) as Hq.
  { intros d ordered Hd E. rewrite QA_of_row_qnum. by eapply lookup_all_qnums. }
  assert (forall rows n r,
            dict_by_qnum rows !! n = Some r -> BuildDb.qnum r = n) as Hkey.
  { intros rows n r Hr. by apply dict_by_qnum_lookup in Hr as [? _]. }
  split.
  - intros qas1.
    destruct (lookup_all (dict_by_qnum (fetch_order w1 fetched)) chosen)
      as [e|ordered1] eqn:E1; [done|].
    intros [= <-]. rewrite (Hq _ _ (Hkey _) E1). split; [done|].
    destruct (lookup_all_total (dict_by_qnum (fetch_order w2 fetched)) chosen)
      as (ordered2 & E2 & _).
    { intros n Hn. apply dict_by_qnum_dom. rewrite (Hw2 fetched), <- (Hw1 fetched).
      apply dict_by_qnum_dom. by eapply lookup_all_keys. }
    rewrite E2. eexists. split; [done|]. by rewrite (Hq _ _ (Hkey _) E2).
  - intros Hnd.
    assert (forall w, (forall rows, fetch_order w rows ≡ₚ rows) ->
              dict_by_qnum (fetch_order w fetched) = dict_by_qnum fetched) as Hd.
    { intros w Hw. apply dict_by_qnum_perm; [done|].
      rewrite (Hw fetched). by apply fetched_unique. }
    by rewrite (Hd w1 Hw1), (Hd w2 Hw2).
Qed.

(** C8, as amended. [load_random_questions] fails with the empty-database
    error whenever the table holds no row, and fails with the out-of-range
    error, which reports the requested count and the available total,
    whenever the table is not empty and count exceeds the number of its
    rows; either way no record is returned. *)
Theorem load_random_questions_rejects scan table count seed w :
  (table = [] ->
   load_random_questions scan table count seed w
   = inl Database_contains_0_questions)
  /\ (table <> [] -> count > Z.of_nat (length table) ->
      load_random_questions scan table count seed w
      = inl (Requested_but_database_only_has count (Z.of_nat (length table)))).
Proof.
  unfold load_random_questions. split.
  - by intros ->.
  - intros Hne Hgt. rewrite bool_decide_eq_false_2.
    + by rewrite bool_decide_eq_true_2.
    + destruct table; [done|]. simpl. lia.
Qed.

(** C10, as amended. For a [questions] table as the importer writes it,
    given the library's contract for the draw and query results that
    permute the rows they select, [load_random_questions] raises an error
    only when the table is empty, when count exceeds the total, when count
    is negative (which [sample] rejects), or when count exceeds the number
    of parameters that SQLite accepts in one statement (the [IN] query
    binds one for every drawn qnum); a call with count = 0 against a table
    that is not empty returns the empty list. *)
Theorem load_random_questions_errors scan table count seed w :
  draw_ok ->
  (forall rows, scan rows ≡ₚ rows) ->
  (forall rows, fetch_order w rows ≡ₚ rows) ->
  ((exists e, load_random_questions scan table count seed w = inl e) <->
   table = [] \/ count > Z.of_nat (length table) \/ count < 0
   \/ Z.of_nat variable_number < count)
  /\ (table <> [] -> count = 0 ->
      load_random_questions scan table count seed w = inr []).
Proof.
  intros Hdraw Hscan Hfetch.
  assert (length (BuildDb.qnum <$> scan table) = length table) as Hlen
    by by rewrite length_fmap, Hscan.
  unfold load_random_questions, sample. rewrite Hlen.
  destruct (decide (table = [])) as [->|Hne].
  { simpl. split; [|done]. split; eauto. }
  rewrite (bool_decide_eq_false_2 (Z.of_nat (length table) = 0))
    by (destruct table; [done|simpl; lia]).
  case_bool_decide as Hgt.
  { split; [|lia]. split; eauto. }
  case_bool_decide as Hrange; cycle 1.
  { split; [|lia]. split; [intros _; right; right; left; lia|eauto]. }
  set (g := Random seed (entropy w)).
  set (qnums := BuildDb.qnum <$> scan table) in *.
  destruct (Hdraw g qnums (Z.to_nat count)) as [Hk Hsub]; [lia|].
  set (chosen := draw g qnums (Z.to_nat count)) in *.
  rewrite Hk. case_bool_decide as Hlimit.
  { split; [|lia]. split; [intros _; right; right; right; lia|eauto]. }
  set (fetched := filter (fun r => BuildDb.qnum r ∈ chosen) table).
  destruct (lookup_all_total (dict_by_qnum (fetch_order w fetched)) chosen)
    as (ordered & -> & Hlo).
  { intros n Hn.
    assert (n ∈ BuildDb.qnum <$> table) as (r & -> & Hr)%list_elem_of_fmap.
    { rewrite <- (Hscan table). by eapply elem_of_submseteq. }
    apply dict_by_qnum_is_Some. rewrite (Hfetch fetched).
    by apply list_elem_of_filter. }
  split.
  - split; [by intros [e ?]|]. intros [?|[?|[?|?]]]; [done|lia|lia|lia].
  - intros _ ->. simpl in Hk. rewrite Hk in Hlo. by destruct ordered.
Qed.

End Sampler.

(** *** Concrete runs *)

Section SamplerRuns.

Import QuizCore.

Lemma rotating_random_draw_ok : @draw_ok Examples.rotating_random.
Proof.
  intros g population k Hk. simpl. split.
  - rewrite length_take, length_rotate. lia.
  - transitivity (rotate g population); [apply submseteq_take|].
    unfold rotate. rewrite (comm app). by rewrite take_drop.
Qed.

Lemma load_random_questions_deterministic_witness :
  (forall qas1,
     @load_random_questions Examples.rotating_random Examples.sqlite_999 id Examples.table3 2
       (Some 42) Examples.world0 = inr qas1 ->
     @sample Examples.rotating_random (@seed_rng Examples.rotating_random 42)
       (BuildDb.qnum <$> id Examples.table3) 2
     = Some (qnum <$> qas1)
     /\ exists qas2,
          @load_random_questions Examples.rotating_random Examples.sqlite_999 id Examples.table3 2
            (Some 42) Examples.world1 = inr qas2 /\
          qnum <$> qas1 = qnum <$> qas2)
  /\ (NoDup (BuildDb.qnum <$> Examples.table3) ->
      @load_random_questions Examples.rotating_random Examples.sqlite_999 id Examples.table3 2
        (Some 42) Examples.world0
      = @load_random_questions Examples.rotating_random Examples.sqlite_999 id Examples.table3 2
          (Some 42) Examples.world1).
Proof.
  apply (@load_random_questions_deterministic Examples.rotating_random
           Examples.sqlite_999 id Examples.table3 2 42 Examples.world0 Examples.world1).
  - intros rows. apply reverse_Permutation.
  - intros rows. reflexivity.
Defined.

(** The sample run: seed 42 rotates the three qnums to 5, 3, 9 again and
    draws the first two, in both worlds. *)
Lemma load_random_questions_sample :
  @load_random_questions Examples.rotating_random Examples.sqlite_999 id Examples.table3 2
    (Some 42) Examples.world0
  = inr [QA_of_row (Examples.row 5 "five?" "5");
         QA_of_row (Examples.row 3 "three?" "3")].
Proof. by vm_compute. Qed.

Lemma load_random_questions_rejects_witness :
  (Examples.table3 = [] ->
   @load_random_questions Examples.rotating_random Examples.sqlite_999 id Examples.table3 4 None
     Examples.world0
   = inl Database_contains_0_questions)
  /\ (Examples.table3 <> [] -> 4 > Z.of_nat (length Examples.table3) ->
      @load_random_questions Examples.rotating_random Examples.sqlite_999 id Examples.table3 4 None
        Examples.world0
      = inl (Requested_but_database_only_has 4 (Z.of_nat (length Examples.table3)))).
Proof.
  exact (@load_random_questions_rejects Examples.rotating_random
           Examples.sqlite_999 id Examples.table3 4 None Examples.world0).
Defined.

(** C8 as stated fails on an empty table: count 1 exceeds the 0 stored
    rows, yet the error raised is the empty-database one, which reports
    neither number, and not the out-of-range one. *)
Lemma load_random_questions_empty_counterexample :
  1 > Z.of_nat (length (@nil BuildDb.question))
  /\ @load_random_questions Examples.rotating_random Examples.sqlite_999 id [] 1 None Examples.world0
     = inl Database_contains_0_questions
  /\ @load_random_questions Examples.rotating_random Examples.sqlite_999 id [] 1 None Examples.world0
     <> inl (Requested_but_database_only_has 1 0).
Proof. split_and!; [done|reflexivity|discriminate]. Qed.

Lemma load_random_questions_errors_witness :
  ((exists e,
      @load_random_questions Examples.rotating_random Examples.sqlite_999 id
        Examples.table3 0 (Some 42) Examples.world0 = inl e) <->
   Examples.table3 = [] \/ 0 > Z.of_nat (length Examples.table3) \/ 0 < 0
   \/ Z.of_nat (@variable_number Examples.sqlite_999) < 0)
  /\ (Examples.table3 <> [] -> 0 = 0 ->
      @load_random_questions Examples.rotating_random Examples.sqlite_999 id
        Examples.table3 0 (Some 42) Examples.world0 = inr []).
Proof.
  apply (@load_random_questions_errors Examples.rotating_random
           Examples.sqlite_999 id Examples.table3 0 (Some 42) Examples.world0).
  - exact rotating_random_draw_ok.
  - intros rows. reflexivity.
  - intros rows. apply reverse_Permutation.
Defined.

(** C10 as stated fails on a negative count: the table is not empty and
    the count does not exceed the total, yet the call raises the error of
    [sample]. *)
Lemma load_random_questions_negative_counterexample :
  Examples.table3 <> []
  /\ ~ (-1 > Z.of_nat (length Examples.table3))
  /\ @load_random_questions Examples.rotating_random Examples.sqlite_999 id Examples.table3 (-1)
       (Some 42) Examples.world0
     = inl Sample_larger_than_population_or_is_negative.
Proof. split_and!; [discriminate|done|reflexivity]. Qed.

(** The parameter limit at work: a draw of all 1000 rows of a table
    against a library that accepts 999 parameters is refused, although the
    table is not empty and the count is in range. *)
Lemma load_random_questions_too_many_variables :
  @load_random_questions Examples.rotating_random Examples.sqlite_999 id
    (Examples.numbered 1000) 1000 (Some 42) Examples.world1
  = inl OperationalError_too_many_SQL_variables.
Proof. by vm_compute. Qed.

End SamplerRuns.

(** * Further properties *)

(** ** The table under upsert *)

Section StoreInvariants.

Import BuildDb Blocks.

Implicit Types (table questions earlier later : list question) (q r : question).

Lemma upsert_one_unique table q :
  NoDup (qnum <$> table) -> NoDup (qnum <$> upsert_one table q).
Proof.
  rewrite upsert_one_keys. case_bool_decide as Hin; [done|].
  intros Hnd. apply NoDup_app. split_and!; [done| |apply NoDup_singleton].
  by intros x Hx ->%list_elem_of_singleton.
Qed.

Lemma committed_unique table questions :
  NoDup (qnum <$> table) -> NoDup (qnum <$> committed table questions).
Proof.
  unfold committed. revert table.
  induction questions as [|q questions IH]; intros table Hnd; [done|].
  simpl. by apply IH, upsert_one_unique.
Qed.

(** X1. The UNIQUE constraint on qnum is an invariant of the import: a
    table with unique qnums keeps unique qnums, whatever the records and
    whether the import is committed or rolled back. *)
Theorem upsert_questions_unique table questions :
  NoDup (qnum <$> table) -> NoDup (qnum <$> (upsert_questions table questions).1).
Proof.
  intros Hnd.
  destruct (decide (Forall (fun q => fits_int64 (qnum q) = true) questions))
    as [Hfit|Hfit].
  - rewrite upsert_questions_commits by done. by apply committed_unique.
  - by rewrite upsert_questions_rolls_back.
Qed.

Lemma upsert_questions_unique_witness :
  NoDup (qnum <$> (upsert_questions Examples.table3 Examples.reimport).1).
Proof.
  apply (upsert_questions_unique Examples.table3 Examples.reimport).
  vm_compute. by apply (bool_decide_unpack _).
Defined.

Lemma upsert_one_lookup_other table q (i : nat) r :
  table !! i = Some r -> qnum r <> qnum q -> upsert_one table q !! i = Some r.
Proof.
  intros Hi Hne. unfold upsert_one. case_bool_decide.
  - rewrite list_lookup_fmap, Hi. simpl. by rewrite do_update_miss.
  - by apply lookup_app_l_Some.
Qed.

Lemma upsert_questions_lookup_other table questions (i : nat) r :
  table !! i = Some r -> qnum r ∉ qnum <$> questions ->
  committed table questions !! i = Some r.
Proof.
  unfold committed. revert table.
  induction questions as [|q questions IH]; intros table Hi Hnot; [done|].
  rewrite fmap_cons in Hnot. apply not_elem_of_cons in Hnot as [Hne Hnot].
  simpl. apply IH; [|done]. by apply upsert_one_lookup_other.
Qed.

Lemma upsert_one_prefix table q :
  (qnum <$> table) `prefix_of` (qnum <$> upsert_one table q).
Proof.
  rewrite upsert_one_keys. case_bool_decide; [done|]. by apply prefix_app_r.
Qed.

Lemma committed_prefix table questions :
  (qnum <$> table) `prefix_of` (qnum <$> committed table questions).
Proof.
  unfold committed. revert table.
  induction questions as [|q questions IH]; intros table; [done|].
  simpl. etrans; [apply upsert_one_prefix|apply IH].
Qed.

(** X2. The import never deletes or moves a row: the qnum column of the
    table is a prefix of the qnum column afterwards, and every row whose
    qnum is not among the imported records is still in its place,
    unchanged. *)
Theorem upsert_questions_keeps_rows table questions :
  (qnum <$> table) `prefix_of` (qnum <$> (upsert_questions table questions).1)
  /\ (forall (i : nat) r,
        table !! i = Some r -> qnum r ∉ qnum <$> questions ->
        (upsert_questions table questions).1 !! i = Some r).
Proof.
  destruct (decide (Forall (fun q => fits_int64 (qnum q) = true) questions))
    as [Hfit|Hfit].
  - rewrite upsert_questions_commits by done.
    split; [apply committed_prefix|apply upsert_questions_lookup_other].
  - rewrite upsert_questions_rolls_back by done. by split.
Qed.

Lemma upsert_questions_keeps_rows_witness :
  Examples.table3 !! 0%nat = Some (Examples.row 5 "five?" "5")
  /\ (qnum (Examples.row 5 "five?" "5") ∉ qnum <$> Examples.reimport)
  /\ (upsert_questions Examples.table3 Examples.reimport).1 !! 0%nat
     = Some (Examples.row 5 "five?" "5").
Proof.
  assert (qnum (Examples.row 5 "five?" "5") ∉ qnum <$> Examples.reimport) as H.
  { apply (bool_decide_unpack _). by vm_compute. }
  split; [done|]. split; [exact H|].
  by apply (proj2 (upsert_questions_keeps_rows Examples.table3 Examples.reimport) 0%nat).
Defined.

Lemma upsert_one_elem table q : q ∈ upsert_one table q.
Proof.
  unfold upsert_one. case_bool_decide as Hin.
  - apply list_elem_of_fmap in Hin as (r & E & Hr).
    apply list_elem_of_fmap. exists r. split; [|done].
    symmetry. by apply do_update_hit.
  - apply elem_of_app. right. by apply list_elem_of_singleton.
Qed.

Lemma committed_last_wins table earlier q later :
  qnum q ∉ qnum <$> later ->
  q ∈ committed table (earlier ++ q :: later).
Proof.
  intros Hnot. unfold committed. rewrite fold_left_app. simpl.
  set (t := upsert_one (fold_left upsert_one earlier table) q).
  destruct (list_elem_of_lookup_1 t q) as [i Hi]; [apply upsert_one_elem|].
  eapply list_elem_of_lookup_2.
  by apply (upsert_questions_lookup_other t later i q).
Qed.

(** X3. Last write wins: when every qnum of the import fits the 64 bits of
    an SQLite INTEGER, so that the import is committed, a record that no
    later record of the import overrides (none has its qnum) is a row of
    the table after the import, with all its fields. *)
Theorem upsert_questions_last_wins table earlier q later :
  Forall (fun q' => fits_int64 (qnum q') = true) (earlier ++ q :: later) ->
  qnum q ∉ qnum <$> later ->
  (upsert_questions table (earlier ++ q :: later)).2 = None
  /\ q ∈ (upsert_questions table (earlier ++ q :: later)).1.
Proof.
  intros Hfit Hnot. rewrite upsert_questions_commits by done.
  split; [done|]. by apply committed_last_wins.
Qed.

Lemma upsert_questions_last_wins_witness :
  (upsert_questions Examples.table3
     ([Examples.row 3 "three!" "III"; Examples.row 4 "four?" "4"; Examples.rec_q4]
      ++ Examples.row 3 "three again" "3" :: [])).2 = None
  /\ Examples.row 3 "three again" "3"
     ∈ (upsert_questions Examples.table3
          ([Examples.row 3 "three!" "III"; Examples.row 4 "four?" "4"; Examples.rec_q4]
           ++ Examples.row 3 "three again" "3" :: [])).1.
Proof.
  apply (upsert_questions_last_wins Examples.table3
           [Examples.row 3 "three!" "III"; Examples.row 4 "four?" "4"; Examples.rec_q4]
           (Examples.row 3 "three again" "3") []).
  - by repeat constructor.
  - vm_compute. by intros ?%elem_of_nil.
Defined.

Lemma committed_fresh table questions :
  NoDup (qnum <$> questions) ->
  (forall q, q ∈ questions -> qnum q ∉ qnum <$> table) ->
  committed table questions = table ++ questions.
Proof.
  unfold committed. revert table.
  induction questions as [|q questions IH]; intros table Hnd Hnew; simpl.
  - by rewrite app_nil_r.
  - rewrite fmap_cons in Hnd. apply NoDup_cons in Hnd as [Hq Hnd].
    assert (upsert_one table q = table ++ [q]) as ->.
    { unfold upsert_one. rewrite bool_decide_eq_false_2; [done|].
      apply Hnew, list_elem_of_here. }
    rewrite IH, <- app_assoc; [done|done|].
    intros q' Hq'. rewrite fmap_app, elem_of_app.
    intros [Hin|Hin%list_elem_of_singleton].
    + by apply (Hnew q'); [apply list_elem_of_further|].
    + apply Hq. rewrite <- Hin. by apply list_elem_of_fmap_2.
Qed.

(** X4. When every qnum of the import fits the 64 bits of an SQLite
    INTEGER, records with pairwise distinct qnums, none of them stored
    yet, are appended as they are after the rows of the table, in the
    order of the import, and nothing is raised. *)
Theorem upsert_questions_fresh table questions :
  Forall (fun q => fits_int64 (qnum q) = true) questions ->
  NoDup (qnum <$> questions) ->
  (forall q, q ∈ questions -> qnum q ∉ qnum <$> table) ->
  upsert_questions table questions = (table ++ questions, None).
Proof.
  intros Hfit Hnd Hnew. rewrite upsert_questions_commits by done.
  by rewrite committed_fresh.
Qed.

Lemma upsert_questions_fresh_witness :
  upsert_questions Examples.table3
    [Examples.row 4 "four?" "4"; Examples.row 7 "seven?" "7"]
  = (Examples.table3 ++ [Examples.row 4 "four?" "4"; Examples.row 7 "seven?" "7"],
     None).
Proof.
  apply (upsert_questions_fresh Examples.table3
           [Examples.row 4 "four?" "4"; Examples.row 7 "seven?" "7"]).
  - by repeat constructor.
  - vm_compute. by apply (bool_decide_unpack _).
  - intros q Hq. apply (bool_decide_unpack _).
    apply elem_of_cons in Hq as [->|Hq]; [by vm_compute|].
    apply list_elem_of_singleton in Hq as ->. by vm_compute.
Defined.

(** A second import of the same records changes nothing. *)
Lemma upsert_questions_again table questions :
  committed (committed table questions) questions
  = committed table questions.
Proof.
  rewrite upsert_questions_updates.
  - rewrite <- (list_fmap_id (committed table questions)) at 2.
    apply list_fmap_ext. intros i r Hr. simpl.
    apply (upsert_questions_settled table). by eapply list_elem_of_lookup_2.
  - intros q Hq. by apply upsert_questions_has_keys.
Qed.

(** *** Overwriting in place *)

Lemma upsert_one_lookup table q (i : nat) r :
  table !! i = Some r ->
  upsert_one table q !! i = Some (if bool_decide (qnum r = qnum q) then q else r).
Proof.
  intros Hi. unfold upsert_one. case_bool_decide as Hin.
  - rewrite list_lookup_fmap, Hi. simpl. f_equal. case_bool_decide.
    + by apply do_update_hit.
    + by apply do_update_miss.
  - rewrite bool_decide_eq_false_2.
    + by apply lookup_app_l_Some.
    + intros E. apply Hin. rewrite <- E. apply list_elem_of_fmap_2.
      by eapply list_elem_of_lookup_2.
Qed.

(** A position of the table keeps its qnum through an import. *)
Lemma committed_lookup_qnum table questions (i : nat) r :
  table !! i = Some r ->
  exists r', committed table questions !! i = Some r' /\ qnum r' = qnum r.
Proof.
  unfold committed. revert table r.
  induction questions as [|q questions IH]; intros table r Hi; [by exists r|].
  simpl. apply (upsert_one_lookup table q) in Hi.
  destruct (IH _ _ Hi) as (r' & Hr' & E). exists r'. split; [done|].
  rewrite E. by case_bool_decide.
Qed.

(** The record that is the last of its qnum in the import takes the place
    of the rows with that qnum. *)
Lemma committed_in_place table earlier q later (i : nat) r :
  qnum q ∉ qnum <$> later ->
  table !! i = Some r -> qnum r = qnum q ->
  committed table (earlier ++ q :: later) !! i = Some q.
Proof.
  intros Hnot Hi Hq.
  destruct (committed_lookup_qnum table earlier i r Hi) as (r1 & H1 & E1).
  unfold committed in *. rewrite fold_left_app. simpl.
  apply (upsert_questions_lookup_other _ later i q); [|done].
  rewrite (upsert_one_lookup _ q i r1 H1).
  by rewrite bool_decide_eq_true_2 by congruence.
Qed.

(** Rows are appended for the new qnums only, one for each. *)
Lemma committed_column table questions :
  exists fresh,
    qnum <$> committed table questions = (qnum <$> table) ++ fresh
    /\ NoDup fresh
    /\ forall k, k ∈ fresh <-> k ∈ qnum <$> questions /\ k ∉ qnum <$> table.
Proof.
  unfold committed. revert table.
  induction questions as [|q questions IH]; intros table.
  - exists []. rewrite app_nil_r. split_and!; [done|constructor|].
    intros k. split; [by intros ?%elem_of_nil|]. by intros [?%elem_of_nil _].
  - cbn [fold_left]. rewrite fmap_cons.
    destruct (IH (upsert_one table q)) as (fresh & Hcol & Hnd & Hin).
    rewrite upsert_one_keys in Hcol, Hin. case_bool_decide as Hq.
    + exists fresh. split_and!; [done..|]. intros k.
      rewrite Hin, elem_of_cons. split.
      * intros [? ?]. split; [by right|done].
      * intros [[->|?] ?]; [done|by split].
    + exists (qnum q :: fresh). split_and!.
      * by rewrite Hcol, <- app_assoc.
      * apply NoDup_cons. split; [|done]. intros [_ Hk]%Hin.
        apply Hk, elem_of_app. right. apply list_elem_of_here.
      * intros k. rewrite !elem_of_cons, Hin, elem_of_app.
        rewrite list_elem_of_singleton. split.
        -- intros [->|[? ?]]; [by split; [left|]|]. split; [by right|]. tauto.
        -- intros [[->|?] ?]; [by left|]. destruct (decide (k = qnum q)); [by left|].
           right. split; [done|]. tauto.
Qed.

(** C9, as amended. Upsert is idempotent: from every table and for every
    record list, a second import of the list leaves the table as the first
    import left it, and raises what the first raised. The import is
    committed exactly when every qnum of the list fits the 64 bits of an
    SQLite INTEGER; otherwise it raises [OverflowError] and is rolled
    back, which leaves the table as it was. When the import is committed,
    rows are appended for the qnums that the table did not hold and for
    no other, one row for each, and on a qnum conflict the row with that
    qnum holds, in its place, the four dependent fields of the last record
    of the list with that qnum. *)
Theorem upsert_questions_idempotent table questions :
  upsert_questions (upsert_questions table questions).1 questions
  = upsert_questions table questions
  /\ ((upsert_questions table questions).2 = None
      <-> Forall (fun q => fits_int64 (qnum q) = true) questions)
  /\ ((upsert_questions table questions).2 <> None ->
      (upsert_questions table questions).1 = table)
  /\ ((upsert_questions table questions).2 = None ->
      (exists fresh,
         qnum <$> (upsert_questions table questions).1 = (qnum <$> table) ++ fresh
         /\ NoDup fresh
         /\ forall k, k ∈ fresh <-> k ∈ qnum <$> questions /\ k ∉ qnum <$> table)
      /\ forall earlier q later (i : nat) r,
           questions = earlier ++ q :: later -> qnum q ∉ qnum <$> later ->
           table !! i = Some r -> qnum r = qnum q ->
           (upsert_questions table questions).1 !! i = Some q).
Proof.
  split; [|split; [apply upsert_questions_raised|]].
  - destruct (decide (Forall (fun q => fits_int64 (qnum q) = true) questions))
      as [Hfit|Hfit].
    + rewrite !upsert_questions_commits by done. simpl.
      by rewrite upsert_questions_again.
    + by rewrite !upsert_questions_rolls_back.
  - destruct (decide (Forall (fun q => fits_int64 (qnum q) = true) questions))
      as [Hfit|Hfit].
    + rewrite upsert_questions_commits by done. simpl. split; [done|].
      intros _. split; [apply committed_column|].
      intros earlier q later i r -> Hnot Hi Hq. by eapply committed_in_place.
    + rewrite upsert_questions_rolls_back by done. by split.
Qed.

Lemma upsert_questions_idempotent_witness :
  upsert_questions (upsert_questions Examples.table3 Examples.reimport).1
    Examples.reimport
  = upsert_questions Examples.table3 Examples.reimport
  /\ (upsert_questions Examples.table3 Examples.reimport).2 = None
  /\ (upsert_questions Examples.table3 Examples.reimport).1 !! 1%nat
     = Some (Examples.row 3 "three again" "3").
Proof.
  destruct (upsert_questions_idempotent Examples.table3 Examples.reimport)
    as (Hagain & Hraised & _ & Hdone).
  assert ((upsert_questions Examples.table3 Examples.reimport).2 = None) as Hnone.
  { apply Hraised. by repeat constructor. }
  split; [exact Hagain|]. split; [exact Hnone|].
  apply (proj2 (Hdone Hnone)
           [Examples.row 3 "three!" "III"; Examples.row 4 "four?" "4"; Examples.rec_q4]
           (Examples.row 3 "three again" "3") [] 1%nat (Examples.row 3 "three?" "3")).
  - reflexivity.
  - by intros ?%elem_of_nil.
  - reflexivity.
  - reflexivity.
Defined.

(** C9 as stated fails on a qnum that SQLite cannot hold: the import of a
    record for the stored qnum 3 together with a record whose qnum is
    2^63 raises, and is rolled back as a whole, so the row of qnum 3 keeps
    its fields although the import brought new ones for it. *)
Lemma upsert_questions_overflow_counterexample :
  qnum (Examples.row 3 "three!" "III") ∈ qnum <$> Examples.table3
  /\ upsert_questions Examples.table3
       [Examples.row 3 "three!" "III"; Examples.row (2 ^ 63) "big?" "!"]
     = (Examples.table3,
        Some OverflowError_int_too_large_to_convert_to_SQLite_INTEGER)
  /\ Examples.row 3 "three!" "III"
     ∉ (upsert_questions Examples.table3
          [Examples.row 3 "three!" "III"; Examples.row (2 ^ 63) "big?" "!"]).1.
Proof.
  assert (upsert_questions Examples.table3
            [Examples.row 3 "three!" "III"; Examples.row (2 ^ 63) "big?" "!"]
          = (Examples.table3,
             Some OverflowError_int_too_large_to_convert_to_SQLite_INTEGER)) as E
    by (by vm_compute).
  split_and!.
  - apply (bool_decide_unpack _). by vm_compute.
  - exact E.
  - rewrite E. unfold Examples.table3. cbn [fst]. rewrite !elem_of_cons.
    intros [Hr|[Hr|[Hr|Hr]]]; [by vm_compute in Hr..|by apply elem_of_nil in Hr].
Qed.

End StoreInvariants.

(** ** What a successful round holds *)

Section SamplerRounds.

Import QuizCore.

Context `{PyRandom} `{Sqlite3}.

Implicit Types (table rows : list BuildDb.question) (chosen : list Z)
  (count : Z) (seed : option Z) (w : world)
  (scan : list BuildDb.question -> list BuildDb.question).

Lemma lookup_all_rows (d : gmap Z BuildDb.question) chosen ordered :
  lookup_all d chosen = inr ordered ->
  Forall (fun r => exists n, d !! n = Some r) ordered.
Proof.
  revert ordered. induction chosen as [|n chosen IH]; intros ordered; simpl.
  - by intros [= <-].
  - destruct (d !! n) as [r|] eqn:E; [|done].
    destruct (lookup_all d chosen) as [e|rs]; [done|].
    intros [= <-]. constructor; [by exists n|by apply IH].
Qed.

(** A request within range succeeds, with the records of the draw. *)
Lemma load_random_questions_success scan table count seed w :
  draw_ok ->
  (forall rows, scan rows ≡ₚ rows) ->
  (forall rows, fetch_order w rows ≡ₚ rows) ->
  table <> [] -> 0 <= count <= Z.of_nat (length table) ->
  count <= Z.of_nat variable_number ->
  exists ordered,
    load_random_questions scan table count seed w = inr (QA_of_row <$> ordered)
    /\ length ordered = Z.to_nat count
    /\ BuildDb.qnum <$> ordered ⊆+ BuildDb.qnum <$> table
    /\ Forall (fun r => r ∈ table) ordered.
Proof.
  intros Hdraw Hscan Hfetch Hne Hrange Hlimit.
  assert (length (BuildDb.qnum <$> scan table) = length table) as Hlen
    by by rewrite length_fmap, Hscan.
  unfold load_random_questions, sample. rewrite Hlen.
  rewrite (bool_decide_eq_false_2 (Z.of_nat (length table) = 0))
    by (destruct table; [done|simpl; lia]).
  rewrite (bool_decide_eq_false_2 (count > _)) by lia.
  rewrite bool_decide_eq_true_2 by done.
  set (g := Random seed (entropy w)).
  set (qnums := BuildDb.qnum <$> scan table) in *.
  destruct (Hdraw g qnums (Z.to_nat count)) as [Hk Hsub]; [lia|].
  set (chosen := draw g qnums (Z.to_nat count)) in *.
  rewrite (bool_decide_eq_false_2 (variable_number < _)%nat) by lia.
  set (fetched := filter (fun r => BuildDb.qnum r ∈ chosen) table).
  destruct (lookup_all_total (dict_by_qnum (fetch_order w fetched)) chosen)
    as (ordered & E & Hlo).
  { intros n Hn.
    assert (n ∈ BuildDb.qnum <$> table) as (r & -> & Hr)%list_elem_of_fmap.
    { rewrite <- (Hscan table). by eapply elem_of_submseteq. }
    apply dict_by_qnum_is_Some. rewrite (Hfetch fetched).
    by apply list_elem_of_filter. }
  rewrite E. exists ordered. split_and!.
  - done.
  - by rewrite Hlo.
  - rewrite (lookup_all_qnums _ chosen ordered
               (fun n r Hr => proj1 (dict_by_qnum_lookup _ n r Hr)) E).
    unfold qnums in Hsub. by rewrite (Hscan table) in Hsub.
  - eapply Forall_impl; [by eapply lookup_all_rows|]. simpl.
    intros r [n [_ Hr]%dict_by_qnum_lookup].
    rewrite (Hfetch fetched) in Hr. by apply list_elem_of_filter in Hr as [_ ?].
Qed.

(** X5. Given the library's contract for the draw and query results that
    permute the rows they select, a request for count records with
    0 <= count <= total against a table that is not empty succeeds when
    count is no more than the number of parameters that SQLite accepts in
    one statement, and returns exactly count records; each is a stored
    row, field by field, and their qnums are taken from distinct rows of
    the table. *)
Theorem load_random_questions_returns scan table count seed w :
  draw_ok ->
  (forall rows, scan rows ≡ₚ rows) ->
  (forall rows, fetch_order w rows ≡ₚ rows) ->
  table <> [] -> 0 <= count <= Z.of_nat (length table) ->
  count <= Z.of_nat variable_number ->
  exists qas,
    load_random_questions scan table count seed w = inr qas
    /\ Z.of_nat (length qas) = count
    /\ qnum <$> qas ⊆+ BuildDb.qnum <$> table
    /\ Forall (fun qa => exists r, r ∈ table /\ qa = QA_of_row r) qas.
Proof.
  intros Hdraw Hscan Hfetch Hne Hrange Hlimit.
  destruct (load_random_questions_success scan table count seed w)
    as (ordered & E & Hlen & Hsub & Hrows); [done..|].
  exists (QA_of_row <$> ordered). split_and!.
  - done.
  - rewrite length_fmap, Hlen. lia.
  - by rewrite QA_of_row_qnum.
  - apply Forall_fmap. eapply Forall_impl; [exact Hrows|]. simpl. eauto.
Qed.

(** X6. Under the same assumptions a request for as many records as the
    table holds, when the table has no more rows than SQLite accepts
    parameters in one statement, returns every stored qnum exactly once:
    the qnums of the round are a permutation of the qnum column. *)
Theorem load_random_questions_whole_table scan table seed w :
  draw_ok ->
  (forall rows, scan rows ≡ₚ rows) ->
  (forall rows, fetch_order w rows ≡ₚ rows) ->
  table <> [] -> (length table <= variable_number)%nat ->
  exists qas,
    load_random_questions scan table (Z.of_nat (length table)) seed w = inr qas
    /\ qnum <$> qas ≡ₚ BuildDb.qnum <$> table.
Proof.
  intros Hdraw Hscan Hfetch Hne Hlimit.
  destruct (load_random_questions_success scan table (Z.of_nat (length table)) seed w)
    as (ordered & E & Hlen & Hsub & _); [done..|lia|lia|].
  exists (QA_of_row <$> ordered). split; [done|].
  rewrite QA_of_row_qnum. apply submseteq_length_Permutation; [done|].
  rewrite !length_fmap, Hlen. lia.
Qed.

End SamplerRounds.

Section SamplerRoundsRuns.

Import QuizCore.

Lemma load_random_questions_returns_witness :
  exists qas,
    @load_random_questions Examples.rotating_random Examples.sqlite_999 id
      Examples.table3 2 None Examples.world0 = inr qas
    /\ Z.of_nat (length qas) = 2
    /\ qnum <$> qas ⊆+ BuildDb.qnum <$> Examples.table3
    /\ Forall (fun qa => exists r, r ∈ Examples.table3 /\ qa = QA_of_row r) qas.
Proof.
  apply (@load_random_questions_returns Examples.rotating_random
           Examples.sqlite_999 id Examples.table3 2 None Examples.world0).
  - exact rotating_random_draw_ok.
  - intros rows. reflexivity.
  - intros rows. apply reverse_Permutation.
  - discriminate.
  - vm_compute. split; discriminate.
  - vm_compute. discriminate.
Defined.

Lemma load_random_questions_whole_table_witness :
  exists qas,
    @load_random_questions Examples.rotating_random Examples.sqlite_999 id
      Examples.table3 (Z.of_nat (length Examples.table3)) (Some 1) Examples.world0
    = inr qas
    /\ qnum <$> qas ≡ₚ BuildDb.qnum <$> Examples.table3.
Proof.
  apply (@load_random_questions_whole_table Examples.rotating_random
           Examples.sqlite_999 id Examples.table3 (Some 1) Examples.world0).
  - exact rotating_random_draw_ok.
  - intros rows. reflexivity.
  - intros rows. apply reverse_Permutation.
  - discriminate.
  - simpl. lia.
Defined.

End SamplerRoundsRuns.

(** ** The grader and the shape of the answer *)

Section CharMaps.

(** A change of characters that keeps whitespace, the space and the comma
    apart from the rest, as upper- and lowercasing do. *)
Context (f : ascii -> ascii).
Context (Hspace : forall c, isspace (f c) = isspace c).
Context (Hblank : f " "%char = " "%char).
Context (Hcomma : forall c, f c = ","%char <-> c = ","%char).

Implicit Types (s : str).

Lemma lstrip_map s : lstrip (map f s) = map f (lstrip s).
Proof.
  unfold lstrip. induction s as [|c s IH]; simpl; [done|].
  rewrite Hspace. by destruct (isspace c).
Qed.

Lemma rstrip_map s : rstrip (map f s) = map f (rstrip s).
Proof.
  unfold rstrip, rstrip_by. change (map f) with (fmap (M:=list) f).
  rewrite <- fmap_reverse. change (fmap (M:=list) f) with (map f).
  fold lstrip. rewrite lstrip_map. change (map f) with (fmap (M:=list) f).
  by rewrite fmap_reverse.
Qed.

Lemma strip_map s : strip (map f s) = map f (strip s).
Proof.
  unfold strip, strip_by. fold lstrip. fold rstrip.
  by rewrite lstrip_map, rstrip_map.
Qed.

Lemma nonempty_map s : nonempty (map f s) = nonempty s.
Proof. by destruct s. Qed.

Lemma sub_ws_go_map in_run s :
  sub_ws_go in_run (map f s) = map f (sub_ws_go in_run s).
Proof.
  revert in_run. induction s as [|c s IH]; intros in_run; simpl; [done|].
  rewrite Hspace. destruct (isspace c), in_run; simpl.
  - apply IH.
  - by rewrite IH, Hblank.
  - by rewrite IH.
  - by rewrite IH.
Qed.

Lemma split_comma_map s :
  split ","%char (map f s) = map (map f) (split ","%char s).
Proof.
  induction s as [|c s IH]; simpl; [done|].
  rewrite IH. rewrite (bool_decide_ext _ _ (Hcomma c)).
  case_bool_decide; [done|]. by destruct (split ","%char s).
Qed.

Lemma contains_comma_map s : contains [","%char] (map f s) = contains [","%char] s.
Proof.
  apply eq_true_iff_eq. rewrite !contains_char.
  change (map f s) with (f <$> s). rewrite list_elem_of_fmap. split.
  - intros (c & E & Hc). symmetry in E. apply (proj1 (Hcomma c)) in E.
    by rewrite <- E.
  - intros Hc. exists ","%char. split; [|done]. symmetry.
    by apply (proj2 (Hcomma ","%char)).
Qed.

Lemma pieces_map (l : list str) :
  strip <$> List.filter (fun p => nonempty (strip p)) (map (map f) l)
  = map (map f) (strip <$> List.filter (fun p => nonempty (strip p)) l).
Proof.
  induction l as [|p ps IH]; [done|].
  cbn [map List.filter]. rewrite strip_map, nonempty_map.
  destruct (nonempty (strip p)); [|done].
  rewrite !fmap_cons. cbn [map]. by rewrite strip_map, IH.
Qed.

Lemma _split_csv_list_map s :
  QuizCore._split_csv_list (map f s) = map (map f) (QuizCore._split_csv_list s).
Proof. unfold QuizCore._split_csv_list. rewrite split_comma_map. apply pieces_map. Qed.

End CharMaps.

Section AnswerShape.

Import QuizCore.

Implicit Types (user_answer value opt s : str) (qa : QA) (case_sensitive : bool).

Lemma strip_blank s : Forall (fun c => isspace c = true) s -> strip s = [].
Proof.
  intros Hs. unfold strip, strip_by. by rewrite lstrip_by_all.
Qed.

(** X7. An answer made of whitespace only is graded incorrect on every
    record and in both case modes, by the grader of the GUI and by the
    grader of the command line. *)
Theorem is_correct_blank_answer user_answer qa case_sensitive :
  Forall (fun c => isspace c = true) user_answer ->
  is_correct user_answer qa case_sensitive = false
  /\ Quiz.is_correct user_answer qa case_sensitive = false.
Proof.
  intros Hs. unfold is_correct, Quiz.is_correct. by rewrite (strip_blank _ Hs).
Qed.

Lemma is_correct_blank_answer_witness :
  is_correct (py "  	 ") Examples.dhcp true = false
  /\ Quiz.is_correct (py "  	 ") Examples.dhcp true = false.
Proof.
  apply (is_correct_blank_answer (py "  	 ") Examples.dhcp true).
  repeat constructor.
Defined.

(** X8. Whitespace around the user answer does not count: padding the
    answer on either side changes the verdict of neither grader. *)
Theorem is_correct_padded_answer user_answer qa case_sensitive (left right : str) :
  Forall (fun c => isspace c = true) left ->
  Forall (fun c => isspace c = true) right ->
  is_correct (left ++ user_answer ++ right) qa case_sensitive
  = is_correct user_answer qa case_sensitive
  /\ Quiz.is_correct (left ++ user_answer ++ right) qa case_sensitive
     = Quiz.is_correct user_answer qa case_sensitive.
Proof.
  intros Hl Hr. unfold is_correct, Quiz.is_correct, strip.
  by rewrite (strip_by_pad isspace left user_answer right Hl Hr).
Qed.

Lemma is_correct_padded_answer_witness :
  is_correct (py "  " ++ py "red, blue" ++ py " ") Examples.colours false
  = is_correct (py "red, blue") Examples.colours false
  /\ Quiz.is_correct (py "  " ++ py "red, blue" ++ py " ") Examples.colours false
     = Quiz.is_correct (py "red, blue") Examples.colours false.
Proof.
  apply (is_correct_padded_answer (py "red, blue") Examples.colours false
           (py "  ") (py " ")); repeat constructor.
Defined.

(** X9. The canonical answer is accepted in both case modes: the stored
    option letter on a record that has one, and the stored answer_value on
    a record without option letter. *)
Theorem is_correct_canonical_answer qa case_sensitive :
  (forall opt, answer_option qa = Some opt -> strip opt <> [] ->
     is_correct opt qa case_sensitive = true)
  /\ (forall value,
        truthy (answer_option qa) = false ->
        answer_value qa = Some value -> strip value <> [] ->
        is_correct value qa case_sensitive = true).
Proof.
  split.
  - intros opt Ho Hne.
    rewrite (is_correct_with_option _ _ _ opt); [|done|by intros ->].
    apply andb_true_iff. split; [by apply nonempty_true|].
    by apply grade_option_spec.
  - intros value Ho Hv Hne. rewrite is_correct_without_option by done.
    apply andb_true_iff. split; [by apply nonempty_true|].
    apply orb_true_iff. left. unfold grade_value. rewrite Hv. simpl.
    assert (nonempty value = true) as -> by (apply nonempty_true; by intros ->).
    simpl. apply orb_true_iff. right. unfold grade_exact.
    destruct case_sensitive; apply eqb_true; [done|apply normalize_strip].
Qed.

Lemma is_correct_canonical_answer_witness :
  (forall opt, answer_option Examples.dhcp = Some opt -> strip opt <> [] ->
     is_correct opt Examples.dhcp true = true)
  /\ (forall value,
        truthy (answer_option Examples.dhcp) = false ->
        answer_value Examples.dhcp = Some value -> strip value <> [] ->
        is_correct value Examples.dhcp true = true).
Proof. exact (is_correct_canonical_answer Examples.dhcp true). Defined.

(** *** Case *)

Lemma upper_char_facts c :
  isspace (upper_char c) = isspace c
  /\ (upper_char c = ","%char <-> c = ","%char)
  /\ lower_char (upper_char c) = lower_char c
  /\ upper_char (upper_char c) = upper_char c.
Proof. destruct c as [[] [] [] [] [] [] [] []]; by vm_compute. Qed.

Lemma lower_char_facts c :
  isspace (lower_char c) = isspace c
  /\ (lower_char c = ","%char <-> c = ","%char)
  /\ lower_char (lower_char c) = lower_char c
  /\ upper_char (lower_char c) = upper_char c
  /\ isupper (lower_char c) = false.
Proof. destruct c as [[] [] [] [] [] [] [] []]; by vm_compute. Qed.

Section CaseChange.

Context (f : ascii -> ascii).
Context (Hspace : forall c, isspace (f c) = isspace c).
Context (Hblank : f " "%char = " "%char).
Context (Hcomma : forall c, f c = ","%char <-> c = ","%char).
Context (Hlower : forall c, lower_char (f c) = lower_char c).
Context (Hupper : forall c, upper_char (f c) = upper_char c).

Lemma lower_map s : lower (map f s) = lower s.
Proof. unfold lower. rewrite map_map. by apply map_ext. Qed.

Lemma upper_map s : upper (map f s) = upper s.
Proof. unfold upper. rewrite map_map. by apply map_ext. Qed.

Lemma normalize_map s : normalize (map f s) = normalize s.
Proof.
  unfold normalize, sub_ws.
  by rewrite strip_map, sub_ws_go_map, lower_map.
Qed.

Lemma grade_option_eqb ua opt :
  grade_option ua opt = eqb (upper ua) (upper (strip opt)).
Proof.
  unfold grade_option. destruct (eqb _ _); [done|]. by destruct (_ && _).
Qed.

Lemma is_correct_map user_answer qa :
  is_correct (map f user_answer) qa false = is_correct user_answer qa false.
Proof.
  unfold is_correct. rewrite strip_map by done. rewrite nonempty_map.
  set (ua := strip user_answer).
  rewrite !grade_option_eqb, upper_map.
  assert (grade_value (map f ua) qa false = grade_value ua qa false) as ->.
  { unfold grade_value, grade_csv, grade_exact.
    rewrite contains_comma_map, normalize_map by done.
    rewrite (_split_csv_list_map f) by done.
    change (map (map f) (_split_csv_list ua)) with (map f <$> _split_csv_list ua).
    rewrite <- list_fmap_compose.
    by rewrite (list_fmap_ext (normalize ∘ map f) normalize _
                  (fun _ x _ => normalize_map x)). }
  unfold grade_fallback. by rewrite normalize_map.
Qed.

End CaseChange.

(** X10. Case-insensitive grading does not see the case of an ASCII user
    answer: the answer in uppercase and the answer in lowercase get the
    verdict of the answer as typed. (Above 127 Python's [upper] can change
    the number of characters of the answer, which the model does not
    follow: the answer is taken in the range that it covers.) *)
Theorem is_correct_ignores_case user_answer qa :
  Forall (fun c => is_ascii c = true) user_answer ->
  is_correct (upper user_answer) qa false = is_correct user_answer qa false
  /\ is_correct (lower user_answer) qa false = is_correct user_answer qa false.
Proof.
  intros _. split.
  - apply (is_correct_map upper_char); intros; try apply upper_char_facts; done.
  - apply (is_correct_map lower_char); intros; try apply lower_char_facts; done.
Qed.

Lemma is_correct_ignores_case_witness :
  Forall (fun c => is_ascii c = true) (py "Red, blue")
  /\ is_correct (upper (py "Red, blue")) Examples.colours false
     = is_correct (py "Red, blue") Examples.colours false
  /\ is_correct (lower (py "Red, blue")) Examples.colours false
     = is_correct (py "Red, blue") Examples.colours false.
Proof.
  assert (Forall (fun c => is_ascii c = true) (py "Red, blue")) as H
    by (by repeat constructor).
  split; [exact H|]. exact (is_correct_ignores_case _ Examples.colours H).
Defined.

(** *** normalize *)

Lemma sub_ws_go_idemp in_run s :
  sub_ws_go in_run (sub_ws_go in_run s) = sub_ws_go in_run s.
Proof.
  revert in_run. induction s as [|c s IH]; intros in_run; simpl; [done|].
  destruct (isspace c) eqn:E.
  - destruct in_run; [apply IH|]. simpl. by rewrite IH.
  - simpl. by rewrite E, IH.
Qed.

Lemma last_sub_ws_go in_run s c :
  last s = Some c -> isspace c = false -> last (sub_ws_go in_run s) = Some c.
Proof.
  intros Hl Hc. revert in_run. induction s as [|x s IH]; intros in_run; [done|].
  rewrite last_cons in Hl. destruct (last s) as [z|] eqn:Hz.
  - injection Hl as ->. specialize (IH eq_refl).
    assert (forall z l, last l = Some c -> last (z :: l) = Some c) as Hcons.
    { intros z l Hlast. by rewrite last_cons, Hlast. }
    simpl. destruct (isspace x), in_run; try apply Hcons; apply IH.
  - injection Hl as ->. apply last_None in Hz as ->. simpl. by rewrite Hc.
Qed.

Lemma sub_ws_spaces in_run s :
  Forall (fun c => isspace c = true -> c = " "%char) (sub_ws_go in_run s).
Proof.
  revert in_run. induction s as [|c s IH]; intros in_run; simpl; [done|].
  destruct (isspace c) eqn:E.
  - destruct in_run; [apply IH|]. constructor; [done|apply IH].
  - constructor; [congruence|apply IH].
Qed.

Lemma strip_sub_ws_strip s : strip (sub_ws (strip s)) = sub_ws (strip s).
Proof.
  destruct (strip s) as [|x y] eqn:E; [done|].
  assert (isspace x = false) as Hx.
  { apply (proj1 (strip_by_clean isspace s x)). unfold strip in E. by rewrite E. }
  apply strip_by_id.
  - intros c. unfold sub_ws. simpl. rewrite Hx. by intros [= <-].
  - intros c Hc.
    destruct (last (x :: y)) as [z|] eqn:Hz; [|by apply last_None in Hz].
    assert (isspace z = false) as Hzs.
    { apply (proj2 (strip_by_clean isspace s z)). unfold strip in E. by rewrite E. }
    unfold sub_ws in Hc.
    rewrite (last_sub_ws_go false (x :: y) z Hz Hzs) in Hc. by injection Hc as <-.
Qed.

(** X11. [normalize] is idempotent, and what it returns holds no uppercase
    letter and no whitespace character other than the space. *)
Theorem normalize_idempotent s :
  normalize (normalize s) = normalize s
  /\ Forall (fun c => isupper c = false /\ (isspace c = true -> c = " "%char))
            (normalize s).
Proof.
  assert (forall c, isspace (lower_char c) = isspace c) as Hsp
    by (intros c; apply lower_char_facts).
  split.
  - unfold normalize at 1. unfold normalize at 1. unfold lower at 2.
    rewrite (strip_map lower_char Hsp). unfold sub_ws at 1.
    rewrite (sub_ws_go_map lower_char Hsp eq_refl). fold (sub_ws (strip (sub_ws (strip s)))).
    rewrite strip_sub_ws_strip. unfold sub_ws at 1. rewrite sub_ws_go_idemp.
    fold (sub_ws (strip s)). unfold normalize, lower. rewrite map_map.
    apply map_ext. intros c. apply lower_char_facts.
  - unfold normalize, lower, sub_ws.
    change (map lower_char) with (fmap (M:=list) lower_char).
    apply Forall_fmap. eapply Forall_impl; [apply sub_ws_spaces|]. simpl.
    intros c Hc. split; [apply lower_char_facts|].
    rewrite Hsp. intros ->%Hc. done.
Qed.

(** *** The two graders *)

Lemma search_word_contains pat text :
  search_word pat text = true -> contains pat text = true.
Proof.
  intros (pre & post & -> & _)%search_word_spec. apply contains_spec. eauto.
Qed.

(** X12. The grader of the GUI is the stricter one on answers without a
    comma: on a record whose option letter, if any, has no blanks around
    it, every comma-free answer that it accepts is accepted by the grader
    of the command line too. *)
Theorem is_correct_stricter_than_legacy user_answer qa case_sensitive :
  (forall opt, answer_option qa = Some opt -> strip opt = opt) ->
  ","%char ∉ user_answer ->
  is_correct user_answer qa case_sensitive = true ->
  Quiz.is_correct user_answer qa case_sensitive = true.
Proof.
  intros Hopt Hcomma. unfold is_correct, Quiz.is_correct, Quiz.normalize.
  fold (normalize (strip user_answer)).
  fold (normalize (or_empty (answer_value qa))).
  fold (normalize (answer_text qa)).
  rewrite strip_idemp. set (ua := strip user_answer).
  destruct (nonempty ua); simpl; [|done].
  destruct (truthy (answer_option qa)) eqn:Ht; simpl.
  - destruct (answer_option qa) as [opt|]; [|done]. simpl.
    rewrite grade_option_eqb, (Hopt opt eq_refl). by intros ->.
  - assert (contains [","%char] ua = false) as Hc.
    { apply not_true_is_false. rewrite contains_char. unfold ua, strip.
      by rewrite elem_of_strip_by. }
    unfold grade_value. rewrite Hc, andb_false_r. simpl.
    unfold grade_exact, grade_fallback.
    destruct (truthy (answer_value qa)); simpl.
    + destruct case_sensitive.
      * destruct (eqb ua _); [done|]. case_bool_decide; [done|].
        apply search_word_contains.
      * destruct (eqb (normalize ua) _); [done|]. case_bool_decide; [done|].
        apply search_word_contains.
    + destruct case_sensitive; (case_bool_decide; [done|]);
        apply search_word_contains.
Qed.

Lemma is_correct_stricter_than_legacy_witness :
  Quiz.is_correct (py "forwards frames") Examples.switch false = true.
Proof.
  apply (is_correct_stricter_than_legacy (py "forwards frames") Examples.switch false).
  - intros opt. discriminate.
  - apply (bool_decide_unpack _). by vm_compute.
  - reflexivity.
Defined.

End AnswerShape.

(** ** The question marker *)

Section QuestionMarker.

Import BuildDb.

Implicit Types (s r k p w d num total line : str).

Lemma char_classes c :
  (isdigit c = true -> isspace c = false /\ 0 <= digit_val c <= 9)
  /\ (isspace c = true -> isdigit c = false)
  /\ (lower_char c = "o"%char -> isspace c = false)
  /\ (isupper c = true -> isspace c = false).
Proof. destruct c as [[] [] [] [] [] [] [] []]; by vm_compute. Qed.

Lemma istrip_prefix_Some p s r :
  istrip_prefix p s = Some r <-> exists k, s = k ++ r /\ lower k = lower p.
Proof.
  revert s. induction p as [|a p IH]; intros s.
  - simpl. split.
    + intros [= ->]. by exists [].
    + intros (k & -> & Hk). by destruct k.
  - destruct s as [|b s]; simpl.
    + split; [done|]. by intros ([|??] & ? & ?).
    + case_bool_decide as Hab.
      * rewrite IH. split.
        -- intros (k & -> & Hk). exists (b :: k). simpl. by rewrite Hk, Hab.
        -- intros ([|b' k] & E & Hk); [done|]. injection E as <- ->.
           injection Hk as _ Hk. by exists k.
      * split; [done|]. intros ([|b' k] & E & Hk); [done|].
        injection E as <- ->. injection Hk as Hb _. by destruct Hab.
Qed.

Lemma re_spaces_Some s r :
  re_spaces s = Some r <->
  exists w, s = w ++ r /\ w <> [] /\ Forall (fun c => isspace c = true) w
            /\ (forall c, head r = Some c -> isspace c = false).
Proof.
  unfold re_spaces, lstrip. split.
  - destruct s as [|c s]; [done|]. destruct (isspace c) eqn:Hc; [|done].
    intros [= <-]. destruct (lstrip_by_suffix isspace (c :: s)) as (w & E & Hw).
    exists w. split_and!; [done| |done|].
    + intros ->. rewrite app_nil_l in E.
      pose proof (head_lstrip_by isspace (c :: s) c) as Hh.
      rewrite <- E in Hh. specialize (Hh eq_refl). congruence.
    + intros x. apply (head_lstrip_by isspace (c :: s)).
  - intros (w & -> & Hne & Hw & Hr). destruct w as [|c w]; [done|].
    apply Forall_cons in Hw as [Hc Hw]. simpl. rewrite Hc. f_equal.
    rewrite lstrip_by_app_l by done. by apply lstrip_by_id.
Qed.

Lemma span_digits_spec s d r :
  span_digits s = (d, r) <->
  s = d ++ r /\ Forall (fun c => isdigit c = true) d
  /\ (forall c, head r = Some c -> isdigit c = false).
Proof.
  revert d r. induction s as [|c s IH]; intros d r; simpl.
  - split.
    + by intros [= <- <-].
    + intros (E & _ & _). symmetry in E. by apply app_eq_nil in E as [-> ->].
  - destruct (isdigit c) eqn:Hc.
    + destruct (span_digits s) as [d' r'] eqn:Es.
      destruct (proj1 (IH d' r') eq_refl) as (-> & Hd' & Hr').
      split.
      * intros [= <- <-]. split_and!; [done|by constructor|done].
      * intros (E & Hd & Hr). destruct d as [|x d].
        -- simpl in E. subst r. specialize (Hr c eq_refl). congruence.
        -- injection E as <- E. apply Forall_cons in Hd as [_ Hd].
           assert ((d', r') = (d, r)) as Hs by (by apply IH).
           by injection Hs as -> ->.
    + split.
      * intros [= <- <-]. split_and!; [done|done|]. by intros x [= <-].
      * intros (E & Hd & Hr). destruct d as [|x d].
        -- simpl in E. by subst.
        -- injection E as <- E. apply Forall_cons in Hd as [Hx _]. congruence.
Qed.

Lemma re_digits_Some s d r :
  re_digits s = Some (d, r) <->
  s = d ++ r /\ d <> [] /\ Forall (fun c => isdigit c = true) d
  /\ (forall c, head r = Some c -> isdigit c = false).
Proof.
  unfold re_digits. destruct (span_digits s) as [d' r'] eqn:E.
  apply span_digits_spec in E as (-> & Hd' & Hr'). split.
  - destruct d' as [|x d']; [done|]. intros [= <- <-]. by split_and!.
  - intros (E & Hne & Hd & Hr).
    assert (span_digits (d' ++ r') = (d, r)) as Hs by by apply span_digits_spec.
    assert (span_digits (d' ++ r') = (d', r')) as Hs' by by apply span_digits_spec.
    rewrite Hs in Hs'. injection Hs' as <- <-. by destruct d.
Qed.

Lemma int_snoc d c : int (d ++ [c]) = 10 * int d + digit_val c.
Proof. unfold int. by rewrite fold_left_app. Qed.

Lemma int_nonneg d : Forall (fun c => isdigit c = true) d -> 0 <= int d.
Proof.
  induction d as [|c d IH] using rev_ind; [done|].
  intros Hf. apply Forall_app in Hf as [Hd Hc]. apply Forall_cons in Hc as [Hc _].
  rewrite int_snoc. destruct (proj1 (char_classes c) Hc) as [_ Hv].
  specialize (IH Hd). lia.
Qed.

(** What the marker pattern accepts. *)
Lemma Q_MARKER_RE_shape s num total :
  Q_MARKER_RE s = Some (num, total) -> Spec.question_marker s num total.
Proof.
  unfold Q_MARKER_RE. intros Hm.
  apply bind_Some in Hm as (s1 & E1 & Hm).
  apply istrip_prefix_Some in E1 as (kw1 & -> & Hkw1).
  apply bind_Some in Hm as (s2 & E2 & Hm).
  apply re_spaces_Some in E2 as (w1 & -> & Hw1 & Hs1 & _).
  apply bind_Some in Hm as ([n s3] & E3 & Hm).
  apply re_digits_Some in E3 as (-> & Hn & Hdn & _).
  apply bind_Some in Hm as (s4 & E4 & Hm).
  apply re_spaces_Some in E4 as (w2 & -> & Hw2 & Hs2 & _).
  apply bind_Some in Hm as (s5 & E5 & Hm).
  apply istrip_prefix_Some in E5 as (kw2 & -> & Hkw2).
  apply bind_Some in Hm as (s6 & E6 & Hm).
  apply re_spaces_Some in E6 as (w3 & -> & Hw3 & Hs3 & _).
  apply bind_Some in Hm as ([t s7] & E7 & Hm).
  apply re_digits_Some in E7 as (-> & Ht & Hdt & _).
  destruct (nonempty (lstrip s7)) eqn:E8; [done|].
  injection Hm as -> ->.
  exists kw1, w1, w2, kw2, w3, s7. split_and!; try done.
  - rewrite !Forall_app. split_and!; try done.
    destruct (lstrip_by_suffix isspace s7) as (a & Ea & Ha).
    apply nonempty_false in E8. unfold lstrip in E8.
    rewrite E8, app_nil_r in Ea. by subst.
  - by apply Forall_app.
Qed.

Lemma Q_MARKER_RE_accepts s num total :
  Spec.question_marker s num total -> Q_MARKER_RE s = Some (num, total).
Proof.
  intros (kw1 & w1 & w2 & kw2 & w3 & w4 & -> & Hkw1 & Hkw2 & Hw1 & Hw2 & Hw3
          & Hws & Hn & Ht & Hd).
  rewrite !Forall_app in Hws. destruct Hws as (Hs1 & Hs2 & Hs3 & Hs4).
  apply Forall_app in Hd as [Hdn Hdt].
  assert (forall (d : str) rest c, d <> [] -> Forall (fun c => isdigit c = true) d ->
            head (d ++ rest) = Some c -> isspace c = false) as Hdigit.
  { intros [|x d] rest c Hne Hfd; [done|]. intros [= <-].
    apply Forall_cons in Hfd as [Hx _]. by destruct (proj1 (char_classes x) Hx). }
  assert (forall (w : str) rest c, w <> [] -> Forall (fun c => isspace c = true) w ->
            head (w ++ rest) = Some c -> isdigit c = false) as Hblank.
  { intros [|x w] rest c Hne Hfw; [done|]. intros [= <-].
    apply Forall_cons in Hfw as [Hx _].
    by apply (proj1 (proj2 (char_classes x))). }
  unfold Q_MARKER_RE.
  apply bind_Some. eexists. split; [apply istrip_prefix_Some; eauto|].
  apply bind_Some. eexists. split.
  { apply re_spaces_Some. exists w1. split_and!; [done..|].
    intros c Hc. by eapply (Hdigit num). }
  apply bind_Some. exists (num, w2 ++ kw2 ++ w3 ++ total ++ w4). split.
  { apply re_digits_Some. split_and!; [done..|].
    intros c Hc. by eapply (Hblank w2). }
  apply bind_Some. eexists. split.
  { apply re_spaces_Some. exists w2. split_and!; [done..|]. intros c Hc.
    destruct kw2 as [|x kw2]; [done|]. injection Hc as <-.
    injection Hkw2 as Hx _.
    by apply (proj1 (proj2 (proj2 (char_classes x)))). }
  apply bind_Some. eexists. split; [apply istrip_prefix_Some; eauto|].
  apply bind_Some. eexists. split.
  { apply re_spaces_Some. exists w3. split_and!; [done..|].
    intros c Hc. by eapply (Hdigit total). }
  apply bind_Some. exists (total, w4). split.
  { apply re_digits_Some. split_and!; [done..|]. intros c Hc.
    destruct w4 as [|x w4]; [done|].
    injection Hc as <-. apply Forall_cons in Hs4 as [Hx _].
    by apply (proj1 (proj2 (char_classes x))). }
  unfold lstrip. by rewrite lstrip_by_all.
Qed.

Lemma Q_MARKER_RE_nonneg s num total :
  Q_MARKER_RE s = Some (num, total) -> 0 <= int num.
Proof.
  intros (? & ? & ? & ? & ? & ? & _ & _ & _ & _ & _ & _ & _ & _ & _ & Hd)%Q_MARKER_RE_shape.
  apply int_nonneg. by apply Forall_app in Hd as [? _].
Qed.

(** X13. The marker pattern accepts exactly the lines made of the word
    "question" in any case, whitespace, digits, whitespace, the word "of"
    in any case, whitespace, digits and optional trailing whitespace, and
    its two groups are the two digit strings; the number read from the
    first group is never negative. *)
Theorem Q_MARKER_RE_spec s num total :
  (Q_MARKER_RE s = Some (num, total) <-> Spec.question_marker s num total)
  /\ (Q_MARKER_RE s = Some (num, total) -> 0 <= int num).
Proof.
  split; [split; [apply Q_MARKER_RE_shape|apply Q_MARKER_RE_accepts]|].
  apply Q_MARKER_RE_nonneg.
Qed.

End QuestionMarker.

Section QuestionMarkerRuns.

Import BuildDb.

Lemma Q_MARKER_RE_spec_witness :
  (Q_MARKER_RE (py "QUESTION  12 of	340 ") = Some (py "12", py "340")
   <-> Spec.question_marker (py "QUESTION  12 of	340 ") (py "12") (py "340"))
  /\ (Q_MARKER_RE (py "QUESTION  12 of	340 ") = Some (py "12", py "340")
      -> 0 <= int (py "12")).
Proof. exact (Q_MARKER_RE_spec (py "QUESTION  12 of	340 ") (py "12") (py "340")). Defined.

End QuestionMarkerRuns.

(** ** The records of a document *)

Section Records.

Import BuildDb Blocks.

Implicit Types (texts paras block body junk a_lines : list str) (t line : str)
  (rec : question).

Lemma parse_docx_elem texts rec :
  rec ∈ records_of texts ->
  exists block, block ∈ blocks_of (rstrip <$> texts) /\ record_of block = Some rec.
Proof. rewrite parse_docx_blocks. by intros ?%list_elem_of_omap. Qed.

(** Everything a record is made of. *)
Lemma parse_block_inv block rec :
  record_of block = Some rec ->
  exists b0 body num total a_lines,
    block = b0 :: body
    /\ Q_MARKER_RE (strip b0) = Some (num, total)
    /\ qnum rec = int num
    /\ (exists q_lines, question_text rec = joined_text q_lines)
    /\ answer_text rec = joined_text a_lines
    /\ (answer_value rec, answer_option rec) = derive_keys a_lines.
Proof.
  unfold record_of. destruct block as [|b0 body]; [done|].
  destruct (Q_MARKER_RE (strip b0)) as [[num total]|] eqn:Em; [|done].
  destruct (first_index (contains marker) (b0 :: body)) as [ans_idx|]; [|done].
  intros [= <-]. simpl.
  exists b0, body, num, total. eexists. split_and!; [done..|by eexists|done|].
  by destruct (derive_keys _).
Qed.

Lemma joined_text_clean lines c :
  (head (joined_text lines) = Some c -> c <> LF)
  /\ (last (joined_text lines) = Some c -> c <> LF).
Proof.
  unfold joined_text, strip_chars.
  destruct (strip_by_clean (fun c => bool_decide (c ∈ [LF])) (join [LF] lines) c)
    as [Hh Hl].
  split; intros Hc ->.
  - apply Hh in Hc. apply bool_decide_eq_false in Hc. apply Hc, list_elem_of_here.
  - apply Hl in Hc. apply bool_decide_eq_false in Hc. apply Hc, list_elem_of_here.
Qed.

(** X14. Every record that [parse_docx] returns has a qnum that is not
    negative, and neither its question_text nor its answer_text starts or
    ends with a newline. *)
Theorem parse_docx_records texts records rec :
  parse_docx texts = inr records -> rec ∈ records ->
  0 <= qnum rec
  /\ head (question_text rec) <> Some LF /\ last (question_text rec) <> Some LF
  /\ head (answer_text rec) <> Some LF /\ last (answer_text rec) <> Some LF.
Proof.
  intros [_ ->]%parse_docx_returns (block & _ & Hb)%parse_docx_elem.
  apply parse_block_inv in Hb
    as (b0 & body & num & total & a_lines & _ & Hm & -> & [q_lines ->] & -> & _).
  split_and!.
  - by eapply Q_MARKER_RE_nonneg.
  - intros Hc. by apply (proj1 (joined_text_clean q_lines LF)).
  - intros Hc. by apply (proj2 (joined_text_clean q_lines LF)).
  - intros Hc. by apply (proj1 (joined_text_clean a_lines LF)).
  - intros Hc. by apply (proj2 (joined_text_clean a_lines LF)).
Qed.

Lemma marker_number_rstrip texts :
  omap Spec.marker_number (rstrip <$> texts) = omap Spec.marker_number texts.
Proof.
  induction texts as [|t texts IH]; [done|]. rewrite fmap_cons.
  cbn [omap list_omap]. rewrite IH.
  assert (Spec.marker_number (rstrip t) = Spec.marker_number t) as ->; [|done].
  unfold Spec.marker_number. by rewrite strip_rstrip.
Qed.

Lemma is_q_marker_number t :
  (is_q_marker t = true -> exists num total,
      Q_MARKER_RE (strip t) = Some (num, total)
      /\ Spec.marker_number t = Some (int num))
  /\ (is_q_marker t = false -> Spec.marker_number t = None).
Proof.
  unfold is_q_marker, Spec.marker_number. split.
  - rewrite bool_decide_eq_true. intros [[num total] Hm]. exists num, total.
    by rewrite Hm.
  - rewrite bool_decide_eq_false. intros Hn.
    destruct (Q_MARKER_RE (strip t)); [|done]. destruct Hn. by eexists.
Qed.

Lemma parse_block_qnum b0 body rec num total :
  Q_MARKER_RE (strip b0) = Some (num, total) ->
  record_of (b0 :: body) = Some rec -> qnum rec = int num.
Proof.
  intros Hm (b0' & body' & num' & total' & a_lines & [= <- <-] & Hm' & -> & _)%parse_block_inv.
  congruence.
Qed.

(** X15. The question numbers of the records that [parse_docx] returns
    are, in the same order, numbers that the question-marker paragraphs of
    the document announce: a sub-sequence of them. No record is made up,
    and none changes place. *)
Theorem parse_docx_qnums_in_order texts records :
  parse_docx texts = inr records ->
  qnum <$> records `sublist_of` omap Spec.marker_number texts.
Proof.
  intros [_ ->]%parse_docx_returns.
  rewrite parse_docx_blocks, <- marker_number_rstrip.
  induction (rstrip <$> texts) as [|t paras IH]; [done|].
  cbn [blocks_of omap list_omap].
  destruct (is_q_marker t) eqn:E.
  - apply is_q_marker_number in E as (num & total & Hm & ->).
    cbn [omap list_omap].
    destruct (record_of (t :: until_marker paras)) as [rec|] eqn:Hb.
    + rewrite fmap_cons, (parse_block_qnum _ _ _ _ _ Hm Hb). by apply sublist_skip.
    + by apply sublist_cons.
  - apply is_q_marker_number in E as ->. exact IH.
Qed.

(** X16. When every question number of the document converts (none has
    more than 4300 digits) and every question block holds the answer
    marker, [parse_docx] returns and no question is lost: the question
    numbers of the records are exactly the numbers that the
    question-marker paragraphs announce, in document order. *)
Theorem parse_docx_qnums_complete texts :
  Spec.numbers_convert texts ->
  Forall (Exists (fun line => contains marker line = true))
         (blocks_of (rstrip <$> texts)) ->
  exists records,
    parse_docx texts = inr records
    /\ qnum <$> records = omap Spec.marker_number texts.
Proof.
  intros Hok Hblocks. exists (records_of texts).
  split; [by apply parse_docx_converts|]. revert Hblocks.
  rewrite parse_docx_blocks, <- marker_number_rstrip.
  induction (rstrip <$> texts) as [|t paras IH]; [done|].
  cbn [blocks_of omap list_omap].
  destruct (is_q_marker t) eqn:E.
  - intros [Hans Hrest]%Forall_cons.
    destruct (parse_block_is_Some t (until_marker paras) E Hans) as [rec Hb].
    apply is_q_marker_number in E as (num & total & Hm & ->).
    cbn [omap list_omap]. rewrite Hb, fmap_cons, (parse_block_qnum _ _ _ _ _ Hm Hb).
    by rewrite IH.
  - apply is_q_marker_number in E as ->. exact IH.
Qed.

(** X17. Paragraphs in front of the first question marker belong to no
    question: a document parses as it does without them. *)
Theorem parse_docx_ignores_preamble junk texts :
  Forall (fun t => is_q_marker t = false) junk ->
  parse_docx (junk ++ texts) = parse_docx texts.
Proof.
  intros Hj.
  assert (blocks_of (rstrip <$> junk ++ texts) = blocks_of (rstrip <$> texts)) as E.
  { rewrite fmap_app. induction Hj as [|t junk Ht _ IH]; [done|].
    cbn [fmap list_fmap app blocks_of]. by rewrite is_q_marker_rstrip, Ht. }
  rewrite !parse_docx_view. unfold records_of. by rewrite E.
Qed.

End Records.

Section RecordsRuns.

Import BuildDb Blocks Examples.

Lemma parse_docx_qnums_in_order_witness :
  exists records,
    parse_docx (doc_before ++ doc_no_answer ++ doc_after) = inr records
    /\ qnum <$> records
       `sublist_of` omap Spec.marker_number (doc_before ++ doc_no_answer ++ doc_after).
Proof.
  assert (exists records,
            parse_docx (doc_before ++ doc_no_answer ++ doc_after) = inr records)
    as [records H] by (eexists; by vm_compute).
  exists records. split; [exact H|]. exact (parse_docx_qnums_in_order _ _ H).
Defined.

Lemma parse_docx_qnums_complete_witness :
  Spec.numbers_convert (doc_before ++ doc_after)
  /\ Forall (Exists (fun line => contains marker line = true))
            (blocks_of (rstrip <$> doc_before ++ doc_after))
  /\ exists records,
       parse_docx (doc_before ++ doc_after) = inr records
       /\ qnum <$> records = omap Spec.marker_number (doc_before ++ doc_after).
Proof.
  assert (Spec.numbers_convert (doc_before ++ doc_after)) as H0.
  { apply numbers_convert_blocks. by vm_compute. }
  assert (Forall (Exists (fun line => contains marker line = true))
                 (blocks_of (rstrip <$> doc_before ++ doc_after))) as H.
  { apply (bool_decide_unpack _). by vm_compute. }
  split; [exact H0|]. split; [exact H|]. exact (parse_docx_qnums_complete _ H0 H).
Defined.

Lemma parse_docx_ignores_preamble_witness :
  Forall (fun t => is_q_marker t = false) (lines ["Study questions"; ""])
  /\ parse_docx (lines ["Study questions"; ""] ++ doc_after) = parse_docx doc_after.
Proof.
  assert (Forall (fun t => is_q_marker t = false) (lines ["Study questions"; ""])) as H.
  { repeat constructor. }
  split; [exact H|]. exact (parse_docx_ignores_preamble _ doc_after H).
Defined.

End RecordsRuns.

(** ** The derived grading keys *)

Section DerivedKeys.

Import BuildDb Blocks.

Implicit Types (texts a_lines : list str) (l g rest value : str) (rec : question).

Lemma re_paren_inner inner rest g1 g2 :
  re_paren inner rest = Some (g1, g2) -> inner g2 = true.
Proof.
  unfold re_paren. destruct (reverse rest) as [|c body_rev]; [done|].
  destruct c as [[] [] [] [] [] [] [] []]; try done.
  destruct (last _) as [[before g]|] eqn:El; [|done].
  intros [= _ <-]. apply last_Some_elem_of in El.
  apply list_elem_of_In, List.filter_In in El as [_ HP].
  by apply andb_true_iff in HP as [_ ?].
Qed.

Lemma one_upper_spec g : one_upper g = true <-> exists c, g = [c] /\ isupper c = true.
Proof.
  unfold one_upper. split.
  - destruct g as [|c [|]]; [done| |done]. intros Hc. by exists c.
  - by intros (c & -> & Hc).
Qed.

Lemma strip_letter c : isupper c = true -> strip [c] = [c].
Proof.
  intros Hc. apply strip_by_id; intros x [= <-]; by apply char_classes.
Qed.

(** The shape of the keys, whatever the answer lines. *)
Lemma derive_keys_shape a_lines :
  (forall opt, (derive_keys a_lines).2 = Some opt ->
     (exists c, opt = [c] /\ isupper c = true) /\ is_Some (derive_keys a_lines).1)
  /\ (forall value, (derive_keys a_lines).1 = Some value -> strip value = value).
Proof.
  induction a_lines as [|l more IH]; [done|]. cbn [derive_keys].
  destruct (search_correct_answer (strip l)) as [g|]; [|exact IH].
  destruct (re_paren one_upper (strip g)) as [[g1 g2]|] eqn:E1.
  - apply re_paren_inner, one_upper_spec in E1 as (c & -> & Hc). simpl. split.
    + intros opt [= <-]. rewrite strip_letter by done. split; by eexists.
    + intros value [= <-]. apply strip_idemp.
  - clear E1.
    destruct (re_paren _ (strip g)) as [[g1 g2]|]; simpl; (split; [done|]).
    + intros value [= <-]. destruct (eqb _ _); apply strip_idemp.
    + intros value [= <-]. apply strip_idemp.
Qed.

Lemma parse_docx_keys texts rec :
  rec ∈ records_of texts ->
  exists a_lines,
    answer_text rec = joined_text a_lines
    /\ answer_value rec = (derive_keys a_lines).1
    /\ answer_option rec = (derive_keys a_lines).2.
Proof.
  intros (block & _ & Hb)%parse_docx_elem.
  apply parse_block_inv in Hb
    as (b0 & body & num & total & a_lines & _ & _ & _ & _ & Ha & Hk).
  exists a_lines. rewrite <- Hk. done.
Qed.

(** X18. In every record that [parse_docx] returns, a derived
    answer_option is one uppercase letter and comes with an answer_value,
    and a derived answer_value has no whitespace at either end. *)
Theorem parse_docx_derived_keys texts records rec :
  parse_docx texts = inr records -> rec ∈ records ->
  (forall opt, answer_option rec = Some opt ->
     (exists c, opt = [c] /\ isupper c = true) /\ is_Some (answer_value rec))
  /\ (forall value, answer_value rec = Some value -> strip value = value).
Proof.
  intros [_ ->]%parse_docx_returns (a_lines & _ & -> & ->)%parse_docx_keys.
  apply derive_keys_shape.
Qed.

(** X19. The parser and the grader fit together: on a record that
    [parse_docx] returns and that carries an option letter, the GUI grader
    accepts an answer exactly when its trimmed, uppercased form is that
    letter. *)
Theorem parse_docx_option_graded texts records rec opt user_answer case_sensitive :
  parse_docx texts = inr records -> rec ∈ records ->
  answer_option rec = Some opt ->
  QuizCore.is_correct user_answer (QuizCore.QA_of_row rec) case_sensitive = true
  <-> upper (strip user_answer) = opt.
Proof.
  intros [_ ->]%parse_docx_returns (a_lines & _ & _ & Hk)%parse_docx_keys Ho.
  rewrite Hk in Ho.
  destruct (proj1 (derive_keys_shape a_lines) opt Ho) as [(c & -> & Hc) _].
  rewrite <- Hk in Ho.
  rewrite (is_correct_option_letter_trimmed _ _ _ [c]).
  - unfold upper at 2. simpl. unfold upper_char.
    assert (islower c = false) as ->; [|done].
    clear -Hc. destruct c as [[] [] [] [] [] [] [] []]; by vm_compute in Hc |- *.
  - done.
  - done.
  - by apply strip_letter.
Qed.

(** An occurrence whose ends are not stripped survives stripping. *)
Lemma infix_lstrip_by {A} (p : A -> bool) (s b : list A) x (tail : list A) :
  s = b ++ x :: tail -> p x = false ->
  exists b', lstrip_by p s = b' ++ x :: tail.
Proof.
  intros -> Hx. induction b as [|c b [b' IH]]; simpl.
  - rewrite Hx. by exists [].
  - destruct (p c); [by exists b'|]. by exists (c :: b).
Qed.

Lemma infix_rstrip_by {A} (p : A -> bool) (s front : list A) y (a : list A) :
  s = front ++ y :: a -> p y = false ->
  exists a', rstrip_by p s = front ++ y :: a'.
Proof.
  intros -> Hy. unfold rstrip_by.
  destruct (infix_lstrip_by p (reverse (front ++ y :: a)) (reverse a) y (reverse front))
    as [b' ->]; [|done|].
  - by rewrite reverse_app, reverse_cons, <- app_assoc.
  - exists (reverse b').
    by rewrite reverse_app, reverse_cons, reverse_involutive, <- app_assoc.
Qed.

Lemma contains_strip_by (p : ascii -> bool) x mid y s :
  p x = false -> p y = false ->
  contains (x :: mid ++ [y]) s = true ->
  contains (x :: mid ++ [y]) (strip_by p s) = true.
Proof.
  intros Hx Hy. rewrite !contains_spec. intros (b & a & ->). unfold strip_by.
  destruct (infix_lstrip_by p (b ++ (x :: mid ++ [y]) ++ a) b x (mid ++ [y] ++ a))
    as [b' ->]; [simpl; by rewrite <- ?app_assoc|done|].
  destruct (infix_rstrip_by p (b' ++ x :: mid ++ [y] ++ a) (b' ++ x :: mid) y a)
    as [a' ->]; [simpl; by rewrite <- ?app_assoc|done|].
  exists b', a'. simpl. by rewrite <- ?app_assoc.
Qed.

Lemma contains_app sub a s b :
  contains sub s = true -> contains sub (a ++ s ++ b) = true.
Proof.
  rewrite !contains_spec. intros (x & y & ->). exists (a ++ x), (y ++ b).
  by rewrite <- !app_assoc.
Qed.

Lemma elem_of_join sep l lines :
  l ∈ lines -> exists a b, join sep lines = a ++ l ++ b.
Proof.
  induction lines as [|p lines IH]; [by intros ?%elem_of_nil|].
  destruct lines as [|p' lines].
  - intros ->%list_elem_of_singleton. exists [], []. by rewrite app_nil_r.
  - rewrite join_cons by done. intros [->|Hin]%elem_of_cons.
    + by exists [], (sep ++ join sep (p' :: lines)).
    + destruct (IH Hin) as (a & b & ->). exists (p ++ sep ++ a), b.
      by rewrite <- !app_assoc.
Qed.

Lemma strip_by_map {A B} (f : A -> B) (p : A -> bool) (q : B -> bool) (s : list A) :
  (forall c, q (f c) = p c) -> strip_by q (f <$> s) = f <$> strip_by p s.
Proof.
  intros Hq.
  assert (forall s, lstrip_by q (f <$> s) = f <$> lstrip_by p s) as Hl.
  { intros s'. induction s' as [|c s' IH]; [done|]. rewrite fmap_cons. simpl.
    rewrite Hq. by destruct (p c). }
  unfold strip_by, rstrip_by. by rewrite Hl, <- fmap_reverse, Hl, fmap_reverse.
Qed.

Local Abbreviation phrase := (py "the correct answer is").

Lemma search_correct_answer_unfold l2 :
  search_correct_answer l2
  = match (rem ← istrip_prefix phrase l2;
           g ← re_spaces rem;
           if has_LF g then None else Some g) with
    | Some g => Some g
    | None => match l2 with [] => None | _ :: t => search_correct_answer t end
    end.
Proof. by destruct l2. Qed.

Lemma search_correct_answer_contains l2 g :
  search_correct_answer l2 = Some g -> contains phrase (lower l2) = true.
Proof.
  induction l2 as [|c l2 IH]; rewrite search_correct_answer_unfold.
  - destruct (istrip_prefix phrase []) as [rem|] eqn:E; [|done].
    by apply istrip_prefix_Some in E as ([|??] & ? & ?).
  - destruct (istrip_prefix phrase (c :: l2)) as [rem|] eqn:E.
    + intros _. apply istrip_prefix_Some in E as (k & -> & Hk).
      apply contains_spec. exists [], (lower rem). unfold lower in *.
      by rewrite map_app, Hk.
    + simpl. intros H%IH. apply contains_spec in H as (b & a & H).
      apply contains_spec. exists (lower_char c :: b), a. simpl. by rewrite H.
Qed.

Lemma lower_strip_newlines s :
  lower (strip_chars [LF] s) = strip_chars [LF] (lower s).
Proof.
  unfold strip_chars, lower. symmetry. apply (strip_by_map lower_char).
  intros c. destruct c as [[] [] [] [] [] [] [] []]; by vm_compute.
Qed.

Lemma derive_keys_no_phrase a_lines :
  contains phrase (lower (joined_text a_lines)) = false ->
  derive_keys a_lines = (None, None).
Proof.
  intros Hno.
  assert (forall l, l ∈ a_lines -> search_correct_answer (strip l) = None) as Hall.
  { intros l Hl. destruct (search_correct_answer (strip l)) as [g|] eqn:E; [|done].
    apply search_correct_answer_contains in E.
    destruct (strip_by_decompose isspace l) as (a & b & Heq & _ & _).
    apply (contains_app _ (lower a) _ (lower b)) in E.
    unfold lower in E. rewrite <- !map_app in E. fold (strip l) in Heq.
    rewrite <- Heq in E. fold (lower l) in E.
    destruct (elem_of_join [LF] l a_lines Hl) as (x & y & Hj).
    apply (contains_app _ (lower x) _ (lower y)) in E.
    unfold lower in E. rewrite <- !map_app, <- Hj in E. fold (lower (join [LF] a_lines)) in E.
    apply (contains_strip_by (fun c => bool_decide (c ∈ [LF]))
             "t"%char (py "he correct answer i") "s"%char) in E; [|done..].
    unfold joined_text in Hno. rewrite lower_strip_newlines in Hno.
    unfold strip_chars in Hno.
    change ("t"%char :: py "he correct answer i" ++ ["s"%char]) with phrase in E.
    congruence. }
  clear Hno. induction a_lines as [|l more IH]; [done|]. cbn [derive_keys].
  rewrite Hall by apply list_elem_of_here. apply IH.
  intros l' Hl'. apply Hall. by apply list_elem_of_further.
Qed.

(** X20. A record that [parse_docx] returns and whose answer text does
    not hold the phrase "the correct answer is" (in any letter case) has
    neither an answer_value nor an answer_option. *)
Theorem parse_docx_no_phrase texts records rec :
  parse_docx texts = inr records -> rec ∈ records ->
  contains (py "the correct answer is") (lower (answer_text rec)) = false ->
  answer_value rec = None /\ answer_option rec = None.
Proof.
  intros [_ ->]%parse_docx_returns (a_lines & -> & -> & ->)%parse_docx_keys Hno.
  by rewrite (derive_keys_no_phrase a_lines Hno).
Qed.

Lemma search_correct_answer_None l :
  contains phrase (lower l) = false -> search_correct_answer (strip l) = None.
Proof.
  intros Hno. destruct (search_correct_answer (strip l)) as [g|] eqn:E; [|done].
  apply search_correct_answer_contains in E.
  destruct (strip_by_decompose isspace l) as (a & b & Heq & _ & _).
  apply (contains_app _ (lower a) _ (lower b)) in E.
  unfold lower in E. rewrite <- !map_app in E. fold (strip l) in Heq.
  rewrite <- Heq in E. fold (lower l) in E. congruence.
Qed.

Lemma search_correct_answer_here l2 rem g :
  istrip_prefix phrase l2 = Some rem -> re_spaces rem = Some g -> has_LF g = false ->
  search_correct_answer l2 = Some g.
Proof.
  intros H1 H2 H3. rewrite search_correct_answer_unfold, H1.
  cbn [mbind option_bind]. rewrite H2. cbn [mbind option_bind]. by rewrite H3.
Qed.

Lemma splits_at_nil c s : c ∉ s -> splits_at c s = [].
Proof.
  induction s as [|x s IH]; [done|]. intros [Hx Hs]%not_elem_of_cons. simpl.
  rewrite IH by done. by rewrite bool_decide_eq_false_2 by congruence.
Qed.

(** The last way to split at [c] is at its last occurrence. *)
Lemma splits_at_last c s t :
  c ∉ t ->
  splits_at c (s ++ c :: t)
  = map (fun ba => (ba.1, ba.2 ++ c :: t)) (splits_at c s) ++ [(s, t)].
Proof.
  intros Ht. induction s as [|x s IH]; simpl.
  - by rewrite bool_decide_eq_true_2, splits_at_nil.
  - rewrite IH, !map_app, !map_map. simpl.
    case_bool_decide; simpl; by rewrite <- ?app_assoc.
Qed.

Lemma partition_None c s : c ∉ s -> partition [c] s = None.
Proof.
  intros Hc. destruct (partition [c] s) as [ba|] eqn:E; [|done].
  destruct Hc. apply contains_char. unfold contains. rewrite E.
  by apply bool_decide_eq_true_2.
Qed.

Lemma stripped_head value :
  value <> [] -> strip value = value ->
  exists c rest, value = c :: rest /\ isspace c = false.
Proof.
  intros Hne Hs. destruct value as [|c rest]; [done|]. exists c, rest.
  split; [done|].
  apply (proj1 (strip_by_clean isspace (c :: rest) c)). fold strip. by rewrite Hs.
Qed.

Lemma first_letter_of_phrase c : lower_char c = "t"%char -> isspace c = false.
Proof. destruct c as [[] [] [] [] [] [] [] []]; by vm_compute. Qed.

(** The two regular expressions on a value followed by a letter in
    parentheses. *)
Lemma re_paren_letter value L :
  LF ∉ value -> isupper L = true ->
  re_paren one_upper (value ++ py " (" ++ [L] ++ py ")") = Some (value, [L]).
Proof.
  intros Hno HL. unfold re_paren.
  assert (value ++ py " (" ++ [L] ++ py ")"
          = ((value ++ [" "%char]) ++ "("%char :: [L]) ++ [")"%char]) as ->.
  { simpl. by rewrite <- !app_assoc. }
  rewrite reverse_snoc, reverse_involutive, splits_at_last.
  2:{ intros E%list_elem_of_singleton. rewrite <- E in HL. by vm_compute in HL. }
  rewrite List.filter_app. cbn [List.filter fst snd].
  assert (lead_ok (value ++ [" "%char]) = true) as ->.
  { unfold lead_ok. rewrite last_snoc. cbn [isspace andb].
    assert (isspace " "%char = true) as -> by done. simpl.
    unfold has_LF. rewrite bool_decide_eq_false_2; [done|].
    unfold rstrip. rewrite rstrip_by_app_r by (by repeat constructor).
    destruct (rstrip_by_prefix isspace value) as (b & Heq & _).
    intros Hin. apply Hno. rewrite Heq. set_solver. }
  cbn [one_upper andb]. rewrite HL, last_snoc.
  rewrite partition_None.
  - by rewrite removelast_last.
  - intros [?|Hs]%elem_of_app; [done|].
    by apply list_elem_of_singleton in Hs.
Qed.

(** X21. The first answer line that holds the phrase decides the keys, and
    the usual form is read back: after lines without the phrase, a line
    made of the phrase (in any letter case), a value and an uppercase
    letter in parentheses gives that value and that letter, whatever
    follows. *)
Theorem derive_keys_canonical before_lines after_lines kw value L :
  Forall (fun l => contains (py "the correct answer is") (lower l) = false)
         before_lines ->
  lower kw = py "the correct answer is" ->
  value <> [] -> strip value = value -> LF ∉ value -> isupper L = true ->
  derive_keys (before_lines
               ++ (kw ++ py " " ++ value ++ py " (" ++ [L] ++ py ")") :: after_lines)
  = (Some value, Some [L]).
Proof.
  intros Hbefore Hkw Hne Hs Hno HL.
  induction Hbefore as [|l before_lines Hl _ IH].
  2:{ rewrite <- app_comm_cons. cbn [derive_keys].
      by rewrite search_correct_answer_None. }
  rewrite app_nil_l. cbn [derive_keys].
  set (g := value ++ py " (" ++ [L] ++ py ")").
  destruct (stripped_head value Hne Hs) as (v & vs & Ev & Hv).
  assert (isspace "041"%char = false) as Hclose by done.
  assert (last g = Some "041"%char) as Hlast.
  { unfold g. change (py ")") with [")"%char]. by rewrite !app_assoc, last_snoc. }
  assert (strip g = g) as Hg.
  { apply strip_by_id.
    - unfold g. rewrite Ev. by intros c [= <-].
    - intros c. rewrite Hlast. by intros [= <-]. }
  assert (strip (kw ++ py " " ++ g) = kw ++ py " " ++ g) as ->.
  { apply strip_by_id.
    - destruct kw as [|k kw]; [done|]. intros c [= <-].
      apply first_letter_of_phrase. by injection Hkw.
    - intros c. rewrite !last_app, Hlast. by intros [= <-]. }
  rewrite (search_correct_answer_here _ (py " " ++ g) g).
  - rewrite Hg. unfold g. rewrite re_paren_letter by done.
    by rewrite Hs, strip_letter.
  - apply istrip_prefix_Some. by exists kw.
  - unfold re_spaces. simpl. unfold g, lstrip. rewrite Ev. simpl. by rewrite Hv.
  - unfold has_LF, g. apply bool_decide_eq_false_2.
    intros [?|Hin]%elem_of_app; [done|]. simpl in Hin.
    rewrite !elem_of_cons in Hin.
    destruct Hin as [E|[E|[E|[E|E]]]].
    + by vm_compute in E.
    + by vm_compute in E.
    + rewrite <- E in HL. by vm_compute in HL.
    + by vm_compute in E.
    + by apply elem_of_nil in E.
Qed.

End DerivedKeys.

Section DerivedKeysRuns.

Import BuildDb Blocks Examples.

Lemma rec_q1_parsed : parse_docx doc_before = inr [rec_q1].
Proof. by vm_compute. Qed.

Lemma parse_docx_records_witness :
  parse_docx doc_before = inr [rec_q1] /\ rec_q1 ∈ [rec_q1]
  /\ 0 <= qnum rec_q1
  /\ head (question_text rec_q1) <> Some LF /\ last (question_text rec_q1) <> Some LF
  /\ head (answer_text rec_q1) <> Some LF /\ last (answer_text rec_q1) <> Some LF.
Proof.
  split; [exact rec_q1_parsed|]. split; [apply list_elem_of_here|].
  apply (parse_docx_records doc_before [rec_q1]);
    [exact rec_q1_parsed|apply list_elem_of_here].
Defined.

Lemma parse_docx_derived_keys_witness :
  parse_docx doc_before = inr [rec_q1] /\ rec_q1 ∈ [rec_q1]
  /\ (forall opt, answer_option rec_q1 = Some opt ->
        (exists c, opt = [c] /\ isupper c = true) /\ is_Some (answer_value rec_q1))
  /\ (forall value, answer_value rec_q1 = Some value -> strip value = value).
Proof.
  split; [exact rec_q1_parsed|]. split; [apply list_elem_of_here|].
  apply (parse_docx_derived_keys doc_before [rec_q1]);
    [exact rec_q1_parsed|apply list_elem_of_here].
Defined.

Lemma parse_docx_option_graded_witness :
  parse_docx doc_before = inr [rec_q1] /\ rec_q1 ∈ [rec_q1]
  /\ answer_option rec_q1 = Some (py "B")
  /\ (QuizCore.is_correct (py " b ") (QuizCore.QA_of_row rec_q1) true = true
      <-> upper (strip (py " b ")) = py "B").
Proof.
  split; [exact rec_q1_parsed|]. split; [apply list_elem_of_here|]. split; [done|].
  apply (parse_docx_option_graded doc_before [rec_q1]);
    [exact rec_q1_parsed|apply list_elem_of_here|done].
Defined.

Lemma parse_docx_no_phrase_witness :
  parse_docx (lines ["Question 3 of 9"; "three?"; "[+] Answer>"; "3"])
  = inr [Examples.row 3 "three?" "3"]
  /\ Examples.row 3 "three?" "3" ∈ [Examples.row 3 "three?" "3"]
  /\ contains (py "the correct answer is")
       (lower (answer_text (Examples.row 3 "three?" "3"))) = false
  /\ answer_value (Examples.row 3 "three?" "3") = None
  /\ answer_option (Examples.row 3 "three?" "3") = None.
Proof.
  assert (parse_docx (lines ["Question 3 of 9"; "three?"; "[+] Answer>"; "3"])
          = inr [Examples.row 3 "three?" "3"]) as H by (by vm_compute).
  split; [exact H|]. split; [apply list_elem_of_here|]. split; [done|].
  by apply (parse_docx_no_phrase _ _ _ H); [apply list_elem_of_here|].
Defined.

Lemma derive_keys_canonical_witness :
  Forall (fun l => contains (py "the correct answer is") (lower l) = false)
         (lines ["See RFC 2131."; ""])
  /\ lower (py "The Correct Answer IS") = py "the correct answer is"
  /\ py "Data Link" <> [] /\ strip (py "Data Link") = py "Data Link"
  /\ (LF ∉ py "Data Link") /\ isupper "B"%char = true
  /\ derive_keys (lines ["See RFC 2131."; ""]
                  ++ (py "The Correct Answer IS" ++ py " " ++ py "Data Link"
                      ++ py " (" ++ ["B"%char] ++ py ")")
                  :: lines ["the correct answer is SMB (A)"])
     = (Some (py "Data Link"), Some ["B"%char]).
Proof.
  assert (Forall (fun l => contains (py "the correct answer is") (lower l) = false)
                 (lines ["See RFC 2131."; ""])) as H1 by (by repeat constructor).
  assert (LF ∉ py "Data Link") as H2.
  { apply (bool_decide_unpack _). by vm_compute. }
  split_and!; [exact H1|done|done|done|exact H2|done|].
  by apply (derive_keys_canonical _ _ (py "The Correct Answer IS")).
Defined.

End DerivedKeysRuns.

(** ** The importer as a whole *)

Section Importer.

Import BuildDb Blocks.

Implicit Types (texts paras block : list str) (db : list question).

Lemma no_records paras :
  omap record_of (blocks_of paras) = []
  <-> Forall (Forall (fun line => contains marker line = false)) (blocks_of paras).
Proof.
  induction paras as [|t paras IH]; [done|]. cbn [blocks_of].
  destruct (is_q_marker t) eqn:E; [|exact IH]. cbn [omap list_omap].
  rewrite Forall_cons.
  destruct (record_of (t :: until_marker paras)) as [rec|] eqn:Hb.
  - split; [done|]. intros [Hno _]. apply parse_block_no_answer in Hno. congruence.
  - rewrite IH. split; [|by intros [_ ?]]. intros Hrest. split; [|done].
    destruct (decide (Forall (fun line => contains marker line = false)
                             (t :: until_marker paras))) as [|Hn]; [done|].
    apply not_Forall_Exists in Hn; [|solve_decision].
    destruct (parse_block_is_Some t (until_marker paras) E) as [rec Hrec];
      [|congruence].
    eapply Exists_impl; [exact Hn|]. simpl. intros line Hl.
    by destruct (contains marker line).
Qed.

(** X22. [main] ends with "No questions were parsed" exactly when every
    question number of the document converts (none has more than 4300
    digits) and no question block holds the answer marker, in particular
    when the document has no question marker at all. When a question
    number does not convert, [main] ends with the [ValueError] of the
    conversion instead. *)
Theorem main_no_questions texts db :
  (main (Some texts) db = inl No_questions_were_parsed
   <-> Spec.numbers_convert texts
       /\ Forall (Forall (fun line => contains marker line = false))
                 (blocks_of (rstrip <$> texts)))
  /\ (~ Spec.numbers_convert texts ->
      main (Some texts) db
      = inl (Uncaught ValueError_exceeds_the_limit_for_integer_string_conversion)).
Proof.
  rewrite <- no_records, <- parse_docx_blocks, <- numbers_convert_blocks.
  unfold main. rewrite parse_docx_view.
  destruct (existsb number_raises (blocks_of (rstrip <$> texts))).
  - split; [|done]. split; [done|]. by intros [? _].
  - split; [|by intros []]. case_bool_decide as E.
    + by split.
    + split; [|by intros [_ ?]].
      by destruct (upsert_questions db (records_of texts)) as [db' [e|]].
Qed.

(** X23. Running the importer again on the same document changes nothing:
    when [main] succeeds and leaves the table [db1], a second run on
    [db1] succeeds, reports the same number of questions and leaves
    [db1]. *)
Theorem main_rerun texts db db1 n :
  main (Some texts) db = inr (db1, n) ->
  main (Some texts) db1 = inr (db1, n).
Proof.
  unfold main. destruct (parse_docx texts) as [e|questions]; [done|].
  case_bool_decide; [done|].
  destruct (decide (Forall (fun q => fits_int64 (qnum q) = true) questions))
    as [Hfit|Hfit].
  - rewrite !upsert_questions_commits by done. intros [= <- <-].
    by rewrite upsert_questions_again.
  - by rewrite upsert_questions_rolls_back.
Qed.

End Importer.

Section ImporterRuns.

Import BuildDb Examples.

Lemma main_rerun_witness :
  exists db1,
    main (Some (doc_before ++ doc_no_answer ++ doc_after)) table3 = inr (db1, 2%nat)
    /\ main (Some (doc_before ++ doc_no_answer ++ doc_after)) db1 = inr (db1, 2%nat).
Proof.
  assert (exists db1,
            main (Some (doc_before ++ doc_no_answer ++ doc_after)) table3
            = inr (db1, 2%nat)) as [db1 H] by (eexists; by vm_compute).
  exists db1. split; [exact H|]. exact (main_rerun _ _ _ _ H).
Defined.

(** A document whose second question number has 4301 digits: [main] ends
    with the exception, whatever the table. *)
Lemma main_long_number :
  main (Some (doc_before ++ [py "Question " ++ too_long ++ py " of 3"; py "lost"]))
       table3
  = inl (Uncaught ValueError_exceeds_the_limit_for_integer_string_conversion).
Proof. by vm_compute. Qed.

End ImporterRuns.

(** ** The options of a multiple-choice question *)

Section Options.

Import QuizCore GuiApp.

Implicit Types (lines stem : list str) (line text letter : str) (c : ascii).

Lemma upper_letter c : isupper c = true -> upper [c] = [c].
Proof.
  intros Hc. unfold upper. simpl. unfold upper_char.
  assert (islower c = false) as ->; [|done].
  destruct c as [[] [] [] [] [] [] [] []]; by vm_compute in Hc |- *.
Qed.

Lemma splitlines_line line :
  Forall (fun c => is_linebreak c = false) line ->
  splitlines line = if nonempty line then [line] else [].
Proof.
  induction 1 as [|c line Hc _ IH]; [done|]. simpl. rewrite Hc, IH.
  by destruct line.
Qed.

Lemma splitlines_app_LF line s :
  Forall (fun c => is_linebreak c = false) line ->
  splitlines (line ++ LF :: s) = line :: splitlines s.
Proof.
  induction 1 as [|c line Hc _ IH]; [done|]. simpl. by rewrite Hc, IH.
Qed.

(** Lines joined by newlines are found again, but for empty lines at the
    end, which give nothing when an empty line gives nothing. *)
Lemma omap_splitlines_join {B} (f : str -> option B) lines :
  f [] = None ->
  Forall (Forall (fun c => is_linebreak c = false)) lines ->
  omap f (splitlines (join [LF] lines)) = omap f lines.
Proof.
  intros Hf. induction 1 as [|line lines Hline _ IH]; [done|].
  destruct lines as [|line' lines].
  - simpl. rewrite splitlines_line by done.
    destruct line; simpl; [by rewrite Hf|done].
  - rewrite join_cons by done.
    change ([LF] ++ join [LF] (line' :: lines)) with (LF :: join [LF] (line' :: lines)).
    rewrite splitlines_app_LF by done.
    change (omap f (line :: ?l)) with
      (match f line with Some y => y :: omap f l | None => omap f l end).
    by rewrite IH.
Qed.

Lemma elem_of_lstrip c s : c ∈ lstrip s -> c ∈ s.
Proof.
  destruct (lstrip_by_suffix isspace s) as (a & Heq & _). intros H.
  rewrite Heq. apply elem_of_app. by right.
Qed.

Lemma re_option_line_no_dash line : "-"%char ∉ line -> re_option_line line = None.
Proof.
  intros Hno. unfold re_option_line.
  destruct (lstrip line) as [|l after] eqn:E1; [done|].
  destruct (isupper l); [|done].
  destruct (lstrip after) as [|dash body] eqn:E2; [done|].
  case_bool_decide as Hd; [|done]. destruct Hno. subst dash.
  apply elem_of_lstrip. rewrite E1. apply list_elem_of_further.
  apply elem_of_lstrip. rewrite E2. apply list_elem_of_here.
Qed.

Lemma re_option_text_Some body text :
  re_option_text body = Some text -> text <> [] /\ LF ∉ text.
Proof.
  unfold re_option_text. destruct (nonempty (lstrip body)) eqn:Hb.
  - case_bool_decide as HLF; [done|]. intros [= <-]. split; [|done].
    destruct (lstrip body) as [|x b] eqn:E; [done|].
    assert (isspace x = false) as Hx.
    { apply (head_lstrip_by isspace body). unfold lstrip in E. by rewrite E. }
    intros Hnil.
    assert (head (rstrip (x :: b)) = Some x) as Hh by (by apply head_rstrip_by).
    by rewrite Hnil in Hh.
  - destruct (last _) as [x|] eqn:El; [|done]. intros [= <-]. split; [done|].
    apply last_Some_elem_of, list_elem_of_In, List.filter_In in El as [_ Hx].
    apply negb_true_iff, bool_decide_eq_false in Hx.
    intros E%list_elem_of_singleton. by apply Hx.
Qed.

Lemma re_option_line_Some line c text :
  re_option_line line = Some (c, text) ->
  isupper c = true /\ text <> [] /\ LF ∉ text.
Proof.
  unfold re_option_line.
  destruct (lstrip line) as [|l after]; [done|].
  destruct (isupper l) eqn:Hl; [|done].
  destruct (lstrip after) as [|dash body]; [done|].
  case_bool_decide; [|done].
  intros (text' & Ht & [= <- <-])%fmap_Some.
  split; [done|]. by apply (re_option_text_Some body).
Qed.

Lemma re_option_line_label c text :
  isupper c = true -> text <> [] -> strip text = text -> LF ∉ text ->
  re_option_line (option_label [c] text) = Some (c, text).
Proof.
  intros Hc Hne Hs Hno.
  destruct (stripped_head text Hne Hs) as (v & vs & Ev & Hv).
  assert (lstrip text = text) as Hl by (rewrite Ev; unfold lstrip; simpl; by rewrite Hv).
  assert (rstrip text = text) as Hr.
  { unfold strip, strip_by in Hs. fold lstrip in Hs. by rewrite Hl in Hs. }
  unfold re_option_line, option_label, lstrip. simpl.
  rewrite (proj2 (proj2 (proj2 (char_classes c))) Hc), Hc.
  unfold re_option_text. fold lstrip.
  change (lstrip (" "%char :: "-"%char :: " "%char :: text))
    with ("-"%char :: " "%char :: text).
  cbv beta iota. rewrite bool_decide_eq_true_2 by done.
  change (lstrip (" "%char :: text)) with (lstrip text).
  rewrite Hl, Hr, bool_decide_eq_false_2 by done.
  rewrite Ev at 1. done.
Qed.

Lemma extract_mc_options_elem question_text letter text :
  (letter, text) ∈ extract_mc_options question_text ->
  exists c, letter = [c] /\ isupper c = true /\ text <> [] /\ LF ∉ text.
Proof.
  unfold extract_mc_options.
  intros (line & _ & ([c t] & Hm & [= -> ->])%fmap_Some)%list_elem_of_omap.
  apply re_option_line_Some in Hm as (Hc & Hne & Hno). cbn [fst snd].
  exists c. split; [|done]. by apply (upper_letter c).
Qed.

(** X24. Every option that [extract_mc_options] returns has a letter that
    is one uppercase letter and a text that is not empty and holds no
    newline. *)
Theorem extract_mc_options_sound question_text letter text :
  (letter, text) ∈ extract_mc_options question_text ->
  (exists c, letter = [c] /\ isupper c = true) /\ text <> [] /\ LF ∉ text.
Proof.
  intros (c & -> & Hc & Hne & Hno)%extract_mc_options_elem.
  split; [by exists c|done].
Qed.

(** X25. The options are read back from the text they are shown as: for a
    question text made of stem lines without a dash followed by one line
    per option in the form of the option labels (letter, dash, text),
    [extract_mc_options] returns exactly the options, in order. *)
Theorem extract_mc_options_round_trip stem (opts : list (ascii * str)) :
  Forall (fun line => ("-"%char ∉ line) /\ Forall (fun c => is_linebreak c = false) line)
         stem ->
  Forall (fun o => isupper o.1 = true /\ o.2 <> [] /\ strip o.2 = o.2
                   /\ Forall (fun c => is_linebreak c = false) o.2) opts ->
  extract_mc_options
    (join [LF] (stem ++ ((fun o => option_label [o.1] o.2) <$> opts)))
  = (fun o => ([o.1], o.2)) <$> opts.
Proof.
  intros Hstem Hopts. unfold extract_mc_options.
  rewrite omap_splitlines_join.
  - rewrite omap_app.
    assert (omap (fun line => (fun m : ascii * str => (upper [m.1], m.2))
                                <$> re_option_line line) stem = []) as ->.
    { induction Hstem as [|line stem [Hd _] _ IH]; [done|].
      cbn [omap list_omap]. by rewrite re_option_line_no_dash. }
    simpl. induction Hopts as [|[c text] opts (Hc & Hne & Hs & Hlb) _ IH]; [done|].
    rewrite !fmap_cons. cbn [omap list_omap]. simpl in *.
    rewrite re_option_line_label, IH; [|done..|].
    + simpl. change [upper_char c] with (upper [c]). by rewrite upper_letter.
    + intros Hin. rewrite Forall_forall in Hlb. by apply Hlb in Hin.
  - done.
  - apply Forall_app. split.
    + eapply Forall_impl; [exact Hstem|]. by intros line [_ ?].
    + apply Forall_fmap. eapply Forall_impl; [exact Hopts|].
      intros [c text] (Hc & _ & _ & Hlb). simpl in *. unfold option_label.
      repeat (apply Forall_app; split); [|by repeat constructor|done].
      apply Forall_singleton. clear -Hc.
      destruct c as [[] [] [] [] [] [] [] []]; by vm_compute in Hc |- *.
Qed.

(** X26. Choosing an option is graded by its letter: on a record with a
    stored option letter (without blanks around it), the letter of an
    option that [extract_mc_options] returns is graded correct exactly
    when it is the stored letter, uppercased. *)
Theorem extract_mc_options_letter_graded question_text letter text qa opt
    case_sensitive :
  (letter, text) ∈ extract_mc_options question_text ->
  answer_option qa = Some opt -> opt <> [] -> strip opt = opt ->
  is_correct letter qa case_sensitive = true <-> letter = upper opt.
Proof.
  intros (c & -> & Hc & _)%extract_mc_options_elem Ho Hne Hs.
  rewrite (is_correct_option_letter_trimmed _ _ _ opt) by done.
  by rewrite strip_letter, upper_letter.
Qed.

End Options.

Section OptionsRuns.

Import QuizCore GuiApp Examples.

Lemma extract_mc_options_sound_witness :
  (py "A", py "a PDU") ∈ extract_mc_options (BuildDb.question_text rec_q4)
  /\ (exists c, py "A" = [c] /\ isupper c = true)
  /\ py "a PDU" <> [] /\ (LF ∉ py "a PDU").
Proof.
  assert ((py "A", py "a PDU") ∈ extract_mc_options (BuildDb.question_text rec_q4))
    as H.
  { assert (extract_mc_options (BuildDb.question_text rec_q4) = [(py "A", py "a PDU")])
      as -> by (by vm_compute).
    apply list_elem_of_here. }
  split; [exact H|]. exact (extract_mc_options_sound _ _ _ H).
Defined.

Lemma extract_mc_options_round_trip_witness :
  extract_mc_options
    (join [LF] (lines ["Which protocol hands out addresses?"; ""]
                ++ ((fun o : ascii * str => option_label [o.1] o.2)
                      <$> [("A"%char, py "BOOTP"); ("B"%char, py "SMB");
                           ("C"%char, py "DHCP")])))
  = [(py "A", py "BOOTP"); (py "B", py "SMB"); (py "C", py "DHCP")].
Proof.
  apply (extract_mc_options_round_trip
           (lines ["Which protocol hands out addresses?"; ""])
           [("A"%char, py "BOOTP"); ("B"%char, py "SMB"); ("C"%char, py "DHCP")]).
  - apply (bool_decide_unpack _). by vm_compute.
  - repeat constructor; simpl; try done; by apply (bool_decide_unpack _).
Defined.

Lemma extract_mc_options_letter_graded_witness :
  (py "C", py "DHCP") ∈ extract_mc_options (py "B - SMB" ++ LF :: py "C - DHCP")
  /\ (is_correct (py "C") dhcp true = true <-> py "C" = upper (py "C")).
Proof.
  assert ((py "C", py "DHCP") ∈ extract_mc_options (py "B - SMB" ++ LF :: py "C - DHCP")) as H.
  { apply (bool_decide_unpack _). by vm_compute. }
  split; [exact H|].
  by apply (extract_mc_options_letter_graded _ _ _ dhcp (py "C") true H).
Defined.

End OptionsRuns.

(** ** Text shown as HTML *)

Section Html.

Import GuiApp.

Implicit Types (s a b r : str) (c : ascii).

Lemma replace_char_app old new a b :
  replace_char old new (a ++ b) = replace_char old new a ++ replace_char old new b.
Proof. apply flat_map_app. Qed.

Lemma escape_html_cons c s :
  escape_html (Some (c :: s)) = entity c ++ escape_html (Some s).
Proof.
  unfold escape_html. simpl QuizCore.or_empty.
  change (replace_char "&"%char (py "&amp;") (c :: s))
    with ((if bool_decide (c = "&"%char) then py "&amp;" else [c])
          ++ replace_char "&"%char (py "&amp;") s).
  rewrite !replace_char_app. f_equal. unfold entity.
  case_bool_decide; [done|].
  unfold replace_char. simpl. case_bool_decide; [done|].
  simpl. by case_bool_decide.
Qed.

Lemma escape_html_flat s : escape_html (Some s) = flat_map entity s.
Proof.
  induction s as [|c s IH]; [done|]. by rewrite escape_html_cons, IH.
Qed.

Lemma escape_html_None : escape_html None = [].
Proof. done. Qed.

(** The replacements of two characters are told apart at their start. *)
Lemma entity_code (c1 c2 : ascii) (r1 r2 : str) :
  entity c1 ++ r1 = entity c2 ++ r2 -> c1 = c2 /\ r1 = r2.
Proof.
  unfold entity. repeat case_bool_decide; intros Heq; simplify_eq/=; try done; congruence.
Qed.

Lemma entity_no_markup c : ("<"%char ∉ entity c) /\ (">"%char ∉ entity c).
Proof.
  unfold entity. repeat case_bool_decide; split;
    try (rewrite list_elem_of_singleton; congruence);
    apply (bool_decide_unpack _); by vm_compute.
Qed.

(** X27. The text that [escape_html] returns holds no angle bracket, so it
    opens no tag in the rich text it is put into. *)
Theorem escape_html_no_markup (s : option str) :
  ("<"%char ∉ escape_html s) /\ (">"%char ∉ escape_html s).
Proof.
  destruct s as [s|]; [|split; by intros ?%elem_of_nil].
  rewrite escape_html_flat.
  induction s as [|c s [IH1 IH2]]; [split; by intros ?%elem_of_nil|].
  simpl. rewrite !elem_of_app.
  destruct (entity_no_markup c) as [H1 H2]. split; by intros [?|?].
Qed.

(** X28. [escape_html] loses nothing: two texts that are escaped to the
    same text are the same text. *)
Theorem escape_html_injective a b :
  escape_html (Some a) = escape_html (Some b) -> a = b.
Proof.
  rewrite !escape_html_flat. revert b.
  induction a as [|x a IH]; intros [|y b]; simpl.
  - done.
  - intros H. unfold entity in H. by repeat case_bool_decide.
  - intros H. unfold entity in H. by repeat case_bool_decide.
  - intros [-> Hr]%entity_code. by rewrite (IH b Hr).
Qed.

Lemma escape_html_injective_witness :
  escape_html (Some (py "a<b & c>d")) = escape_html (Some (py "a<b & c>d"))
  /\ py "a<b & c>d" = py "a<b & c>d".
Proof.
  split; [done|]. by apply (escape_html_injective (py "a<b & c>d") (py "a<b & c>d")).
Defined.

End Html.
